(** * Hours-of-Service trip planner and ELD log projection

    A shallow embedding of [trips/hos_engine.py] and [trips/eld_generator.py],
    followed by the properties proved about them.

    Conventions of the embedding.
    - Python [float] values are modelled by exact rationals ([Q]): every
      arithmetic step of the source is kept, its binary rounding is not.
      Two places of the source are sensitive to that rounding.  [round]
      rounds the binary value, so at a decimal tie it may go either way
      where [py_round] goes to the even digit: what is proved of a rounded
      figure is stated with a tolerance.  And the comparison
      [hours_this_segment > hours_to_break] of the driving planner, never
      true of exact quotients ([no_break_carve]), can be true of rounded
      ones: the branch it guards is embedded ([break_carve]), and what is
      proved of the planned segments is chosen to hold of that branch too.
    - A [datetime] is a number of microseconds ([Z]) on a fixed time line; a
      [date] is a day ordinal on the same line.  [timedelta(hours=h)] is [h]
      hours rounded to the microsecond, as the [timedelta] constructor does.
    - Python [str] enumerations ([DutyStatus], [StopType]) are strings.
    - The ledger ([HOSState]) is a mutable object in the source; here it is
      passed explicitly, and every emitted segment is stored together with a
      snapshot of the ledger taken right after the update that accompanies
      the segment ([Emitted]).  The list of segments the source returns is
      the projection [segments_of]. *)

From Stdlib Require Import ZArith QArith Qround Lqa Lia List String Ascii Bool.
Import ListNotations.

Local Open Scope Q_scope.

(** ** Numbers *)

Module PyNum.

Definition Qltb (a b : Q) : bool := negb (Qle_bool b a).

(** [max(a, b)] and [min(a, b)]: the first extremal argument wins. *)
Definition py_max (a b : Q) : Q := if Qltb a b then b else a.
Definition py_min (a b : Q) : Q := if Qltb b a then b else a.

Definition py_abs (a : Q) : Q := if Qltb a 0 then - a else a.

(** Rounding to the nearest integer, ties to even. *)
Definition round_half_even (q : Q) : Z :=
  let f := Qfloor q in
  let r := q - inject_Z f in
  if Qltb r (1 # 2) then f
  else if Qltb (1 # 2) r then (f + 1)%Z
  else if Z.even f then f else (f + 1)%Z.

(** [round(x, ndigits)] *)
Definition py_round (x : Q) (ndigits : nat) : Q :=
  let scale := inject_Z (10 ^ Z.of_nat ndigits) in
  inject_Z (round_half_even (x * scale)) / scale.

End PyNum.
Import PyNum.

(** ** Time *)

Module PyTime.

Definition datetime := Z.   (* microseconds *)
Definition date := Z.       (* days *)

Definition us_per_hour : Z := 3600000000.
Definition us_per_day : Z := 86400000000.

(** [timedelta(hours=h)], in microseconds. *)
Definition timedelta_hours (h : Q) : Z :=
  round_half_even (h * inject_Z us_per_hour).

(** [(b - a).total_seconds() / 3600] *)
Definition hours_between (a b : datetime) : Q :=
  inject_Z (b - a) / inject_Z us_per_hour.

(** [t.date()] *)
Definition date_of (t : datetime) : date := (t / us_per_day)%Z.

(** [datetime(d.year, d.month, d.day)]: midnight opening day [d]. *)
Definition midnight (d : date) : datetime := (d * us_per_day)%Z.

End PyTime.
Import PyTime.

(** ** Constants of [hos_engine.py] *)

Definition AVG_SPEED_MPH : Q := 55.
Definition MAX_DRIVING_HOURS : Q := 11.
Definition MAX_WINDOW_HOURS : Q := 14.
Definition BREAK_AFTER_HOURS : Q := 8.
Definition BREAK_DURATION_HOURS : Q := 0.5.
Definition REST_DURATION_HOURS : Q := 10.
Definition CYCLE_RESTART_HOURS : Q := 34.
Definition MAX_CYCLE_HOURS : Q := 70.
Definition FUEL_INTERVAL_MILES : Q := 1000.
Definition FUEL_STOP_DURATION_HOURS : Q := 0.5.
Definition PICKUP_DURATION_HOURS : Q := 1.
Definition DROPOFF_DURATION_HOURS : Q := 1.

(** [DutyStatus] *)
Definition OFF_DUTY : string := "off_duty".
Definition SLEEPER : string := "sleeper_berth".
Definition DRIVING : string := "driving".
Definition ON_DUTY : string := "on_duty_not_driving".

(** ** Data model *)

Record Location := mkLocation {
  lat : Q;
  lng : Q;
  name : string
}.

Record TripSegment := mkTripSegment {
  segment_type : string;
  duty_status : string;
  start_time : datetime;
  end_time : datetime;
  start_location : option Location;
  end_location : option Location;
  distance_miles : Q;
  reason : string
}.

(** [TripSegment.duration_hours] *)
Definition duration_hours (s : TripSegment) : Q :=
  hours_between (start_time s) (end_time s).

Record HOSState := mkHOSState {
  driving_hours : Q;
  window_hours : Q;
  hours_since_break : Q;
  cycle_hours : Q;
  on_duty : bool
}.

(** [HOSState(cycle_hours=c)] *)
Definition HOSState_init (c : Q) : HOSState := mkHOSState 0 0 0 c false.

Module Ledger.

Definition remaining_driving (s : HOSState) : Q :=
  let by_driving := MAX_DRIVING_HOURS - driving_hours s in
  let by_window := MAX_WINDOW_HOURS - window_hours s in
  let by_break := BREAK_AFTER_HOURS - hours_since_break s in
  let by_cycle := MAX_CYCLE_HOURS - cycle_hours s in
  py_max 0 (py_min (py_min (py_min by_driving by_window) by_break) by_cycle).

Definition remaining_before_break (s : HOSState) : Q :=
  py_max 0 (BREAK_AFTER_HOURS - hours_since_break s).

Definition remaining_drive_limit (s : HOSState) : Q :=
  py_max 0 (MAX_DRIVING_HOURS - driving_hours s).

Definition remaining_window (s : HOSState) : Q :=
  py_max 0 (MAX_WINDOW_HOURS - window_hours s).

Definition remaining_cycle (s : HOSState) : Q :=
  py_max 0 (MAX_CYCLE_HOURS - cycle_hours s).

Definition needs_break (s : HOSState) : bool :=
  Qle_bool BREAK_AFTER_HOURS (hours_since_break s).

Definition needs_rest (s : HOSState) : bool :=
  Qle_bool MAX_DRIVING_HOURS (driving_hours s)
  || Qle_bool MAX_WINDOW_HOURS (window_hours s).

Definition needs_cycle_reset (s : HOSState) : bool :=
  Qle_bool MAX_CYCLE_HOURS (cycle_hours s).

Definition add_driving (hours : Q) (s : HOSState) : HOSState :=
  mkHOSState (driving_hours s + hours) (window_hours s + hours)
             (hours_since_break s + hours) (cycle_hours s + hours) true.

Definition add_on_duty (hours : Q) (s : HOSState) : HOSState :=
  mkHOSState (driving_hours s) (window_hours s + hours)
             (hours_since_break s) (cycle_hours s + hours) true.

Definition take_break (s : HOSState) : HOSState :=
  mkHOSState (driving_hours s) (window_hours s) 0 (cycle_hours s) (on_duty s).

Definition take_rest (s : HOSState) : HOSState :=
  mkHOSState 0 0 0 (cycle_hours s) false.

(** [state.take_rest(); state.cycle_hours = 0.0] *)
Definition take_cycle_restart (s : HOSState) : HOSState :=
  let s' := take_rest s in
  mkHOSState (driving_hours s') (window_hours s') (hours_since_break s') 0
             (on_duty s').

End Ledger.
Import Ledger.

(** [interpolate_location] *)
Definition interpolate_location (start_loc end_loc : Location) (fraction : Q)
  : Location :=
  let la := lat start_loc + (lat end_loc - lat start_loc) * fraction in
  let lo := lng start_loc + (lng end_loc - lng start_loc) * fraction in
  mkLocation (py_round la 6) (py_round lo 6) "".

(** ** Emitted segments *)

Record Emitted := mkEmitted {
  seg : TripSegment;
  ledger : HOSState
}.

Definition segments_of (tr : list Emitted) : list TripSegment := map seg tr.

(** Outcome of a call: a value, the [IndexError] of [segments[-1]] on an empty
    list, or exhaustion of the iteration budget of a loop of the embedding. *)
Inductive outcome (A : Type) : Type :=
| Ok (a : A)
| IndexError
| OutOfFuel.
Arguments Ok {A} a.
Arguments IndexError {A}.
Arguments OutOfFuel {A}.

(** [xs[-1]] *)
Definition last_item {A : Type} (xs : list A) : option A :=
  match rev xs with
  | [] => None
  | x :: _ => Some x
  end.

(** ** The driving planner: [_plan_driving_segment] *)

(** The local variables of the planner that change in the [while] loop. *)
Record PlanVars := mkPlanVars {
  state : HOSState;
  segments : list Emitted;
  miles_remaining : Q;
  current_time : datetime;
  miles_since_fuel : Q
}.

Section Planner.

Variables (start_loc end_loc : Location) (total_miles : Q).

(** [1 - (m / total_miles) if total_miles > 0 else dflt] *)
Definition fraction_at (m dflt : Q) : Q :=
  if Qltb 0 total_miles then 1 - m / total_miles else dflt.

Definition off_duty_stop (kind : string) (t : datetime) (hours : Q)
           (loc : Location) (why : string) : TripSegment :=
  mkTripSegment kind OFF_DUTY t (t + timedelta_hours hours)%Z
                (Some loc) (Some loc) 0 why.

Definition drive_segment (t : datetime) (hours : Q) (a b : Location)
           (miles : Q) : TripSegment :=
  mkTripSegment "drive" DRIVING t (t + timedelta_hours hours)%Z
                (Some a) (Some b) miles "Driving".

(** The branch [if drive_limit <= 0: ...; continue]. *)
Definition interruption (v : PlanVars) : PlanVars :=
  let st := state v in
  let fraction_done := fraction_at (miles_remaining v) 0 in
  let loc := interpolate_location start_loc end_loc fraction_done in
  if needs_cycle_reset st then
    let rest_seg := off_duty_stop "rest" (current_time v) CYCLE_RESTART_HOURS loc
                      "Required 34-hour restart (70hr cycle limit)" in
    let st' := take_cycle_restart st in
    mkPlanVars st' (segments v ++ [mkEmitted rest_seg st'])
               (miles_remaining v) (end_time rest_seg) (miles_since_fuel v)
  else if needs_break st && negb (needs_rest st) then
    let break_seg := off_duty_stop "break" (current_time v) BREAK_DURATION_HOURS loc
                       "Required 30-minute break (8hr driving limit)" in
    let st' := take_break st in
    mkPlanVars st' (segments v ++ [mkEmitted break_seg st'])
               (miles_remaining v) (end_time break_seg) (miles_since_fuel v)
  else
    let rest_seg := off_duty_stop "rest" (current_time v) REST_DURATION_HOURS loc
                      "Required 10-hour rest (driving/window limit)" in
    let st' := take_rest st in
    mkPlanVars st' (segments v ++ [mkEmitted rest_seg st'])
               (miles_remaining v) (end_time rest_seg) (miles_since_fuel v).

(** The branch [if hours_this_segment > hours_to_break and hours_to_break > 0:
    ...; continue]. *)
Definition break_carve (v : PlanVars) (need_fuel : bool) (hours_to_break : Q)
  : PlanVars :=
  let miles_before_break := hours_to_break * AVG_SPEED_MPH in
  let v1 :=
    if Qltb 0.1 miles_before_break then
      let fraction_start := fraction_at (miles_remaining v) 0 in
      let fraction_end := fraction_at (miles_remaining v - miles_before_break) 1 in
      let seg_start := interpolate_location start_loc end_loc fraction_start in
      let seg_end := interpolate_location start_loc end_loc fraction_end in
      let drive_seg := drive_segment (current_time v) hours_to_break
                         seg_start seg_end miles_before_break in
      let st' := add_driving hours_to_break (state v) in
      mkPlanVars st' (segments v ++ [mkEmitted drive_seg st'])
                 (miles_remaining v - miles_before_break)
                 (end_time drive_seg)
                 (miles_since_fuel v + miles_before_break)
    else v in
  let fraction_done := fraction_at (miles_remaining v1) 1 in
  let loc := interpolate_location start_loc end_loc fraction_done in
  let st' := take_break (state v1) in
  if need_fuel
     && Qltb (py_abs (miles_since_fuel v1 - FUEL_INTERVAL_MILES)) 100 then
    let break_seg := off_duty_stop "fuel" (current_time v1) BREAK_DURATION_HOURS loc
                       "Fuel stop + 30-minute break" in
    mkPlanVars st' (segments v1 ++ [mkEmitted break_seg st'])
               (miles_remaining v1) (end_time break_seg) 0
  else
    let break_seg := off_duty_stop "break" (current_time v1) BREAK_DURATION_HOURS loc
                       "Required 30-minute break (8hr driving limit)" in
    mkPlanVars st' (segments v1 ++ [mkEmitted break_seg st'])
               (miles_remaining v1) (end_time break_seg) (miles_since_fuel v1).

(** The tail of the loop body: drive, then fuel when due. *)
Definition drive_and_fuel (v : PlanVars) (need_fuel : bool)
           (miles_this_segment hours_this_segment : Q) : PlanVars :=
  let fraction_start := fraction_at (miles_remaining v) 0 in
  let fraction_end := fraction_at (miles_remaining v - miles_this_segment) 1 in
  let seg_start := interpolate_location start_loc end_loc fraction_start in
  let seg_end := interpolate_location start_loc end_loc fraction_end in
  let drive_seg := drive_segment (current_time v) hours_this_segment
                     seg_start seg_end miles_this_segment in
  let st1 := add_driving hours_this_segment (state v) in
  let v1 := mkPlanVars st1 (segments v ++ [mkEmitted drive_seg st1])
                       (miles_remaining v - miles_this_segment)
                       (end_time drive_seg)
                       (miles_since_fuel v + miles_this_segment) in
  if need_fuel && Qltb 0.1 (miles_remaining v1) then
    let loc := seg_end in
    let fuel_seg := mkTripSegment "fuel" ON_DUTY (current_time v1)
                      (current_time v1 + timedelta_hours FUEL_STOP_DURATION_HOURS)%Z
                      (Some loc) (Some loc) 0 "Fuel stop" in
    let st2 := add_on_duty FUEL_STOP_DURATION_HOURS st1 in
    mkPlanVars st2 (segments v1 ++ [mkEmitted fuel_seg st2])
               (miles_remaining v1) (end_time fuel_seg) 0
  else v1.

(** The quantities computed at the head of the loop body, before the
    branch on the break. *)
Definition miles_can_drive (v : PlanVars) : Q :=
  remaining_driving (state v) * AVG_SPEED_MPH.

Definition miles_to_fuel (v : PlanVars) : Q :=
  let m := FUEL_INTERVAL_MILES - miles_since_fuel v in
  if Qle_bool m 0 then FUEL_INTERVAL_MILES else m.

Definition need_fuel (v : PlanVars) : bool :=
  Qle_bool (miles_to_fuel v) (py_min (miles_remaining v) (miles_can_drive v))
  && Qltb (miles_to_fuel v) (miles_remaining v).

Definition miles_this_segment (v : PlanVars) : Q :=
  if need_fuel v then miles_to_fuel v
  else py_min (miles_remaining v) (miles_can_drive v).

(** One pass through the body of [while miles_remaining > 0.1]. *)
Definition loop_body (v : PlanVars) : PlanVars :=
  let drive_limit := remaining_driving (state v) in
  if Qle_bool drive_limit 0 then interruption v
  else
    let hours_this_segment := miles_this_segment v / AVG_SPEED_MPH in
    let hours_to_break := remaining_before_break (state v) in
    if Qltb hours_to_break hours_this_segment && Qltb 0 hours_to_break then
      break_carve v (need_fuel v) hours_to_break
    else
      drive_and_fuel v (need_fuel v) (miles_this_segment v) hours_this_segment.

(** The [while] loop, with an iteration budget. *)
Fixpoint plan_loop (budget : nat) (v : PlanVars) : option PlanVars :=
  match budget with
  | O => None
  | S n =>
      if Qltb 0.1 (miles_remaining v) then plan_loop n (loop_body v)
      else Some v
  end.

End Planner.

(** An iteration budget that the loop never exhausts ([plan_loop_total]
    below): it is computed from the miles to drive and the ledger. *)
Definition pos_part (x : Q) : Q := py_max 0 x.

Definition can_drive (s : HOSState) : Q :=
  if Qltb 0 (remaining_driving s) then 1 else 0.

Definition potential (v : PlanVars) : Q :=
  miles_remaining v / 40
  + (pos_part (driving_hours (state v)) + pos_part (window_hours (state v))
     + pos_part (hours_since_break (state v)) + pos_part (cycle_hours (state v))) / 4
  + miles_since_fuel v / 500
  + can_drive (state v).

Definition loop_budget (v : PlanVars) : nat :=
  S (Z.to_nat (Qceiling (potential v))).

(** [_plan_driving_segment(state, start_time, start_loc, end_loc, total_miles,
    total_hours)]: the segments it returns, and the ledger as it leaves it. *)
Definition _plan_driving_segment (st : HOSState) (start : datetime)
           (start_loc end_loc : Location) (total_miles total_hours : Q)
  : outcome (list Emitted * HOSState) :=
  let v0 := mkPlanVars st [] total_miles start 0 in
  match plan_loop start_loc end_loc total_miles (loop_budget v0) v0 with
  | Some v => Ok (segments v, state v)
  | None => OutOfFuel
  end.

(** ** The trip planner: [calculate_trip] *)

(** A route leg is a [dict]; [leg_type] is read with
    [leg.get("leg_type", "drive")], so the key may be absent. *)
Record RouteLeg := mkRouteLeg {
  leg_type : option string;
  leg_start_location : Location;
  leg_end_location : Location;
  leg_distance_miles : Q;
  leg_duration_hours : Q
}.

(** [_check_and_add_rest_if_needed(state, segments, current_time, location)] *)
Definition _check_and_add_rest_if_needed (st : HOSState) (segs : list Emitted)
           (now : datetime) (location : Location)
  : HOSState * list Emitted :=
  if needs_cycle_reset st then
    let rest_seg := mkTripSegment "rest" OFF_DUTY now
                      (now + timedelta_hours CYCLE_RESTART_HOURS)%Z
                      (Some location) (Some location) 0
                      "Required 34-hour restart (70hr cycle limit)" in
    let st' := take_cycle_restart st in
    (st', segs ++ [mkEmitted rest_seg st'])
  else if needs_rest st then
    let rest_seg := mkTripSegment "rest" OFF_DUTY now
                      (now + timedelta_hours REST_DURATION_HOURS)%Z
                      (Some location) (Some location) 0
                      "Required 10-hour rest" in
    let st' := take_rest st in
    (st', segs ++ [mkEmitted rest_seg st'])
  else (st, segs).

(** The body shared by the two branches of the [for] loop: drive the leg, rest
    if the ledger asks for it, then one hour of on-duty work of the given
    kind at the end of the leg. *)
Definition drive_then_work (kind why : string) (work_hours : Q)
           (leg : RouteLeg) (st : HOSState) (segs : list Emitted)
           (now : datetime)
  : outcome (HOSState * list Emitted * datetime) :=
  let start_loc := leg_start_location leg in
  let end_loc := leg_end_location leg in
  let total_distance := leg_distance_miles leg in
  let total_drive_time := total_distance / AVG_SPEED_MPH in
  match _plan_driving_segment st now start_loc end_loc total_distance
                              total_drive_time with
  | OutOfFuel => OutOfFuel
  | IndexError => IndexError
  | Ok (planned, st1) =>
      let segs1 := segs ++ planned in
      match last_item segs1 with
      | None => IndexError
      | Some l1 =>
          let now1 := end_time (seg l1) in
          let '(st2, segs2) :=
            _check_and_add_rest_if_needed st1 segs1 now1 end_loc in
          let now2 := match last_item segs2 with
                      | Some l2 => end_time (seg l2)
                      | None => now1
                      end in
          let work_seg := mkTripSegment kind ON_DUTY now2
                            (now2 + timedelta_hours work_hours)%Z
                            (Some end_loc) (Some end_loc) 0 why in
          let st3 := add_on_duty work_hours st2 in
          Ok (st3, segs2 ++ [mkEmitted work_seg st3], end_time work_seg)
      end
  end.

(** The [for leg in route_legs] loop. *)
Fixpoint trip_loop (route_legs : list RouteLeg) (st : HOSState)
         (segs : list Emitted) (now : datetime) : outcome (list Emitted) :=
  match route_legs with
  | [] => Ok segs
  | leg :: rest =>
      let lt := match leg_type leg with Some s => s | None => "drive"%string end in
      if String.eqb lt "drive_to_pickup" then
        match drive_then_work "pickup" "Pickup - Loading" PICKUP_DURATION_HOURS
                              leg st segs now with
        | Ok (st', segs', now') => trip_loop rest st' segs' now'
        | IndexError => IndexError
        | OutOfFuel => OutOfFuel
        end
      else if String.eqb lt "drive_to_dropoff" then
        match drive_then_work "dropoff" "Dropoff - Unloading" DROPOFF_DURATION_HOURS
                              leg st segs now with
        | Ok (st', segs', now') => trip_loop rest st' segs' now'
        | IndexError => IndexError
        | OutOfFuel => OutOfFuel
        end
      else trip_loop rest st segs now
  end.

(** [calculate_trip(route_legs, current_cycle_used, start_time)], with the
    ledger snapshots.  [start_time] is always given: the clock read of the
    default is outside the embedding. *)
Definition calculate_trip_trace (route_legs : list RouteLeg)
           (current_cycle_used : Q) (start : datetime)
  : outcome (list Emitted) :=
  trip_loop route_legs (HOSState_init current_cycle_used) [] start.

Definition calculate_trip (route_legs : list RouteLeg)
           (current_cycle_used : Q) (start : datetime)
  : outcome (list TripSegment) :=
  match calculate_trip_trace route_legs current_cycle_used start with
  | Ok tr => Ok (segments_of tr)
  | IndexError => IndexError
  | OutOfFuel => OutOfFuel
  end.

(** ** The ELD projector: [eld_generator.py] *)

Module Eld.

(** An entry of a daily log (a [dict] in the source). *)
Record LogEntry := mkLogEntry {
  status : string;
  start_hour : Q;
  end_hour : Q;
  entry_segment_type : string
}.

Record TotalHours := mkTotalHours {
  off_duty_total : Q;
  sleeper_berth_total : Q;
  driving_total : Q;
  on_duty_not_driving_total : Q
}.

(** A daily log.  [log_date] is the day itself; the source stores its ISO
    text, [current_date.isoformat()]. *)
Record DailyLog := mkDailyLog {
  log_date : date;
  day_number : Z;
  entries : list LogEntry;
  total_hours : TotalHours;
  total_miles : Q;
  remarks : list string
}.

(** [_map_duty_status] *)
Definition _map_duty_status (s : string) : string :=
  if String.eqb s "off_duty" then "off_duty"
  else if String.eqb s "sleeper_berth" then "sleeper_berth"
  else if String.eqb s "driving" then "driving"
  else if String.eqb s "on_duty_not_driving" then "on_duty_not_driving"
  else if String.eqb s "on_duty" then "on_duty_not_driving"
  else "off_duty".

(** [defaultdict(float)] keyed by status. *)
Definition hours_dict := list (string * Q).

Fixpoint dict_get (d : hours_dict) (k : string) (dflt : Q) : Q :=
  match d with
  | [] => dflt
  | (k', x) :: d' => if String.eqb k k' then x else dict_get d' k dflt
  end.

(** [d[k] += x] *)
Fixpoint dict_add (d : hours_dict) (k : string) (x : Q) : hours_dict :=
  match d with
  | [] => [(k, 0 + x)]
  | (k', y) :: d' =>
      if String.eqb k k' then (k', y + x) :: d' else (k', y) :: dict_add d' k x
  end.

(** [entries.sort(key=lambda e: e["start_hour"])]: a stable sort. *)
Fixpoint insert_entry (e : LogEntry) (sorted : list LogEntry) : list LogEntry :=
  match sorted with
  | [] => [e]
  | x :: rest =>
      if Qltb (start_hour e) (start_hour x) then e :: x :: rest
      else x :: insert_entry e rest
  end.

Definition sort_entries (l : list LogEntry) : list LogEntry :=
  fold_left (fun acc e => insert_entry e acc) l [].

Definition gap_entry (a b : Q) : LogEntry :=
  mkLogEntry "off_duty" a b "off_duty".

(** The [for entry in entries] loop of [_fill_gaps] and the closing gap. *)
Fixpoint fill_from (current_hour : Q) (sorted : list LogEntry) : list LogEntry :=
  match sorted with
  | [] =>
      if Qltb current_hour 23.99
      then [gap_entry (py_round current_hour 4) 24]
      else []
  | entry :: rest =>
      let gap :=
        if Qltb (current_hour + 0.01) (start_hour entry)
        then [gap_entry (py_round current_hour 4) (py_round (start_hour entry) 4)]
        else [] in
      gap ++ entry :: fill_from (end_hour entry) rest
  end.

(** [_fill_gaps] *)
Definition _fill_gaps (l : list LogEntry) : list LogEntry :=
  match l with
  | [] => [gap_entry 0 24]
  | _ => fill_from 0 (sort_entries l)
  end.

(** ["%02d"] for a number below one hundred. *)
Definition digit (n : Z) : ascii := ascii_of_nat (48 + Z.to_nat n).
Definition two_digits (n : Z) : string :=
  String (digit (n / 10)) (String (digit (n mod 10)) EmptyString).

(** [t.strftime("%H:%M")] *)
Definition strftime_HM (t : datetime) : string :=
  let tod := (t mod us_per_day)%Z in
  let h := (tod / us_per_hour)%Z in
  let m := ((tod mod us_per_hour) / 60000000)%Z in
  (two_digits h ++ ":" ++ two_digits m)%string.

(** What the loop over the segments accumulates for one day. *)
Record DayAcc := mkDayAcc {
  day_entries : list LogEntry;
  day_miles : Q;
  day_remarks : list string;
  hours_by_status : hours_dict
}.

(** Body of [for seg in segments]. *)
Definition project_segment (day_start day_end : datetime) (acc : DayAcc)
           (s : TripSegment) : DayAcc :=
  let seg_start := Z.max (start_time s) day_start in
  let seg_end := Z.min (end_time s) day_end in
  if (seg_start >=? seg_end)%Z then acc
  else
    let start_h := hours_between day_start seg_start in
    let end_h := hours_between day_start seg_end in
    let st := _map_duty_status (duty_status s) in
    let entry := mkLogEntry st (py_round start_h 4) (py_round end_h 4)
                            (segment_type s) in
    let duration := end_h - start_h in
    let miles :=
      if String.eqb (duty_status s) "driving" && Qltb 0 (distance_miles s) then
        let seg_total_hours := duration_hours s in
        if Qltb 0 seg_total_hours then
          day_miles acc + distance_miles s * (duration / seg_total_hours)
        else day_miles acc
      else day_miles acc in
    let rem :=
      if negb (String.eqb (reason s) "") && (seg_start >=? start_time s)%Z then
        day_remarks acc ++ [(strftime_HM seg_start ++ " - " ++ reason s)%string]
      else day_remarks acc in
    mkDayAcc (day_entries acc ++ [entry]) miles rem
             (dict_add (hours_by_status acc) st duration).

(** One pass through the body of [while current_date <= end_date]. *)
Definition day_log (segs : list TripSegment) (current_date : date)
           (day_num : Z) : DailyLog :=
  let day_start := midnight current_date in
  let day_end := (day_start + us_per_day)%Z in
  let acc := fold_left (project_segment day_start day_end) segs
                       (mkDayAcc [] 0 [] []) in
  let filled := _fill_gaps (day_entries acc) in
  let hours := fold_left
                 (fun d e => dict_add d (status e) (end_hour e - start_hour e))
                 filled [] in
  mkDailyLog current_date day_num filled
    (mkTotalHours (py_round (dict_get hours "off_duty" 0) 2)
                  (py_round (dict_get hours "sleeper_berth" 0) 2)
                  (py_round (dict_get hours "driving" 0) 2)
                  (py_round (dict_get hours "on_duty_not_driving" 0) 2))
    (py_round (day_miles acc) 1)
    (day_remarks acc).

(** The [while current_date <= end_date] loop: [days] passes, one per day
    from [current_date] on, [day_num] counting the logs already made. *)
Fixpoint days_loop (days : nat) (segs : list TripSegment)
         (current_date : date) (day_num : Z) : list DailyLog :=
  match days with
  | O => []
  | S n =>
      day_log segs current_date (day_num + 1)
      :: days_loop n segs (current_date + 1)%Z (day_num + 1)%Z
  end.

(** [generate_eld_logs(segments, trip_start_date)].  The loop runs while
    [current_date <= end_date], that is [end_date - start_date + 1] times
    (not at all when that is negative). *)
Definition generate_eld_logs (segs : list TripSegment)
           (trip_start_date : option date) : list DailyLog :=
  match segs with
  | [] => []
  | first :: _ =>
      let first_start := start_time first in
      let last_end := end_time (last segs first) in
      let start_date := match trip_start_date with
                        | Some d => d
                        | None => date_of first_start
                        end in
      let end_date := date_of last_end in
      days_loop (Z.to_nat (end_date - start_date + 1)) segs start_date 0
  end.

End Eld.
Import Eld.

(** ** The response of [plan_trip]: [views.py]

    The part of [plan_trip] that follows routing: from the route legs to the
    summary, the stops and the logs.  Instants are kept as they are (the
    source writes them with [isoformat()]).  An exception raised while
    planning is answered with status 500. *)

Module Views.

Record Stop := mkStop {
  stop_type : string;
  stop_location : option Location;
  stop_start_time : datetime;
  stop_end_time : datetime;
  stop_duration_hours : Q;
  stop_reason : string
}.

Record TripSummary := mkTripSummary {
  total_miles : Q;
  total_driving_hours : Q;
  total_trip_hours : Q;
  number_of_stops : nat;
  number_of_days : nat;
  summary_start_time : option datetime;
  summary_end_time : option datetime
}.

Record Response := mkResponse {
  trip_summary : TripSummary;
  response_segments : list TripSegment;
  response_stops : list Stop;
  eld_logs : list DailyLog
}.

(** [sum(xs)] *)
Definition py_sum (xs : list Q) : Q := fold_left Qplus xs 0.

(** [seg.segment_type in ("break", "rest", "fuel", "pickup", "dropoff")] *)
Definition is_stop_kind (s : TripSegment) : bool :=
  String.eqb (segment_type s) "break" || String.eqb (segment_type s) "rest"
  || String.eqb (segment_type s) "fuel" || String.eqb (segment_type s) "pickup"
  || String.eqb (segment_type s) "dropoff".

Definition stop_of (s : TripSegment) : Stop :=
  mkStop (segment_type s) (start_location s) (start_time s) (end_time s)
         (py_round (duration_hours s) 2) (reason s).

Definition stops_of (segs : list TripSegment) : list Stop :=
  map stop_of (filter is_stop_kind segs).

Definition is_drive_kind (s : TripSegment) : bool :=
  String.eqb (segment_type s) "drive".

Definition summary_of (segs : list TripSegment) (stops : list Stop)
           (logs : list DailyLog) : TripSummary :=
  let total_miles := py_sum (map distance_miles (filter is_drive_kind segs)) in
  let total_driving_hours :=
    py_sum (map duration_hours (filter is_drive_kind segs)) in
  let total_trip_hours :=
    match segs with
    | [] => 0
    | first :: _ => hours_between (start_time first) (end_time (last segs first))
    end in
  mkTripSummary (py_round total_miles 1) (py_round total_driving_hours 2)
                (py_round total_trip_hours 2)
                (List.length stops) (List.length logs)
                (match segs with
                 | [] => None
                 | first :: _ => Some (start_time first)
                 end)
                (match segs with
                 | [] => None
                 | first :: _ => Some (end_time (last segs first))
                 end).

(** The answer: the response, or status 500 with "Trip planning failed". *)
Inductive answer : Type :=
| Served (r : Response)
| Failed500.

Definition plan_trip_core (route_legs : list RouteLeg)
           (current_cycle_used : Q) (start : datetime) : answer :=
  match calculate_trip route_legs current_cycle_used start with
  | Ok segs =>
      let logs := generate_eld_logs segs None in
      let stops := stops_of segs in
      Served (mkResponse (summary_of segs stops logs) segs stops logs)
  | IndexError => Failed500
  | OutOfFuel => Failed500
  end.

End Views.

(** * Vocabulary of the properties *)

(** Numerical slack allowed on the ledger limits. *)
Definition slack : Q := 0.000001.

Definition ledger_compliant (s : HOSState) : Prop :=
  driving_hours s <= MAX_DRIVING_HOURS + slack
  /\ window_hours s <= MAX_WINDOW_HOURS + slack
  /\ hours_since_break s <= BREAK_AFTER_HOURS + slack
  /\ cycle_hours s <= MAX_CYCLE_HOURS + slack.

Definition is_drive (s : TripSegment) : bool :=
  String.eqb (segment_type s) "drive".

Definition is_fuel (s : TripSegment) : bool :=
  String.eqb (segment_type s) "fuel".

(** A drive segment is emitted with the ledger within its limits. *)
Definition drive_compliant (e : Emitted) : Prop :=
  is_drive (seg e) = true -> ledger_compliant (ledger e).

(** [l] is a gapless chain of segments from instant [t] to instant [t']. *)
Fixpoint chained (t : datetime) (l : list TripSegment) (t' : datetime) : Prop :=
  match l with
  | [] => t = t'
  | s :: r => start_time s = t /\ chained (end_time s) r t'
  end.

(** Miles driven over a list of segments. *)
Fixpoint drive_miles (l : list TripSegment) : Q :=
  match l with
  | [] => 0
  | s :: r => (if is_drive s then distance_miles s else 0) + drive_miles r
  end.

(** Miles driven since the last fuel segment, read left to right. *)
Definition fuel_step (acc : Q) (s : TripSegment) : Q :=
  if is_fuel s then 0
  else if is_drive s then acc + distance_miles s
  else acc.

Definition since_fuel (l : list TripSegment) : Q := fold_left fuel_step l 0.

Definition no_fuel (l : list TripSegment) : Prop :=
  Forall (fun s => is_fuel s = false) l.

(** Fuel cadence: no stretch of the list without a fuel segment drives more
    than [limit] miles. *)
Definition fuel_cadence (limit : Q) (l : list TripSegment) : Prop :=
  forall pre mid post,
    l = pre ++ mid ++ post -> no_fuel mid -> drive_miles mid <= limit.

(** The counter of [since_fuel] never passes [limit] along the list. *)
Definition runs_below (limit : Q) (l : list TripSegment) : Prop :=
  forall p q, l = p ++ q -> since_fuel p <= limit.

Definition nonneg_miles (l : list TripSegment) : Prop :=
  Forall (fun s => is_drive s = true -> 0 <= distance_miles s) l.

(** ** Sample inputs *)

Definition depot : Location := mkLocation 41 (-87) "Depot".
Definition dock : Location := mkLocation 39 (-94) "Dock".
Definition yard : Location := mkLocation 32 (-96) "Yard".

Definition no_segment : TripSegment :=
  mkTripSegment "" "" 0%Z 0%Z None None 0 "".

(** Two legs of 600 miles each. *)
Definition two_short_legs : list RouteLeg :=
  [mkRouteLeg (Some "drive_to_pickup"%string) depot dock 600 11;
   mkRouteLeg (Some "drive_to_dropoff"%string) dock yard 600 11].

Definition two_short_legs_trace : list Emitted :=
  match calculate_trip_trace two_short_legs 0 0%Z with
  | Ok tr => tr
  | _ => []
  end.

Definition two_short_legs_segments : list TripSegment :=
  segments_of two_short_legs_trace.

(** A trip whose first leg has no length. *)
Definition zero_first_leg : list RouteLeg :=
  [mkRouteLeg (Some "drive_to_pickup"%string) depot depot 0 0;
   mkRouteLeg (Some "drive_to_dropoff"%string) depot yard 600 11].

(** A trip whose second leg has no length. *)
Definition zero_second_leg : list RouteLeg :=
  [mkRouteLeg (Some "drive_to_pickup"%string) depot dock 600 11;
   mkRouteLeg (Some "drive_to_dropoff"%string) dock dock 0 0].

(** A ledger with the break limit reached, in the middle of a long leg. *)
Definition tired_vars : PlanVars :=
  mkPlanVars (mkHOSState 8 8 8 8 true) [] 500 0%Z 440.

(** ** Vocabulary of the daily logs *)

(** The days from [a] through [b], both included. *)
Definition days_between (a b : date) : list date :=
  map (fun i => (a + Z.of_nat i)%Z) (seq 0 (Z.to_nat (b - a + 1))).

(** Segments in time order that do not overlap, none starting before [t]. *)
Fixpoint ordered (t : datetime) (l : list TripSegment) : Prop :=
  match l with
  | [] => True
  | s :: r =>
      (t <= start_time s)%Z /\ (start_time s <= end_time s)%Z
      /\ ordered (end_time s) r
  end.

Fixpoint sorted_starts (es : list LogEntry) : Prop :=
  match es with
  | e1 :: ((e2 :: _) as r) => start_hour e1 <= start_hour e2 /\ sorted_starts r
  | _ => True
  end.

(** Each entry ends where the next one starts, within [tol]. *)
Fixpoint adjacent (tol : Q) (es : list LogEntry) : Prop :=
  match es with
  | e1 :: ((e2 :: _) as r) =>
      - tol <= end_hour e1 - start_hour e2 <= tol /\ adjacent tol r
  | _ => True
  end.

(** The entries tile the day: sorted, adjacent within [tol], the first one
    starting within [tol_ends] of 0 and the last one ending within
    [tol_ends] of 24. *)
Definition tiles_day (tol tol_ends : Q) (es : list LogEntry) : Prop :=
  sorted_starts es
  /\ adjacent tol es
  /\ (exists e, hd_error es = Some e /\ 0 <= start_hour e <= tol_ends)
  /\ (exists e, last_item es = Some e /\ 24 - tol_ends <= end_hour e <= 24).

(** Hour of the day [d] at instant [t], as the entries store it. *)
Definition hour_of (d : date) (t : datetime) : Q :=
  py_round (hours_between (midnight d) t) 4.

(** Sample segment lists, with times in hours from the origin. *)
Definition at_hour (h : Q) : datetime := timedelta_hours h.

Definition plain_segment (kind st : string) (a b : Q) (why : string)
  : TripSegment :=
  mkTripSegment kind st (at_hour a) (at_hour b) None None 0 why.

(** A drive from 22:00 to 02:00 of the next day. *)
Definition overnight_drive : list TripSegment :=
  [mkTripSegment "drive" DRIVING (at_hour 22) (at_hour 26)
                 (Some depot) (Some dock) 220 "Driving"].

(** A two-hour stop on the third day (day 2). *)
Definition late_stop : list TripSegment :=
  [plain_segment "rest" OFF_DUTY 56 58 "Required 10-hour rest"].

(** Two segments that overlap. *)
Definition overlapping_segments : list TripSegment :=
  [plain_segment "pickup" ON_DUTY 1 5 "Pickup - Loading";
   plain_segment "fuel" ON_DUTY 2 3 "Fuel stop"].

(** One segment from 00:00:18 to 23:59:42. *)
Definition inset_segment : list TripSegment :=
  [plain_segment "rest" OFF_DUTY 0.005 23.995 "Required 10-hour rest"].

Definition entry_hours (e : LogEntry) : Q * Q :=
  (Qred (start_hour e), Qred (end_hour e)).

(** The entries that the loop over the segments collects for day [d]. *)
Definition slice_entries (d : date) (segs : list TripSegment) : list LogEntry :=
  flat_map
    (fun s =>
       let u := Z.max (start_time s) (midnight d) in
       let u' := Z.min (end_time s) (midnight d + us_per_day) in
       if (u >=? u')%Z then []
       else [mkLogEntry (_map_duty_status (duty_status s))
                        (hour_of d u) (hour_of d u') (segment_type s)])
    segs.

Definition rounded (x : Q) : Prop := py_round x 4 == x.

(** Entries in time order that do not overlap, none starting before [c],
    with hours that are rounded and at most 24. *)
Fixpoint eordered (c : Q) (es : list LogEntry) : Prop :=
  match es with
  | [] => True
  | e :: r =>
      c <= start_hour e /\ start_hour e <= end_hour e /\ end_hour e <= 24
      /\ rounded (start_hour e) /\ rounded (end_hour e)
      /\ eordered (end_hour e) r
  end.

(** The filled entries that follow an entry starting at [lo] and ending at
    [cur]. *)
Fixpoint tiled_from (lo cur : Q) (out : list LogEntry) : Prop :=
  match out with
  | [] => 23.99 <= cur <= 24
  | e :: r =>
      lo <= start_hour e /\ - 0.01 <= cur - start_hour e <= 0.01
      /\ tiled_from (start_hour e) (end_hour e) r
  end.

(** The entries of the first daily log of a segment list. *)
Definition first_day_entries (segs : list TripSegment) : list LogEntry :=
  match generate_eld_logs segs None with
  | log :: _ => entries log
  | [] => []
  end.

(** ** Vocabulary of the planning loop *)

(** What one pass of the loop does: an interruption, a drive, or a drive
    followed by a fuel stop. *)
Inductive pass_kind (v v' : PlanVars) : Prop :=
| pass_interruption (s : TripSegment) :
    remaining_driving (state v) <= 0 ->
    segments v' = segments v ++ [mkEmitted s (state v')] ->
    is_drive s = false -> is_fuel s = false ->
    start_time s = current_time v -> end_time s = current_time v' ->
    miles_remaining v' = miles_remaining v ->
    miles_since_fuel v' = miles_since_fuel v ->
    0 < remaining_driving (state v') ->
    pass_kind v v'
| pass_drive (d : TripSegment) :
    0 < remaining_driving (state v) ->
    segments v' = segments v
                    ++ [mkEmitted d (add_driving (distance_miles d / 55) (state v))] ->
    is_drive d = true -> is_fuel d = false ->
    distance_miles d = miles_this_segment v ->
    start_time d = current_time v -> end_time d = current_time v' ->
    miles_remaining v' = miles_remaining v - distance_miles d ->
    miles_since_fuel v' = miles_since_fuel v + distance_miles d ->
    (need_fuel v = false \/ miles_remaining v' <= (1 # 10)) ->
    pass_kind v v'
| pass_drive_fuel (d f : TripSegment) :
    0 < remaining_driving (state v) ->
    segments v' = segments v
                    ++ [mkEmitted d (add_driving (distance_miles d / 55) (state v));
                        mkEmitted f (state v')] ->
    is_drive d = true -> is_fuel d = false ->
    is_drive f = false -> is_fuel f = true ->
    distance_miles d = miles_this_segment v ->
    start_time d = current_time v -> end_time d = start_time f ->
    end_time f = current_time v' ->
    miles_remaining v' = miles_remaining v - distance_miles d ->
    miles_since_fuel v' = 0 ->
    need_fuel v = true ->
    pass_kind v v'.

(** The fuel counter of the planner is the counter of the emitted list, and
    it stays below the fuel interval. *)
Definition fuel_invariant (v : PlanVars) : Prop :=
  since_fuel (segments_of (segments v)) == miles_since_fuel v
  /\ 0 <= miles_since_fuel v <= 1000
  /\ ((1 # 10) < miles_remaining v -> miles_since_fuel v < 1000)
  /\ runs_below 1000 (segments_of (segments v))
  /\ nonneg_miles (segments_of (segments v)).

(** What the trip planner keeps true of the segments emitted so far. *)
Definition trip_invariant (t0 : datetime) (segs : list Emitted) (now : datetime)
  : Prop :=
  Forall drive_compliant segs /\ chained t0 (segments_of segs) now.

(** ** Shapes of the emitted segments *)

Definition one_place (s : TripSegment) : Prop :=
  start_location s = end_location s.

Definition forward (s : TripSegment) : Prop :=
  (start_time s <= end_time s)%Z.

(** A drive: status [driving], a positive distance. *)
Definition drive_shape (s : TripSegment) : Prop :=
  segment_type s = "drive"%string /\ duty_status s = DRIVING
  /\ 0 < distance_miles s /\ reason s = "Driving"%string /\ forward s.

(** A break or a rest: off duty, at one place, no distance. *)
Definition stop_shape (s : TripSegment) : Prop :=
  (segment_type s = "break"%string \/ segment_type s = "rest"%string)
  /\ duty_status s = OFF_DUTY /\ distance_miles s = 0
  /\ one_place s /\ forward s.

(** A fuel stop: at one place, no distance, on duty or (when it doubles as
    the break) off duty. *)
Definition fuel_shape (s : TripSegment) : Prop :=
  segment_type s = "fuel"%string
  /\ (duty_status s = ON_DUTY \/ duty_status s = OFF_DUTY)
  /\ distance_miles s = 0 /\ one_place s /\ forward s.

(** A pickup or a dropoff: one hour on duty at one place. *)
Definition work_shape (s : TripSegment) : Prop :=
  (segment_type s = "pickup"%string \/ segment_type s = "dropoff"%string)
  /\ duty_status s = ON_DUTY /\ distance_miles s = 0 /\ one_place s
  /\ end_time s = (start_time s + us_per_hour)%Z.

Definition planned_shape (s : TripSegment) : Prop :=
  drive_shape s \/ stop_shape s \/ fuel_shape s.

Definition trip_shape (s : TripSegment) : Prop :=
  planned_shape s \/ work_shape s.

(** A break or a rest, told by its kind. *)
Definition is_stop (s : TripSegment) : bool :=
  String.eqb (segment_type s) "break" || String.eqb (segment_type s) "rest".

(** Every break or rest of the list is directly followed by a drive. *)
Fixpoint stops_then_drive (l : list TripSegment) : Prop :=
  match l with
  | a :: ((b :: _) as r) =>
      (is_stop a = true -> is_drive b = true) /\ stops_then_drive r
  | _ => True
  end.

(** What the planning loop keeps true of the shapes it has emitted, for a
    leg of [total] miles. *)
Definition leg_invariant (total : Q) (v : PlanVars) : Prop :=
  Forall planned_shape (segments_of (segments v))
  /\ stops_then_drive (segments_of (segments v))
  /\ (segments v = [] -> miles_remaining v = total)
  /\ (forall l : Emitted,
        last_item (segments v) = Some l ->
        (is_stop (seg l) = true ->
         0 < remaining_driving (state v) /\ 0.1 < miles_remaining v)
        /\ (is_fuel (seg l) = true -> 0.1 < miles_remaining v)).

(** ** Vocabulary of whole trips *)

(** [leg.get("leg_type", "drive")] *)
Definition leg_kind (leg : RouteLeg) : string :=
  match leg_type leg with
  | Some s => s
  | None => "drive"%string
  end.

(** The legs that [calculate_trip] acts on. *)
Definition known_leg (leg : RouteLeg) : bool :=
  String.eqb (leg_kind leg) "drive_to_pickup"
  || String.eqb (leg_kind leg) "drive_to_dropoff".

Definition count_kind (kind : string) (l : list TripSegment) : nat :=
  List.length (filter (fun s => String.eqb (segment_type s) kind) l).

Definition count_legs (kind : string) (legs : list RouteLeg) : nat :=
  List.length (filter (fun leg => String.eqb (leg_kind leg) kind) legs).

(** Total length of the legs acted on. *)
Fixpoint known_miles (legs : list RouteLeg) : Q :=
  match legs with
  | [] => 0
  | leg :: rest =>
      (if known_leg leg then leg_distance_miles leg else 0) + known_miles rest
  end.

Definition is_work (s : TripSegment) : bool :=
  String.eqb (segment_type s) "pickup" || String.eqb (segment_type s) "dropoff".

(** The ledger right after a pickup or a dropoff. *)
Definition work_within_limits (e : Emitted) : Prop :=
  is_work (seg e) = true ->
  driving_hours (ledger e) < MAX_DRIVING_HOURS
  /\ window_hours (ledger e) < MAX_WINDOW_HOURS + 1
  /\ cycle_hours (ledger e) < MAX_CYCLE_HOURS + 1.

(** The slack of 0.1 mile that each leg acted on may leave undriven. *)
Fixpoint known_slack (legs : list RouteLeg) : Q :=
  match legs with
  | [] => 0
  | leg :: rest => (if known_leg leg then 0.1 else 0) + known_slack rest
  end.

Definition nonneg_legs (legs : list RouteLeg) : Prop :=
  Forall (fun leg => known_leg leg = true -> 0 <= leg_distance_miles leg) legs.

(** What [trip_loop] adds to the segments [segs] it starts from, by its
    outcome. *)
Definition trip_outcome (legs : list RouteLeg) (segs : list Emitted)
           (r : outcome (list Emitted)) : Prop :=
  match r with
  | OutOfFuel => False
  | IndexError =>
      segs = []
      /\ exists leg, find known_leg legs = Some leg
                     /\ leg_distance_miles leg <= 0.1
  | Ok tr =>
      exists added : list Emitted,
        tr = segs ++ added
        /\ Forall trip_shape (segments_of added)
        /\ Forall work_within_limits added
        /\ count_kind "pickup" (segments_of added)
           = count_legs "drive_to_pickup" legs
        /\ count_kind "dropoff" (segments_of added)
           = count_legs "drive_to_dropoff" legs
        /\ (segs = [] ->
            match find known_leg legs with
            | None => added = []
            | Some leg => 0.1 < leg_distance_miles leg /\ added <> []
            end)
        /\ (nonneg_legs legs ->
            known_miles legs - known_slack legs
            <= drive_miles (segments_of added) <= known_miles legs)
  end.

(** ** Vocabulary of the log entries *)

Definition canonical_status (s : string) : Prop :=
  s = "off_duty"%string \/ s = "sleeper_berth"%string
  \/ s = "driving"%string \/ s = "on_duty_not_driving"%string.

(** An entry added by [_fill_gaps]. *)
Definition is_gap (e : LogEntry) : Prop :=
  status e = "off_duty"%string /\ entry_segment_type e = "off_duty"%string.

(** The remark that day [d] holds for segment [s], if any. *)
Definition remark_of (d : date) (s : TripSegment) : list string :=
  let seg_start := Z.max (start_time s) (midnight d) in
  let seg_end := Z.min (end_time s) (midnight d + us_per_day) in
  if (seg_start >=? seg_end)%Z then []
  else if String.eqb (reason s) "" then []
  else [(strftime_HM seg_start ++ " - " ++ reason s)%string].

(** Hours of the entries with status [k]. *)
Fixpoint status_hours (k : string) (es : list LogEntry) : Q :=
  match es with
  | [] => 0
  | e :: r =>
      (if String.eqb k (status e) then end_hour e - start_hour e else 0)
      + status_hours k r
  end.

(** Hours of all the entries. *)
Fixpoint span_hours (es : list LogEntry) : Q :=
  match es with
  | [] => 0
  | e :: r => (end_hour e - start_hour e) + span_hours r
  end.

Definition no_log : DailyLog :=
  mkDailyLog 0%Z 0%Z [] (mkTotalHours 0 0 0 0) 0 [].

(** Entries that follow one another without a gap, the first one starting
    at [c]. *)
Fixpoint etight (c : Q) (es : list LogEntry) : Prop :=
  match es with
  | [] => True
  | e :: r => start_hour e == c /\ etight (end_hour e) r
  end.

(** The sum of the four figures of [total_hours]. *)
Definition total_of (h : TotalHours) : Q :=
  off_duty_total h + sleeper_berth_total h + driving_total h
  + on_duty_not_driving_total h.

(** ** Vocabulary of the places *)

(** [x] lies between [a] and [b], whichever is the larger. *)
Definition between (a b x : Q) : Prop :=
  (a <= x /\ x <= b) \/ (b <= x /\ x <= a).


(** ** Durations and reasons of the planned segments *)

Definition lasts (s : TripSegment) (us : Z) : Prop :=
  end_time s = (start_time s + us)%Z.

(** The duration and the reason that go with the kind of a planned segment. *)
Definition timed_shape (s : TripSegment) : Prop :=
  (segment_type s = "drive"%string /\ reason s = "Driving"%string
   /\ lasts s (timedelta_hours (distance_miles s / AVG_SPEED_MPH)))
  \/ (segment_type s = "break"%string
      /\ reason s = "Required 30-minute break (8hr driving limit)"%string
      /\ lasts s 1800000000)
  \/ (segment_type s = "rest"%string
      /\ ((reason s = "Required 34-hour restart (70hr cycle limit)"%string
           /\ lasts s (34 * us_per_hour))
          \/ (reason s = "Required 10-hour rest (driving/window limit)"%string
              /\ lasts s (10 * us_per_hour))))
  \/ (segment_type s = "fuel"%string
      /\ (reason s = "Fuel stop"%string
          \/ reason s = "Fuel stop + 30-minute break"%string)
      /\ lasts s 1800000000).

(** ** Vocabulary of the miles of a day *)

(** The miles that day [d] is credited with for segment [s]. *)
Definition miles_of (d : date) (s : TripSegment) : Q :=
  let seg_start := Z.max (start_time s) (midnight d) in
  let seg_end := Z.min (end_time s) (midnight d + us_per_day) in
  if (seg_start >=? seg_end)%Z then 0
  else if String.eqb (duty_status s) "driving" && Qltb 0 (distance_miles s) then
    if Qltb 0 (duration_hours s) then
      distance_miles s
      * ((hours_between (midnight d) seg_end
          - hours_between (midnight d) seg_start) / duration_hours s)
    else 0
  else 0.

(** The miles that day [d] is credited with, for all the segments. *)
Fixpoint day_share (d : date) (segs : list TripSegment) : Q :=
  match segs with
  | [] => 0
  | s :: r => miles_of d s + day_share d r
  end.

(** The miles credited for segment [s] over the [n] days from [d0] on. *)
Fixpoint miles_over_days (n : nat) (d0 : date) (s : TripSegment) : Q :=
  match n with
  | O => 0
  | S m => miles_of d0 s + miles_over_days m (d0 + 1)%Z s
  end.

(** Microseconds of segment [s] that fall on day [d]. *)
Definition slice_us (d : date) (s : TripSegment) : Z :=
  Z.max 0 (Z.min (end_time s) (midnight d + us_per_day)
           - Z.max (start_time s) (midnight d)).

Fixpoint slice_us_over (n : nat) (d0 : date) (s : TripSegment) : Z :=
  match n with
  | O => 0
  | S m => (slice_us d0 s + slice_us_over m (d0 + 1) s)%Z
  end.

(** ** Tolerances *)

(** [x] is [a], give or take [tol]. *)
Definition near (tol a x : Q) : Prop := a - tol <= x /\ x <= a + tol.

(** [x] lies between [a] and [b], give or take [tol]. *)
Definition about_between (tol a b x : Q) : Prop :=
  (a - tol <= x /\ x <= b + tol) \/ (b - tol <= x /\ x <= a + tol).

(** One unit of the sixth decimal of a coordinate. *)
Definition coord_tol : Q := 0.000001.

(** ** Vocabulary of the miles of a trip *)

(** The miles of the driving segments, as the log generator counts them. *)
Fixpoint driving_miles (segs : list TripSegment) : Q :=
  match segs with
  | [] => 0
  | s :: r =>
      (if String.eqb (duty_status s) "driving" && Qltb 0 (distance_miles s)
       then distance_miles s else 0)
      + driving_miles r
  end.

(** The miles written on the logs. *)
Fixpoint logged_miles (logs : list DailyLog) : Q :=
  match logs with
  | [] => 0
  | l :: r => Eld.total_miles l + logged_miles r
  end.

(** A driving segment that is no faster than 100 mph: it takes time. *)
Definition plausible_drive (s : TripSegment) : Prop :=
  duty_status s = "driving"%string -> 0 < distance_miles s ->
  distance_miles s <= 100 * duration_hours s.

(** The miles credited to the [n] days from [d0] on, for all the segments. *)
Fixpoint shares_over_days (n : nat) (d0 : date) (segs : list TripSegment) : Q :=
  match n with
  | O => 0
  | S m => day_share d0 segs + shares_over_days m (d0 + 1)%Z segs
  end.

(** ** Vocabulary of the further invariants *)

(** Each segment starts at the place where the one before it ended. *)
Fixpoint linked (l : list TripSegment) : Prop :=
  match l with
  | a :: ((b :: _) as r) => end_location a = start_location b /\ linked r
  | _ => True
  end.

(** What the planning loop keeps true of the places: the segments emitted so
    far are linked, and the last one ends at the place reached. *)
Definition link_invariant (sl el : Location) (tm : Q) (v : PlanVars) : Prop :=
  miles_remaining v <= tm
  /\ linked (segments_of (segments v))
  /\ (forall x : TripSegment,
        last_item (segments_of (segments v)) = Some x ->
        end_location x
        = Some (interpolate_location sl el
                  (fraction_at tm (miles_remaining v) 0))).

(** An entry that lies within its day. *)
Definition within_day (e : LogEntry) : Prop :=
  0 <= start_hour e /\ start_hour e <= end_hour e /\ end_hour e <= 24.

(** The counters of a shift in their order: the hours driven since the last
    break are part of the hours driven, which are part of the window. *)
Definition counters_ordered (s : HOSState) : Prop :=
  0 <= hours_since_break s /\ hours_since_break s <= driving_hours s
  /\ driving_hours s <= window_hours s.

(** A drive of at most 8 hours and 440 miles. *)
Definition short_drive (s : TripSegment) : Prop :=
  is_drive s = true ->
  distance_miles s <= 440
  /\ (end_time s - start_time s <= 8 * us_per_hour)%Z.

(** A snapshot with ordered counters, taken after a segment that is no
    drive or a short one. *)
Definition steady (e : Emitted) : Prop :=
  counters_ordered (ledger e) /\ short_drive (seg e).

(** No leg acted on is longer than the fuel interval. *)
Definition legs_within_fuel_interval (legs : list RouteLeg) : Prop :=
  Forall (fun leg => known_leg leg = true ->
                     leg_distance_miles leg <= FUEL_INTERVAL_MILES) legs.

Definition not_fuel (e : Emitted) : Prop := is_fuel (seg e) = false.

(** * Properties *)

(** ** Comparisons and rounding *)

Lemma Qltb_true (a b : Q) : Qltb a b = true <-> a < b.
Proof.
  unfold Qltb. rewrite negb_true_iff. split; intro H.
  - destruct (Qlt_le_dec a b) as [L | L]; [exact L |].
    apply Qle_bool_iff in L. congruence.
  - destruct (Qle_bool b a) eqn:E; [| reflexivity].
    apply Qle_bool_iff in E. lra.
Qed.

Lemma Qltb_false (a b : Q) : Qltb a b = false <-> b <= a.
Proof.
  unfold Qltb. rewrite negb_false_iff. apply Qle_bool_iff.
Qed.

Lemma Qle_bool_false (a b : Q) : Qle_bool a b = false <-> b < a.
Proof.
  rewrite <- Qltb_true. unfold Qltb.
  destruct (Qle_bool a b); simpl; intuition congruence.
Qed.

(** Case analysis on every comparison of the goal, as facts on [Q]. *)
Ltac qcase_on c :=
  let E := fresh "E" in
  destruct c eqn:E;
  [ first [ apply Qltb_true in E | apply Qle_bool_iff in E ]
  | first [ apply Qltb_false in E | apply Qle_bool_false in E ] ].

Ltac no_cmp t :=
  lazymatch t with
  | context [Qltb _ _] => fail
  | context [Qle_bool _ _] => fail
  | _ => idtac
  end.

Ltac qcases :=
  repeat match goal with
         | |- context [Qltb ?a ?b] => no_cmp a; no_cmp b; qcase_on (Qltb a b)
         | |- context [Qle_bool ?a ?b] =>
             no_cmp a; no_cmp b; qcase_on (Qle_bool a b)
         end.

(** Division by a numeral, as a multiplication ([lra] knows no division). *)
Ltac qdiv :=
  unfold Qdiv in *;
  repeat match goal with
         | |- context [Qinv (Qmake (Zpos ?p) 1)] =>
             change (Qinv (Qmake (Zpos p) 1)) with (Qmake 1 p) in *
         | H : context [Qinv (Qmake (Zpos ?p) 1)] |- _ =>
             change (Qinv (Qmake (Zpos p) 1)) with (Qmake 1 p) in *
         end.

Ltac unfold_consts :=
  unfold AVG_SPEED_MPH, MAX_DRIVING_HOURS, MAX_WINDOW_HOURS, BREAK_AFTER_HOURS,
    BREAK_DURATION_HOURS, REST_DURATION_HOURS, CYCLE_RESTART_HOURS,
    MAX_CYCLE_HOURS, FUEL_INTERVAL_MILES, FUEL_STOP_DURATION_HOURS,
    PICKUP_DURATION_HOURS, DROPOFF_DURATION_HOURS in *.

Lemma py_max_ge_l (a b : Q) : a <= py_max a b.
Proof. unfold py_max. qcases; lra. Qed.

Lemma py_max_ge_r (a b : Q) : b <= py_max a b.
Proof. unfold py_max. qcases; lra. Qed.

Lemma pos_part_nonneg (x : Q) : 0 <= pos_part x.
Proof. apply py_max_ge_l. Qed.

Lemma pos_part_ge (x : Q) : x <= pos_part x.
Proof. apply py_max_ge_r. Qed.

Lemma pos_part_zero : pos_part 0 == 0.
Proof. reflexivity. Qed.

Lemma pos_part_add (x h : Q) : 0 <= h -> pos_part (x + h) <= pos_part x + h.
Proof. intro H. unfold pos_part, py_max. qcases; lra. Qed.

Lemma round_half_even_near (q : Q) :
  q - (1 # 2) <= inject_Z (round_half_even q) <= q + (1 # 2).
Proof.
  unfold round_half_even.
  pose proof (Qfloor_le q) as Hlo. pose proof (Qlt_floor q) as Hhi.
  rewrite inject_Z_plus in Hhi. change (inject_Z 1) with 1 in Hhi.
  qcases; try destruct (Z.even (Qfloor q));
    rewrite ?inject_Z_plus; change (inject_Z 1) with 1; lra.
Qed.

Lemma round_half_even_mono (a b : Q) :
  a <= b -> (round_half_even a <= round_half_even b)%Z.
Proof.
  intro Hab.
  pose proof (Qfloor_resp_le _ _ Hab) as Hf.
  destruct (Z.eq_dec (Qfloor a) (Qfloor b)) as [Heq | Hne].
  - unfold round_half_even. rewrite <- Heq.
    qcases; try destruct (Z.even (Qfloor a)); try lia; lra.
  - assert (Qfloor a + 1 <= Qfloor b)%Z as Hlt by lia.
    assert (round_half_even a <= Qfloor a + 1)%Z as Ha.
    { unfold round_half_even.
      qcases; try destruct (Z.even (Qfloor a)); lia. }
    assert (Qfloor b <= round_half_even b)%Z as Hb.
    { unfold round_half_even.
      qcases; try destruct (Z.even (Qfloor b)); lia. }
    lia.
Qed.

Lemma round_half_even_Z (z : Z) : round_half_even (inject_Z z) = z.
Proof.
  unfold round_half_even. rewrite Qfloor_Z.
  assert (inject_Z z - inject_Z z == 0) as H0 by lra.
  qcases; try lra; try reflexivity.
Qed.

Lemma round_half_even_comp (a b : Q) :
  a == b -> round_half_even a = round_half_even b.
Proof.
  intro H. unfold round_half_even. rewrite (Qfloor_comp _ _ H).
  assert (a - inject_Z (Qfloor b) == b - inject_Z (Qfloor b)) as Hr by lra.
  qcases; try reflexivity; lra.
Qed.

(** ** The ledger *)

Ltac ledger_arith :=
  unfold remaining_driving, remaining_before_break, py_max, py_min;
  unfold_consts; cbn [driving_hours window_hours hours_since_break cycle_hours];
  qcases; try lra.

Lemma remaining_driving_nonneg (s : HOSState) : 0 <= remaining_driving s.
Proof. ledger_arith. Qed.

Lemma remaining_driving_bounds (s : HOSState) :
  0 < remaining_driving s ->
  remaining_driving s <= 11 - driving_hours s
  /\ remaining_driving s <= 14 - window_hours s
  /\ remaining_driving s <= 8 - hours_since_break s
  /\ remaining_driving s <= 70 - cycle_hours s.
Proof. ledger_arith; intro; repeat split; lra. Qed.

Lemma remaining_driving_attained (s : HOSState) :
  0 < remaining_driving s ->
  remaining_driving s == 11 - driving_hours s
  \/ remaining_driving s == 14 - window_hours s
  \/ remaining_driving s == 8 - hours_since_break s
  \/ remaining_driving s == 70 - cycle_hours s.
Proof.
  ledger_arith; intro;
    first [ left; lra | right; left; lra | right; right; left; lra
          | right; right; right; lra ].
Qed.

Lemma remaining_driving_exhausted (s : HOSState) :
  11 <= driving_hours s \/ 14 <= window_hours s
  \/ 8 <= hours_since_break s \/ 70 <= cycle_hours s ->
  remaining_driving s <= 0.
Proof. ledger_arith; intros [H | [H | [H | H]]]; lra. Qed.

Lemma remaining_driving_why (s : HOSState) :
  remaining_driving s <= 0 ->
  11 <= driving_hours s \/ 14 <= window_hours s
  \/ 8 <= hours_since_break s \/ 70 <= cycle_hours s.
Proof.
  ledger_arith; intro;
    first [ left; lra | right; left; lra | right; right; left; lra
          | right; right; right; lra ].
Qed.

Lemma remaining_driving_available (s : HOSState) :
  driving_hours s < 11 -> window_hours s < 14 ->
  hours_since_break s < 8 -> cycle_hours s < 70 ->
  0 < remaining_driving s.
Proof. ledger_arith. Qed.

Lemma remaining_before_break_ge (s : HOSState) :
  0 < remaining_driving s -> remaining_driving s <= remaining_before_break s.
Proof. ledger_arith. Qed.

Lemma can_drive_range (s : HOSState) : 0 <= can_drive s <= 1.
Proof. unfold can_drive. qcases; lra. Qed.

Lemma can_drive_no (s : HOSState) : remaining_driving s <= 0 -> can_drive s == 0.
Proof. unfold can_drive. intro H. qcases; lra. Qed.

Lemma can_drive_yes (s : HOSState) : 0 < remaining_driving s -> can_drive s == 1.
Proof. unfold can_drive. intro H. qcases; lra. Qed.

(** ** One pass of the planning loop *)

Ltac plan_proj :=
  cbn [state segments miles_remaining current_time miles_since_fuel
       driving_hours window_hours hours_since_break cycle_hours on_duty
       seg ledger andb orb negb].

Ltac plan_proj_in H :=
  cbn [state segments miles_remaining current_time miles_since_fuel
       driving_hours window_hours hours_since_break cycle_hours on_duty
       seg ledger andb orb negb] in H.

Lemma miles_to_fuel_pos (v : PlanVars) : 0 < miles_to_fuel v.
Proof. unfold miles_to_fuel. unfold_consts. qcases; lra. Qed.

Lemma miles_to_fuel_le (v : PlanVars) :
  0 <= miles_since_fuel v -> miles_to_fuel v <= 1000.
Proof. unfold miles_to_fuel. unfold_consts. intro. qcases; lra. Qed.

Lemma miles_this_segment_bounds (v : PlanVars) :
  0 < remaining_driving (state v) -> 0 < miles_remaining v ->
  0 < miles_this_segment v
  /\ miles_this_segment v <= miles_remaining v
  /\ miles_this_segment v <= remaining_driving (state v) * 55
  /\ miles_this_segment v <= miles_to_fuel v.
Proof.
  intros Hd Hm. pose proof (miles_to_fuel_pos v) as Hf.
  unfold miles_this_segment, need_fuel, miles_can_drive, py_min.
  unfold_consts.
  set (f := miles_to_fuel v) in *. set (d := remaining_driving (state v)) in *.
  qcases; plan_proj; repeat split; lra.
Qed.

(** With exact arithmetic the carve of a drive before the break is never
    entered: a drive is never planned past the break limit. *)
Lemma no_break_carve (v : PlanVars) :
  0 < remaining_driving (state v) -> 0 < miles_remaining v ->
  Qltb (remaining_before_break (state v)) (miles_this_segment v / AVG_SPEED_MPH)
  && Qltb 0 (remaining_before_break (state v)) = false.
Proof.
  intros Hd Hm.
  destruct (miles_this_segment_bounds v Hd Hm) as (_ & _ & Hc & _).
  pose proof (remaining_before_break_ge _ Hd) as Hb.
  apply andb_false_iff. left. apply Qltb_false.
  unfold AVG_SPEED_MPH. qdiv. lra.
Qed.

Lemma loop_body_drives (sl el : Location) (tm : Q) (v : PlanVars) :
  0 < remaining_driving (state v) -> 0 < miles_remaining v ->
  loop_body sl el tm v =
  drive_and_fuel sl el tm v (need_fuel v) (miles_this_segment v)
                 (miles_this_segment v / AVG_SPEED_MPH).
Proof.
  intros Hd Hm. unfold loop_body.
  rewrite (proj2 (Qle_bool_false _ _) Hd).
  rewrite (no_break_carve v Hd Hm). reflexivity.
Qed.

Lemma loop_body_interrupts (sl el : Location) (tm : Q) (v : PlanVars) :
  remaining_driving (state v) <= 0 ->
  loop_body sl el tm v = interruption sl el tm v.
Proof.
  intro Hd. unfold loop_body.
  rewrite (proj2 (Qle_bool_iff _ _) Hd). reflexivity.
Qed.

(** ** Termination of the planning loop *)

Lemma interruption_frame (sl el : Location) (tm : Q) (v : PlanVars) :
  miles_remaining (interruption sl el tm v) = miles_remaining v
  /\ miles_since_fuel (interruption sl el tm v) = miles_since_fuel v.
Proof.
  unfold interruption.
  destruct (needs_cycle_reset (state v));
    [| destruct (needs_break (state v) && negb (needs_rest (state v)))];
    plan_proj; split; reflexivity.
Qed.

Lemma interruption_potential (sl el : Location) (tm : Q) (v : PlanVars) :
  remaining_driving (state v) <= 0 ->
  potential (interruption sl el tm v) <= potential v - 1.
Proof.
  intro Hd. unfold potential.
  destruct (interruption_frame sl el tm v) as [-> ->].
  pose proof (can_drive_range (state (interruption sl el tm v))) as Hc'.
  pose proof (can_drive_no _ Hd) as Hc.
  pose proof (remaining_driving_why _ Hd) as Hwhy.
  set (c' := can_drive (state (interruption sl el tm v))) in *. clearbody c'.
  set (c := can_drive (state v)) in *. clearbody c.
  pose proof (pos_part_nonneg (driving_hours (state v))).
  pose proof (pos_part_nonneg (window_hours (state v))).
  pose proof (pos_part_nonneg (hours_since_break (state v))).
  pose proof (pos_part_nonneg (cycle_hours (state v))).
  pose proof (pos_part_ge (driving_hours (state v))).
  pose proof (pos_part_ge (window_hours (state v))).
  pose proof (pos_part_ge (hours_since_break (state v))).
  pose proof (pos_part_ge (cycle_hours (state v))).
  unfold interruption, needs_cycle_reset, needs_break, needs_rest,
    take_cycle_restart, take_rest, take_break.
  unfold_consts.
  qcases; plan_proj; change (pos_part 0) with 0; qdiv;
    try lra; destruct Hwhy as [? | [? | [? | ?]]]; lra.
Qed.

Lemma drive_and_fuel_potential (sl el : Location) (tm : Q) (v : PlanVars) :
  0 < remaining_driving (state v) -> (1 # 10) < miles_remaining v ->
  0 <= miles_since_fuel v ->
  let v' := drive_and_fuel sl el tm v (need_fuel v) (miles_this_segment v)
                           (miles_this_segment v / AVG_SPEED_MPH) in
  0 <= miles_since_fuel v'
  /\ ((1 # 10) < miles_remaining v' -> potential v' <= potential v - 1).
Proof.
  intros Hd Hm Hf v'.
  assert (0 < miles_remaining v) as Hm0 by lra.
  destruct (miles_this_segment_bounds v Hd Hm0) as (Hpos & Hle & Hcan & Hfuel).
  pose proof (can_drive_yes _ Hd) as Hc.
  pose proof (can_drive_range (state v')) as Hc'.
  pose proof (miles_to_fuel_le v Hf) as Hf1000.
  set (h := miles_this_segment v / AVG_SPEED_MPH) in *.
  assert (h == miles_this_segment v * (1 # 55)) as Hh by reflexivity.
  assert (0 <= h) as Hh0 by lra.
  pose proof (pos_part_add (driving_hours (state v)) h Hh0).
  pose proof (pos_part_add (window_hours (state v)) h Hh0).
  pose proof (pos_part_add (hours_since_break (state v)) h Hh0).
  pose proof (pos_part_add (cycle_hours (state v)) h Hh0).
  assert (0 <= 0.5) as Hhalf by lra.
  pose proof (pos_part_add (window_hours (state v) + h) 0.5 Hhalf).
  pose proof (pos_part_add (cycle_hours (state v) + h) 0.5 Hhalf).
  unfold potential.
  subst v'. unfold drive_and_fuel in *. plan_proj. plan_proj_in Hc'.
  destruct (need_fuel v) eqn:Efuel; plan_proj; plan_proj_in Hc'.
  - (* the drive stops at the fuel point *)
    assert (miles_this_segment v = miles_to_fuel v) as Hmt.
    { unfold miles_this_segment. rewrite Efuel. reflexivity. }
    assert (miles_to_fuel v == 1000 - miles_since_fuel v
            \/ (1000 <= miles_since_fuel v /\ miles_to_fuel v == 1000)) as Hmf.
    { unfold miles_to_fuel. unfold_consts. qcases; [right | left]; lra. }
    rewrite Hmt in *.
    destruct (Qltb 0.1 (miles_remaining v - miles_to_fuel v)) eqn:Erem;
      plan_proj; plan_proj_in Hc'.
    + unfold add_on_duty, add_driving, FUEL_STOP_DURATION_HOURS in *.
      plan_proj. plan_proj_in Hc'. split; [lra |]. intros _.
      qdiv. destruct Hmf as [Hmf | [Hmf1 Hmf2]]; lra.
    + apply Qltb_false in Erem. split; [lra |]. intro. lra.
  - (* the drive stops at the end of the leg or at a limit *)
    split; [lra |]. intro Hrem.
    assert (miles_this_segment v == remaining_driving (state v) * 55) as Hmt.
    { revert Hrem. unfold miles_this_segment. rewrite Efuel.
      unfold miles_can_drive, py_min, AVG_SPEED_MPH. qcases; intro; lra. }
    assert (remaining_driving (add_driving h (state v)) <= 0) as Hout.
    { apply remaining_driving_exhausted.
      unfold add_driving. plan_proj.
      destruct (remaining_driving_attained _ Hd) as [A | [A | [A | A]]];
        [ left | right; left | right; right; left | right; right; right ]; lra. }
    pose proof (can_drive_no _ Hout) as Hc0.
    unfold add_driving in *. plan_proj. plan_proj_in Hc0. qdiv. lra.
Qed.

Lemma loop_body_progress (sl el : Location) (tm : Q) (v : PlanVars) :
  (1 # 10) < miles_remaining v -> 0 <= miles_since_fuel v ->
  0 <= miles_since_fuel (loop_body sl el tm v)
  /\ ((1 # 10) < miles_remaining (loop_body sl el tm v) ->
      potential (loop_body sl el tm v) <= potential v - 1).
Proof.
  intros Hm Hf.
  destruct (Qlt_le_dec 0 (remaining_driving (state v))) as [Hd | Hd].
  - rewrite loop_body_drives by lra.
    apply drive_and_fuel_potential; assumption.
  - rewrite loop_body_interrupts by assumption.
    destruct (interruption_frame sl el tm v) as [_ E]. rewrite E.
    split; [assumption |]. intros _. apply interruption_potential; assumption.
Qed.

Lemma potential_pos (v : PlanVars) :
  (1 # 10) < miles_remaining v -> 0 <= miles_since_fuel v -> 0 < potential v.
Proof.
  intros Hm Hf. unfold potential.
  pose proof (pos_part_nonneg (driving_hours (state v))).
  pose proof (pos_part_nonneg (window_hours (state v))).
  pose proof (pos_part_nonneg (hours_since_break (state v))).
  pose proof (pos_part_nonneg (cycle_hours (state v))).
  pose proof (can_drive_range (state v)).
  qdiv. lra.
Qed.

Lemma plan_loop_enough (sl el : Location) (tm : Q) (n : nat) :
  forall v : PlanVars,
    0 <= miles_since_fuel v ->
    ((1 # 10) < miles_remaining v -> potential v <= inject_Z (Z.of_nat n)) ->
    exists v', plan_loop sl el tm (S n) v = Some v'.
Proof.
  induction n as [| n IH]; intros v Hf Hp.
  - cbn [plan_loop]. destruct (Qltb 0.1 (miles_remaining v)) eqn:E.
    + apply Qltb_true in E. pose proof (potential_pos v E Hf) as P.
      specialize (Hp E). change (inject_Z (Z.of_nat 0)) with 0 in Hp. lra.
    + eauto.
  - change (plan_loop sl el tm (S (S n)) v)
      with (if Qltb 0.1 (miles_remaining v)
            then plan_loop sl el tm (S n) (loop_body sl el tm v) else Some v).
    destruct (Qltb 0.1 (miles_remaining v)) eqn:E; [| eauto].
    apply Qltb_true in E.
    destruct (loop_body_progress sl el tm v E Hf) as [Hf' Hp'].
    apply IH; [assumption |]. intro E'.
    specialize (Hp E). specialize (Hp' E').
    rewrite Nat2Z.inj_succ, <- Z.add_1_r, inject_Z_plus in Hp.
    change (inject_Z 1) with 1 in Hp. lra.
Qed.

Lemma plan_loop_total (sl el : Location) (tm : Q) (v : PlanVars) :
  0 <= miles_since_fuel v ->
  exists v', plan_loop sl el tm (loop_budget v) v = Some v'.
Proof.
  intro Hf. unfold loop_budget. apply plan_loop_enough; [assumption |].
  intro Hm. pose proof (potential_pos v Hm Hf) as P.
  pose proof (Qle_ceiling (potential v)) as C.
  rewrite Z2Nat.id; [exact C |].
  destruct (Z_lt_le_dec (Qceiling (potential v)) 0) as [L | L]; [| exact L].
  exfalso. assert (inject_Z (Qceiling (potential v)) < 0) as L'.
  { rewrite (Zlt_Qlt _ 0) in L. exact L. }
  lra.
Qed.

(** ** Invariants of the planning loop *)

Lemma plan_loop_invariant (sl el : Location) (tm : Q) (P : PlanVars -> Prop) :
  (forall v, P v -> (1 # 10) < miles_remaining v -> P (loop_body sl el tm v)) ->
  forall (n : nat) (v v' : PlanVars),
    P v -> plan_loop sl el tm n v = Some v' ->
    P v' /\ miles_remaining v' <= (1 # 10).
Proof.
  intros Hstep. induction n as [| n IH]; intros v v' Hv Hrun.
  - discriminate.
  - cbn [plan_loop] in Hrun.
    destruct (Qltb 0.1 (miles_remaining v)) eqn:E.
    + apply Qltb_true in E. apply (IH (loop_body sl el tm v)); auto.
    + apply Qltb_false in E. injection Hrun as <-. split; [assumption |].
      exact E.
Qed.

(** What one pass appends to the list of segments. *)
Lemma interruption_emits (sl el : Location) (tm : Q) (v : PlanVars) :
  exists s : TripSegment,
    segments (interruption sl el tm v)
    = segments v ++ [mkEmitted s (state (interruption sl el tm v))]
    /\ is_drive s = false /\ is_fuel s = false
    /\ start_time s = current_time v
    /\ end_time s = current_time (interruption sl el tm v).
Proof.
  unfold interruption.
  destruct (needs_cycle_reset (state v));
    [| destruct (needs_break (state v) && negb (needs_rest (state v)))];
    plan_proj; eexists; repeat split.
Qed.

Lemma drive_and_fuel_emits (sl el : Location) (tm : Q) (v : PlanVars)
      (nf : bool) (m h : Q) :
  let v' := drive_and_fuel sl el tm v nf m h in
  exists d : TripSegment,
    is_drive d = true /\ is_fuel d = false /\ distance_miles d = m
    /\ start_time d = current_time v
    /\ miles_remaining v' = miles_remaining v - m
    /\ ((segments v' = segments v ++ [mkEmitted d (add_driving h (state v))]
         /\ end_time d = current_time v'
         /\ miles_since_fuel v' = miles_since_fuel v + m
         /\ state v' = add_driving h (state v)
         /\ (nf = false \/ miles_remaining v - m <= (1 # 10)))
        \/ (exists f : TripSegment,
              segments v' = segments v
                              ++ [mkEmitted d (add_driving h (state v));
                                  mkEmitted f (state v')]
              /\ is_drive f = false /\ is_fuel f = true
              /\ end_time d = start_time f
              /\ end_time f = current_time v'
              /\ miles_since_fuel v' = 0
              /\ nf = true)).
Proof.
  intro v'. subst v'. unfold drive_and_fuel. plan_proj.
  exists (drive_segment (current_time v) h
            (interpolate_location sl el (fraction_at tm (miles_remaining v) 0))
            (interpolate_location sl el
               (fraction_at tm (miles_remaining v - m) 1)) m).
  split; [reflexivity |]. split; [reflexivity |].
  split; [reflexivity |]. split; [reflexivity |].
  destruct nf; plan_proj.
  - destruct (Qltb 0.1 (miles_remaining v - m)) eqn:E; plan_proj.
    + split; [reflexivity |]. right. eexists.
      rewrite <- app_assoc. cbn [app]. repeat split.
    + apply Qltb_false in E. split; [reflexivity |]. left.
      repeat split. right. exact E.
  - split; [reflexivity |]. left. repeat split. left. reflexivity.
Qed.

Lemma interruption_restores (sl el : Location) (tm : Q) (v : PlanVars) :
  remaining_driving (state v) <= 0 ->
  0 < remaining_driving (state (interruption sl el tm v)).
Proof.
  intro Hd. pose proof (remaining_driving_why _ Hd) as Hwhy.
  unfold interruption, needs_cycle_reset, needs_break, needs_rest,
    take_cycle_restart, take_rest, take_break.
  unfold_consts.
  qcases; plan_proj; apply remaining_driving_available; plan_proj;
    try lra; destruct Hwhy as [? | [? | [? | ?]]]; lra.
Qed.

(** ** Lists of segments *)

Lemma segments_of_app (a b : list Emitted) :
  segments_of (a ++ b) = segments_of a ++ segments_of b.
Proof. apply map_app. Qed.

Lemma chained_app (l1 l2 : list TripSegment) :
  forall t t1 t2,
    chained t l1 t1 -> chained t1 l2 t2 -> chained t (l1 ++ l2) t2.
Proof.
  induction l1 as [| s l1 IH]; intros t t1 t2 H1 H2; cbn in *.
  - subst. assumption.
  - destruct H1 as [Hs H1]. split; [assumption |]. eapply IH; eassumption.
Qed.

Lemma chained_snoc (l : list TripSegment) (s : TripSegment) (t t1 : datetime) :
  chained t l t1 -> start_time s = t1 -> chained t (l ++ [s]) (end_time s).
Proof.
  intros H1 Hs. eapply chained_app; [eassumption |]. cbn. auto.
Qed.

Lemma chained_adjacent (l : list TripSegment) :
  forall t t' i a b,
    chained t l t' ->
    nth_error l i = Some a -> nth_error l (S i) = Some b ->
    end_time a = start_time b.
Proof.
  induction l as [| s l IH]; intros t t' i a b Hc Ha Hb.
  - destruct i; discriminate.
  - destruct Hc as [_ Hc]. destruct i as [| i].
    + cbn in Ha, Hb. injection Ha as <-.
      destruct l as [| s' l]; [discriminate |].
      cbn in Hb. injection Hb as <-. destruct Hc as [Hs' _]. auto.
    + cbn in Ha, Hb. eapply IH; eassumption.
Qed.

Lemma last_item_snoc {A : Type} (l : list A) (x : A) :
  last_item (l ++ [x]) = Some x.
Proof. unfold last_item. rewrite rev_app_distr. reflexivity. Qed.

Lemma last_item_nil {A : Type} (l : list A) : last_item l = None -> l = [].
Proof.
  unfold last_item. intro H. destruct (rev l) eqn:E; [| discriminate].
  rewrite <- (rev_involutive l), E. reflexivity.
Qed.

Lemma chained_last (l : list Emitted) :
  forall t t' x,
    chained t (segments_of l) t' -> last_item l = Some x ->
    end_time (seg x) = t'.
Proof.
  intros t t' x Hc Hl.
  destruct (rev l) as [| y r] eqn:E; unfold last_item in Hl; rewrite E in Hl;
    [discriminate |].
  injection Hl as ->.
  assert (l = rev r ++ [x]) as ->.
  { rewrite <- (rev_involutive l), E. reflexivity. }
  clear E. revert t Hc. induction (rev r) as [| z q IH]; intros t Hc.
  - cbn in Hc. destruct Hc as [_ Hc]. exact Hc.
  - cbn in Hc. destruct Hc as [_ Hc]. eapply IH. exact Hc.
Qed.

Lemma drive_miles_app (a b : list TripSegment) :
  drive_miles (a ++ b) == drive_miles a + drive_miles b.
Proof.
  induction a as [| s a IH]; cbn [app drive_miles]; [lra |].
  rewrite IH. lra.
Qed.

Lemma since_fuel_snoc (l : list TripSegment) (s : TripSegment) :
  since_fuel (l ++ [s]) = fuel_step (since_fuel l) s.
Proof. unfold since_fuel. rewrite fold_left_app. reflexivity. Qed.

Lemma fuel_step_comp (a b : Q) (s : TripSegment) :
  a == b -> fuel_step a s == fuel_step b s.
Proof.
  intro H. unfold fuel_step.
  destruct (is_fuel s); [reflexivity |]. destruct (is_drive s); lra.
Qed.

Lemma fold_fuel_step_comp (l : list TripSegment) :
  forall a b, a == b -> fold_left fuel_step l a == fold_left fuel_step l b.
Proof.
  induction l as [| s l IH]; intros a b H; cbn [fold_left]; [assumption |].
  apply IH. apply fuel_step_comp. assumption.
Qed.

(** Over a stretch without fuel the counter grows by the miles driven. *)
Lemma fold_fuel_step_no_fuel (l : list TripSegment) :
  forall a, no_fuel l -> fold_left fuel_step l a == a + drive_miles l.
Proof.
  induction l as [| s l IH]; intros a Hn; cbn [fold_left drive_miles]; [lra |].
  inversion Hn as [| ? ? Hs Hl]; subst.
  rewrite (IH _ Hl). unfold fuel_step. rewrite Hs.
  destruct (is_drive s); lra.
Qed.

Lemma fold_fuel_step_nonneg (l : list TripSegment) :
  forall a, 0 <= a -> nonneg_miles l -> 0 <= fold_left fuel_step l a.
Proof.
  induction l as [| s l IH]; intros a Ha Hn; cbn [fold_left]; [assumption |].
  inversion Hn as [| ? ? Hs Hl]; subst. apply IH; [| assumption].
  unfold fuel_step. destruct (is_fuel s); [lra |].
  destruct (is_drive s); [specialize (Hs eq_refl) |]; lra.
Qed.

Lemma runs_below_nil (limit : Q) : 0 <= limit -> runs_below limit [].
Proof.
  intros H p q E. symmetry in E. apply app_eq_nil in E as [-> _]. exact H.
Qed.

Lemma runs_below_snoc (limit : Q) (l : list TripSegment) (s : TripSegment) :
  runs_below limit l -> since_fuel (l ++ [s]) <= limit ->
  runs_below limit (l ++ [s]).
Proof.
  intros Hl Hs p q E.
  destruct q as [| x q] using rev_ind.
  - rewrite app_nil_r in E. subst p. exact Hs.
  - clear IHq. rewrite app_assoc in E. apply app_inj_tail in E as [E _].
    eapply Hl. exact E.
Qed.

Lemma runs_below_cadence (limit : Q) (l : list TripSegment) :
  runs_below limit l -> nonneg_miles l -> fuel_cadence limit l.
Proof.
  intros Hr Hn pre mid post E Hmid.
  assert (since_fuel (pre ++ mid) <= limit) as Hb.
  { apply (Hr (pre ++ mid) post). rewrite <- app_assoc. exact E. }
  unfold since_fuel in Hb. rewrite fold_left_app in Hb.
  rewrite (fold_fuel_step_no_fuel mid _ Hmid) in Hb.
  assert (0 <= fold_left fuel_step pre 0) as H0.
  { apply fold_fuel_step_nonneg; [lra |].
    subst l. unfold nonneg_miles in Hn. apply Forall_app in Hn as [Hp _].
    exact Hp. }
  lra.
Qed.

(** ** What one pass of the loop does *)

Lemma loop_body_cases (sl el : Location) (tm : Q) (v : PlanVars) :
  0 < miles_remaining v -> pass_kind v (loop_body sl el tm v).
Proof.
  intro Hm.
  destruct (Qlt_le_dec 0 (remaining_driving (state v))) as [Hd | Hd].
  - rewrite loop_body_drives by assumption.
    destruct (drive_and_fuel_emits sl el tm v (need_fuel v)
                (miles_this_segment v) (miles_this_segment v / AVG_SPEED_MPH))
      as (d & Hdr & Hfu & Hmi & Hst & Hrem & Hcase).
    cbv zeta in Hcase, Hrem.
    destruct Hcase as [(Hsegs & Hend & Hmsf & _ & Hnf)
                      | (f & Hsegs & Hfd & Hff & Hdf & Hend & Hmsf & Hnf)].
    + apply (pass_drive _ _ d); try assumption; rewrite ?Hmi; try assumption.
      destruct Hnf as [Hnf | Hnf]; [left; assumption | right].
      rewrite Hrem. exact Hnf.
    + apply (pass_drive_fuel _ _ d f); try assumption; rewrite ?Hmi; assumption.
  - rewrite loop_body_interrupts by assumption.
    destruct (interruption_emits sl el tm v) as (s & Hsegs & Hsd & Hsf & Hst & Hen).
    destruct (interruption_frame sl el tm v) as [Hmr Hmsf].
    apply (pass_interruption _ _ s); try assumption.
    apply interruption_restores. assumption.
Qed.

(** ** Invariants carried by the loop *)

Lemma drive_keeps_limits (s : HOSState) (m : Q) :
  0 < remaining_driving s -> 0 <= m -> m <= remaining_driving s * 55 ->
  let s' := add_driving (m / 55) s in
  driving_hours s' <= 11 /\ window_hours s' <= 14
  /\ hours_since_break s' <= 8 /\ cycle_hours s' <= 70.
Proof.
  intros Hd Hm Hle s'. subst s'.
  destruct (remaining_driving_bounds s Hd) as (B1 & B2 & B3 & B4).
  unfold add_driving. plan_proj. qdiv. repeat split; lra.
Qed.

Lemma limits_compliant (s : HOSState) :
  driving_hours s <= 11 /\ window_hours s <= 14
  /\ hours_since_break s <= 8 /\ cycle_hours s <= 70 ->
  ledger_compliant s.
Proof.
  intros (H1 & H2 & H3 & H4). unfold ledger_compliant, slack. unfold_consts.
  repeat split; lra.
Qed.

Lemma not_drive_compliant (s : TripSegment) (l : HOSState) :
  is_drive s = false -> drive_compliant (mkEmitted s l).
Proof. intros H D. cbn in D. congruence. Qed.

Section LoopInvariants.

Variables (sl el : Location) (tm : Q) (t0 : datetime).

Lemma pass_compliant (v : PlanVars) :
  (1 # 10) < miles_remaining v ->
  Forall drive_compliant (segments v) ->
  Forall drive_compliant (segments (loop_body sl el tm v)).
Proof.
  intros Hm Hv. assert (0 < miles_remaining v) as Hm0 by lra.
  assert (forall d : TripSegment,
             0 < remaining_driving (state v) ->
             distance_miles d = miles_this_segment v ->
             drive_compliant
               (mkEmitted d (add_driving (distance_miles d / 55) (state v))))
    as Hdrive.
  { intros d Hd Hmi _. cbn [ledger].
    destruct (miles_this_segment_bounds v Hd Hm0) as (Hp & _ & Hc & _).
    apply limits_compliant. apply drive_keeps_limits; rewrite ?Hmi; lra. }
  destruct (loop_body_cases sl el tm v Hm0)
    as [s Hd Hs Hsd | d Hd Hs Hdd Hdf Hmi | d f Hd Hs Hdd Hdf Hfd Hff Hmi];
    rewrite Hs; apply Forall_app;
    (split; [assumption |]).
  - constructor; [| constructor]. apply not_drive_compliant. assumption.
  - constructor; [| constructor]. apply Hdrive; assumption.
  - apply Forall_cons; [apply Hdrive; assumption |].
    apply Forall_cons; [| apply Forall_nil].
    apply not_drive_compliant. assumption.
Qed.

Lemma pass_chained (v : PlanVars) :
  (1 # 10) < miles_remaining v ->
  chained t0 (segments_of (segments v)) (current_time v) ->
  chained t0 (segments_of (segments (loop_body sl el tm v))) (current_time (loop_body sl el tm v)).
Proof.
  intros Hm Hv. assert (0 < miles_remaining v) as Hm0 by lra.
  destruct (loop_body_cases sl el tm v Hm0)
    as [s _ Hs _ _ Hst Hen | d _ Hs _ _ _ Hst Hen
       | d f _ Hs _ _ _ _ _ Hst Hdf Hen];
    rewrite Hs, segments_of_app;
    cbn [segments_of map seg].
  - rewrite <- Hen. eapply chained_snoc; eassumption.
  - rewrite <- Hen. eapply chained_snoc; eassumption.
  - eapply chained_app; [eassumption |]. cbn [chained]. auto.
Qed.

Lemma pass_distance (v : PlanVars) :
  (1 # 10) < miles_remaining v ->
  drive_miles (segments_of (segments v)) + miles_remaining v == tm ->
  drive_miles (segments_of (segments (loop_body sl el tm v))) + miles_remaining (loop_body sl el tm v) == tm
  /\ 0 <= miles_remaining (loop_body sl el tm v).
Proof.
  intros Hm Hv. assert (0 < miles_remaining v) as Hm0 by lra.
  destruct (loop_body_cases sl el tm v Hm0)
    as [s _ Hs Hsd _ _ _ Hmr | d Hd Hs Hdd _ Hmi _ _ Hmr
       | d f Hd Hs Hdd _ Hfd _ Hmi _ _ _ Hmr];
    rewrite Hs, segments_of_app, drive_miles_app, Hmr;
    cbn [segments_of map seg drive_miles]; rewrite ?Hsd, ?Hdd, ?Hfd.
  - split; lra.
  - destruct (miles_this_segment_bounds v Hd Hm0) as (_ & Hle & _).
    rewrite Hmi. split; lra.
  - destruct (miles_this_segment_bounds v Hd Hm0) as (_ & Hle & _).
    rewrite Hmi. split; lra.
Qed.

Lemma pass_fuel (v : PlanVars) :
  (1 # 10) < miles_remaining v ->
  fuel_invariant v -> fuel_invariant (loop_body sl el tm v).
Proof.
  intros Hm (Hsf & Hrange & Hlt & Hruns & Hnn).
  assert (0 < miles_remaining v) as Hm0 by lra.
  specialize (Hlt Hm).
  assert (miles_to_fuel v == 1000 - miles_since_fuel v) as Hmtf.
  { unfold miles_to_fuel. unfold_consts. qcases; lra. }
  unfold fuel_invariant.
  destruct (loop_body_cases sl el tm v Hm0)
    as [s _ Hs Hsd Hsfu _ _ Hmr Hmsf _
       | d Hd Hs Hdd Hdf Hmi _ _ Hmr Hmsf Hnf
       | d f Hd Hs Hdd Hdf Hfd Hff Hmi _ _ _ Hmr Hmsf Hnf];
    rewrite Hs, segments_of_app, Hmr, Hmsf;
    cbn [segments_of map seg].
  - assert (since_fuel (segments_of (segments v) ++ [s]) == miles_since_fuel v)
      as Hnew.
    { rewrite since_fuel_snoc. unfold fuel_step. rewrite Hsfu, Hsd.
      exact Hsf. }
    repeat split; try lra; try assumption.
    + apply runs_below_snoc; [assumption | lra].
    + apply Forall_app. split; [assumption |].
      constructor; [congruence | constructor].
  - destruct (miles_this_segment_bounds v Hd Hm0) as (Hp & Hle & _ & Hfu).
    rewrite Hmi in *.
    assert (since_fuel (segments_of (segments v) ++ [d])
            == miles_since_fuel v + miles_this_segment v) as Hnew.
    { rewrite since_fuel_snoc. unfold fuel_step. rewrite Hdf, Hdd, Hmi.
      lra. }
    repeat split; try lra; try assumption.
    + intro Hrem. rewrite Hmr in Hnf.
      destruct Hnf as [Hnf | Hnf]; [| lra].
      assert (miles_this_segment v
              = py_min (miles_remaining v) (miles_can_drive v)) as Hmts.
      { unfold miles_this_segment. rewrite Hnf. reflexivity. }
      unfold need_fuel in Hnf. rewrite <- Hmts in Hnf.
      apply andb_false_iff in Hnf as [Hnf | Hnf].
      * apply Qle_bool_false in Hnf. lra.
      * apply Qltb_false in Hnf. lra.
    + apply runs_below_snoc; [assumption | lra].
    + apply Forall_app. split; [assumption |].
      constructor; [intros _; rewrite Hmi; lra | constructor].
  - destruct (miles_this_segment_bounds v Hd Hm0) as (Hp & Hle & _ & Hfu).
    rewrite Hmi in *.
    assert (since_fuel (segments_of (segments v) ++ [d])
            == miles_since_fuel v + miles_this_segment v) as Hnew.
    { rewrite since_fuel_snoc. unfold fuel_step. rewrite Hdf, Hdd, Hmi.
      lra. }
    change [d; f] with ([d] ++ [f]). rewrite app_assoc.
    repeat split; try lra.
    + rewrite since_fuel_snoc. unfold fuel_step. rewrite Hff. reflexivity.
    + apply runs_below_snoc.
      * apply runs_below_snoc; [assumption | lra].
      * rewrite since_fuel_snoc. unfold fuel_step. rewrite Hff. lra.
    + apply Forall_app. split.
      * apply Forall_app. split; [assumption |].
        constructor; [intros _; rewrite Hmi; lra | constructor].
      * constructor; [congruence | constructor].
Qed.

End LoopInvariants.

(** ** The driving planner as a whole *)

Lemma planner_runs (st : HOSState) (t0 : datetime) (sl el : Location)
      (total th : Q) :
  exists v : PlanVars,
    plan_loop sl el total (loop_budget (mkPlanVars st [] total t0 0))
              (mkPlanVars st [] total t0 0) = Some v
    /\ _plan_driving_segment st t0 sl el total th = Ok (segments v, state v).
Proof.
  destruct (plan_loop_total sl el total (mkPlanVars st [] total t0 0))
    as [v Hv]; [cbn; lra |].
  exists v. split; [exact Hv |].
  unfold _plan_driving_segment. rewrite Hv. reflexivity.
Qed.

Lemma planner_facts (st : HOSState) (t0 : datetime) (sl el : Location)
      (total th : Q) :
  exists (tr : list Emitted) (st1 : HOSState) (t1 : datetime) (rest : Q),
    _plan_driving_segment st t0 sl el total th = Ok (tr, st1)
    /\ Forall drive_compliant tr
    /\ chained t0 (segments_of tr) t1
    /\ drive_miles (segments_of tr) + rest == total
    /\ rest <= (1 # 10) /\ (0 <= total -> 0 <= rest)
    /\ runs_below 1000 (segments_of tr)
    /\ nonneg_miles (segments_of tr).
Proof.
  destruct (planner_runs st t0 sl el total th) as (v & Hrun & Hres).
  set (v0 := mkPlanVars st [] total t0 0) in *.
  exists (segments v), (state v), (current_time v), (miles_remaining v).
  split; [exact Hres |].
  pose proof (plan_loop_invariant sl el total
                (fun v => Forall drive_compliant (segments v))
                (fun v Hv Hm => pass_compliant sl el total v Hm Hv)
                _ v0 v (Forall_nil _) Hrun) as [H1 Hstop].
  pose proof (plan_loop_invariant sl el total
                (fun v => chained t0 (segments_of (segments v)) (current_time v))
                (fun v Hv Hm => pass_chained sl el total t0 v Hm Hv)
                _ v0 v eq_refl Hrun) as [H2 _].
  assert (drive_miles (segments_of (segments v)) + miles_remaining v == total
          /\ (0 <= total -> 0 <= miles_remaining v)) as [H3 H3'].
  { refine (proj1 (plan_loop_invariant sl el total
              (fun v => drive_miles (segments_of (segments v))
                        + miles_remaining v == total
                        /\ (0 <= total -> 0 <= miles_remaining v))
              _ _ v0 v _ Hrun)).
    - intros w [Hw _] Hm.
      destruct (pass_distance sl el total w Hm Hw) as [A B]. split; auto.
    - cbn. split; [lra | auto]. }
  assert (fuel_invariant v) as (_ & _ & _ & H4 & H5).
  { refine (proj1 (plan_loop_invariant sl el total fuel_invariant
              _ _ v0 v _ Hrun)).
    - intros w Hw Hm. apply pass_fuel; assumption.
    - unfold fuel_invariant. cbn. repeat split; try lra.
      + apply runs_below_nil. lra.
      + constructor. }
  repeat split; assumption.
Qed.

(** ** The trip planner as a whole *)

Lemma check_rest_invariant (t0 : datetime) (st : HOSState)
      (segs : list Emitted) (now : datetime) (loc : Location) :
  trip_invariant t0 segs now ->
  let '(st', segs') := _check_and_add_rest_if_needed st segs now loc in
  (segs' = segs /\ st' = st)
  \/ (exists r : TripSegment,
        segs' = segs ++ [mkEmitted r st'] /\ is_drive r = false
        /\ trip_invariant t0 segs' (end_time r)).
Proof.
  intros [Hc Hch]. unfold _check_and_add_rest_if_needed.
  destruct (needs_cycle_reset st); [| destruct (needs_rest st)].
  - right. eexists. split; [reflexivity |]. split; [reflexivity |]. split.
    + apply Forall_app. split; [assumption |].
      constructor; [| constructor]. apply not_drive_compliant. reflexivity.
    + rewrite segments_of_app. cbn [segments_of map seg].
      eapply chained_snoc; [eassumption | reflexivity].
  - right. eexists. split; [reflexivity |]. split; [reflexivity |]. split.
    + apply Forall_app. split; [assumption |].
      constructor; [| constructor]. apply not_drive_compliant. reflexivity.
    + rewrite segments_of_app. cbn [segments_of map seg].
      eapply chained_snoc; [eassumption | reflexivity].
  - left. split; reflexivity.
Qed.

Lemma drive_then_work_invariant (t0 : datetime) (kind why : string) (wh : Q)
      (leg : RouteLeg) (st : HOSState) (segs : list Emitted) (now : datetime) :
  String.eqb kind "drive" = false ->
  trip_invariant t0 segs now ->
  match drive_then_work kind why wh leg st segs now with
  | Ok (_, segs', now') => trip_invariant t0 segs' now'
  | IndexError => True
  | OutOfFuel => False
  end.
Proof.
  intros Hkind [Hc Hch]. unfold drive_then_work.
  destruct (planner_facts st now (leg_start_location leg) (leg_end_location leg)
              (leg_distance_miles leg) (leg_distance_miles leg / AVG_SPEED_MPH))
    as (tr & st1 & t1 & rest & Hres & Htr & Hchain & _).
  rewrite Hres.
  destruct (last_item (segs ++ tr)) as [l1 |] eqn:Hlast; [| exact I].
  assert (trip_invariant t0 (segs ++ tr) (end_time (seg l1))) as Hinv1.
  { assert (chained t0 (segments_of (segs ++ tr)) t1) as Hall.
    { rewrite segments_of_app. eapply chained_app; eassumption. }
    split.
    - apply Forall_app. split; assumption.
    - rewrite (chained_last _ _ _ _ Hall Hlast). exact Hall. }
  pose proof (check_rest_invariant t0 st1 (segs ++ tr) (end_time (seg l1))
                (leg_end_location leg) Hinv1) as Hrest.
  destruct (_check_and_add_rest_if_needed st1 (segs ++ tr) (end_time (seg l1))
              (leg_end_location leg)) as [st2 segs2].
  assert (exists now2,
             match last_item segs2 with
             | Some l2 => end_time (seg l2)
             | None => end_time (seg l1)
             end = now2 /\ trip_invariant t0 segs2 now2) as (now2 & -> & Hinv2).
  { destruct Hrest as [[-> ->] | (r & -> & Hr & Hinv)].
    - rewrite Hlast. eauto.
    - rewrite last_item_snoc. cbn [seg]. eauto. }
  destruct Hinv2 as [Hc2 Hch2]. split.
  - apply Forall_app. split; [assumption |].
    constructor; [| constructor]. apply not_drive_compliant. exact Hkind.
  - rewrite segments_of_app. cbn [segments_of map seg].
    change (now2 + timedelta_hours wh)%Z
      with (end_time (mkTripSegment kind ON_DUTY now2
                        (now2 + timedelta_hours wh)%Z
                        (Some (leg_end_location leg))
                        (Some (leg_end_location leg)) 0 why)).
    eapply chained_snoc; [eassumption | reflexivity].
Qed.

Lemma trip_loop_invariant (t0 : datetime) (legs : list RouteLeg) :
  forall (st : HOSState) (segs : list Emitted) (now : datetime),
    trip_invariant t0 segs now ->
    match trip_loop legs st segs now with
    | Ok tr => exists t1, trip_invariant t0 tr t1
    | IndexError => True
    | OutOfFuel => False
    end.
Proof.
  induction legs as [| leg legs IH]; intros st segs now Hinv; cbn [trip_loop].
  - eauto.
  - destruct (String.eqb _ "drive_to_pickup").
    + pose proof (drive_then_work_invariant t0 "pickup" "Pickup - Loading"
                    PICKUP_DURATION_HOURS leg st segs now eq_refl Hinv) as H.
      destruct (drive_then_work "pickup" _ _ leg st segs now)
        as [[[st' segs'] now'] | |]; [apply IH; exact H | exact I | exact H].
    + destruct (String.eqb _ "drive_to_dropoff").
      * pose proof (drive_then_work_invariant t0 "dropoff" "Dropoff - Unloading"
                      DROPOFF_DURATION_HOURS leg st segs now eq_refl Hinv) as H.
        destruct (drive_then_work "dropoff" _ _ leg st segs now)
          as [[[st' segs'] now'] | |]; [apply IH; exact H | exact I | exact H].
      * apply IH. assumption.
Qed.

(** The iteration budget of the planner is never exhausted. *)
Lemma calculate_trip_budget (legs : list RouteLeg) (ccu : Q) (t0 : datetime) :
  calculate_trip legs ccu t0 <> OutOfFuel.
Proof.
  unfold calculate_trip, calculate_trip_trace.
  pose proof (trip_loop_invariant t0 legs (HOSState_init ccu) [] t0) as H.
  destruct (trip_loop legs (HOSState_init ccu) [] t0); try discriminate.
  intros _. apply H. split; [constructor | reflexivity].
Qed.

(** * The claims *)

(** C9.  [take_break()] sets [hours_since_break] to zero and leaves
    [driving_hours], [window_hours], [cycle_hours] and [on_duty] as they
    were. *)
Theorem take_break_frame (s : HOSState) :
  hours_since_break (take_break s) = 0
  /\ driving_hours (take_break s) = driving_hours s
  /\ window_hours (take_break s) = window_hours s
  /\ cycle_hours (take_break s) = cycle_hours s
  /\ on_duty (take_break s) = on_duty s.
Proof. repeat split. Qed.

(** C1.  Whatever the route legs and the cycle hours already used, right
    after every drive segment emitted by [calculate_trip] the ledger has
    [driving_hours <= 11], [window_hours <= 14], [hours_since_break <= 8] and
    [cycle_hours <= 70], each within the slack of 1e-6.  (The bound on
    [current_cycle_used] is not needed.) *)
Theorem ledger_compliance_after_drive
        (legs : list RouteLeg) (ccu : Q) (t0 : datetime) (tr : list Emitted) :
  calculate_trip_trace legs ccu t0 = Ok tr ->
  forall e : Emitted,
    In e tr -> segment_type (seg e) = "drive"%string ->
    driving_hours (ledger e) <= MAX_DRIVING_HOURS + slack
    /\ window_hours (ledger e) <= MAX_WINDOW_HOURS + slack
    /\ hours_since_break (ledger e) <= BREAK_AFTER_HOURS + slack
    /\ cycle_hours (ledger e) <= MAX_CYCLE_HOURS + slack.
Proof.
  intros Hrun e He Hdrive.
  pose proof (trip_loop_invariant t0 legs (HOSState_init ccu) [] t0) as H.
  unfold calculate_trip_trace in Hrun. rewrite Hrun in H.
  destruct H as [t1 [Hall _]]; [split; [constructor | reflexivity] |].
  rewrite Forall_forall in Hall. apply (Hall e He).
  unfold is_drive. rewrite Hdrive. reflexivity.
Qed.

Lemma ledger_compliance_after_drive_witness :
  let e := nth 0 two_short_legs_trace (mkEmitted no_segment (HOSState_init 0)) in
  driving_hours (ledger e) <= MAX_DRIVING_HOURS + slack
  /\ window_hours (ledger e) <= MAX_WINDOW_HOURS + slack
  /\ hours_since_break (ledger e) <= BREAK_AFTER_HOURS + slack
  /\ cycle_hours (ledger e) <= MAX_CYCLE_HOURS + slack.
Proof.
  apply (ledger_compliance_after_drive two_short_legs 0 0%Z two_short_legs_trace).
  - vm_compute. reflexivity.
  - vm_compute. left. reflexivity.
  - vm_compute. reflexivity.
Defined.

(** C2.  In the list of segments returned by [calculate_trip], each segment
    ends exactly when the next one starts, inside a leg and from one leg to
    the next. *)
Theorem timeline_contiguity
        (legs : list RouteLeg) (ccu : Q) (t0 : datetime)
        (segs : list TripSegment) (i : nat) (a b : TripSegment) :
  calculate_trip legs ccu t0 = Ok segs ->
  nth_error segs i = Some a -> nth_error segs (S i) = Some b ->
  end_time a = start_time b.
Proof.
  intros Hrun Ha Hb. unfold calculate_trip, calculate_trip_trace in Hrun.
  pose proof (trip_loop_invariant t0 legs (HOSState_init ccu) [] t0) as H.
  destruct (trip_loop legs (HOSState_init ccu) [] t0) as [tr | |];
    try discriminate.
  injection Hrun as <-.
  destruct H as [t1 [_ Hch]]; [split; [constructor | reflexivity] |].
  eapply chained_adjacent; eassumption.
Qed.

Lemma timeline_contiguity_witness :
  end_time (nth 3 two_short_legs_segments no_segment)
  = start_time (nth 4 two_short_legs_segments no_segment).
Proof.
  apply (timeline_contiguity two_short_legs 0 0%Z two_short_legs_segments 3).
  - vm_compute. reflexivity.
  - vm_compute. reflexivity.
  - vm_compute. reflexivity.
Defined.

(** C3.  For a leg of nonnegative length, whatever the ledger and the
    instant at which the leg starts, the planner returns, and the miles of the
    drive segments it emits for the leg add up to the length of the leg
    within 0.5 miles. *)
Theorem distance_conservation
        (st : HOSState) (t0 : datetime) (start_loc end_loc : Location)
        (total_miles total_hours : Q) :
  0 <= total_miles ->
  exists (tr : list Emitted) (st' : HOSState),
    _plan_driving_segment st t0 start_loc end_loc total_miles total_hours
    = Ok (tr, st')
    /\ total_miles - 0.5 <= drive_miles (segments_of tr) <= total_miles + 0.5.
Proof.
  intro Hpos.
  destruct (planner_facts st t0 start_loc end_loc total_miles total_hours)
    as (tr & st1 & t1 & rest & Hres & _ & _ & Hsum & Hsmall & Hnn & _).
  exists tr, st1. split; [exact Hres |]. specialize (Hnn Hpos). lra.
Qed.

Lemma distance_conservation_witness :
  exists (tr : list Emitted) (st' : HOSState),
    _plan_driving_segment (HOSState_init 0) 0%Z depot dock 600 11 = Ok (tr, st')
    /\ 600 - 0.5 <= drive_miles (segments_of tr) <= 600 + 0.5.
Proof.
  apply (distance_conservation (HOSState_init 0) 0%Z depot dock 600 11).
  unfold Qle. cbn. lia.
Defined.

(** The miles since the last fuel stop are counted by each call of the
    driving planner, from zero: within the segments planned for one leg, no
    stretch without a fuel segment drives more than 1100 miles. *)
Theorem fuel_cadence_within_leg
        (st : HOSState) (t0 : datetime) (start_loc end_loc : Location)
        (total_miles total_hours : Q) :
  exists (tr : list Emitted) (st' : HOSState),
    _plan_driving_segment st t0 start_loc end_loc total_miles total_hours
    = Ok (tr, st')
    /\ fuel_cadence (FUEL_INTERVAL_MILES + 100) (segments_of tr).
Proof.
  destruct (planner_facts st t0 start_loc end_loc total_miles total_hours)
    as (tr & st1 & t1 & rest & Hres & _ & _ & _ & _ & _ & Hruns & Hnn).
  exists tr, st1. split; [exact Hres |].
  intros pre mid post E Hmid.
  pose proof (runs_below_cadence 1000 _ Hruns Hnn pre mid post E Hmid).
  unfold FUEL_INTERVAL_MILES. lra.
Qed.

(** C4.  The fuel cadence is not kept across legs: the miles since the last
    fuel stop are counted anew by each call of the driving planner, so two
    legs of 600 miles give 1200 miles of driving and no fuel segment at all,
    against the 1100 miles of the claim and the "fuel stop every 1,000
    miles" of the source's own header. *)
Theorem fuel_cadence_fails_across_legs :
  exists segs : list TripSegment,
    calculate_trip two_short_legs 0 0%Z = Ok segs
    /\ no_fuel segs
    /\ drive_miles segs == 1200
    /\ ~ fuel_cadence (FUEL_INTERVAL_MILES + 100) segs.
Proof.
  exists two_short_legs_segments.
  assert (no_fuel two_short_legs_segments) as Hnf.
  { vm_compute. repeat constructor. }
  assert (drive_miles two_short_legs_segments == 1200) as Hsum.
  { vm_compute. reflexivity. }
  split; [vm_compute; reflexivity |]. split; [exact Hnf |].
  split; [exact Hsum |].
  intro H. specialize (H [] two_short_legs_segments []).
  rewrite app_nil_r in H. specialize (H eq_refl Hnf).
  unfold FUEL_INTERVAL_MILES in H. lra.
Qed.

(** C5.  A first leg of zero miles is not tolerated: the planner emits
    nothing for it and [segments[-1]] then fails on the empty list, whatever
    the cycle hours, the start and the legs that follow. *)
Theorem zero_distance_first_leg_fails
        (a b : Location) (dur ccu : Q) (t0 : datetime) (rest : list RouteLeg) :
  calculate_trip
    (mkRouteLeg (Some "drive_to_pickup"%string) a b 0 dur :: rest) ccu t0
  = IndexError
  /\ calculate_trip
       (mkRouteLeg (Some "drive_to_dropoff"%string) a b 0 dur :: rest) ccu t0
     = IndexError.
Proof. split; reflexivity. Qed.

(** A leg of zero miles further down the list is tolerated: no drive segment
    for it, and its on-duty segment follows the previous one. *)
Lemma zero_distance_later_leg_passes :
  exists segs : list TripSegment,
    calculate_trip zero_second_leg 0 0%Z = Ok segs
    /\ map segment_type segs
       = ["drive"; "break"; "drive"; "pickup"; "dropoff"]%string.
Proof.
  eexists. split; vm_compute; reflexivity.
Qed.

(** C10.  The planning loop of [_plan_driving_segment] terminates, whatever
    the ledger and the length of the leg: the planner returns.  A pass of
    the loop entered with driving time left drives a positive number of
    miles; a pass entered with none is an interruption, which leaves the
    miles as they are and the ledger with driving time left.  So of any two
    passes in a row one drives, and [miles_remaining] is strictly smaller
    after them.  (The claim's bounds on [cycle_hours] and on the distance are
    not needed.) *)
Theorem planning_loop_terminates
        (st : HOSState) (t0 : datetime) (start_loc end_loc : Location)
        (total_miles total_hours : Q) :
  (exists (tr : list Emitted) (st' : HOSState),
      _plan_driving_segment st t0 start_loc end_loc total_miles total_hours
      = Ok (tr, st'))
  /\ forall v : PlanVars,
      0.1 < miles_remaining v ->
      let v1 := loop_body start_loc end_loc total_miles v in
      let v2 := loop_body start_loc end_loc total_miles v1 in
      (0 < remaining_driving (state v) ->
       0 < miles_this_segment v
       /\ miles_remaining v1 == miles_remaining v - miles_this_segment v)
      /\ (remaining_driving (state v) <= 0 ->
          miles_remaining v1 = miles_remaining v
          /\ 0 < remaining_driving (state v1))
      /\ (0.1 < miles_remaining v1 -> miles_remaining v2 < miles_remaining v).
Proof.
  split.
  - destruct (planner_runs st t0 start_loc end_loc total_miles total_hours)
      as (v & _ & Hres).
    eauto.
  - assert (forall w : PlanVars,
               0.1 < miles_remaining w ->
               let w1 := loop_body start_loc end_loc total_miles w in
               (0 < remaining_driving (state w) ->
                0 < miles_this_segment w
                /\ miles_remaining w1 == miles_remaining w - miles_this_segment w)
               /\ (remaining_driving (state w) <= 0 ->
                   miles_remaining w1 = miles_remaining w
                   /\ 0 < remaining_driving (state w1))) as Hpass.
    { intros w Hw w1. subst w1. assert (0 < miles_remaining w) as Hw0 by lra.
      split.
      - intro Hd. destruct (miles_this_segment_bounds w Hd Hw0) as (Hp & _).
        split; [exact Hp |].
        destruct (loop_body_cases start_loc end_loc total_miles w Hw0)
          as [s Hno | d _ _ _ _ Hmi _ _ Hmr | d f _ _ _ _ _ _ Hmi _ _ _ Hmr].
        + lra.
        + rewrite Hmr, Hmi. reflexivity.
        + rewrite Hmr, Hmi. reflexivity.
      - intro Hd. rewrite loop_body_interrupts by assumption.
        split; [apply interruption_frame | apply interruption_restores].
        assumption. }
    intros v Hv v1 v2.
    destruct (Hpass v Hv) as [Hdrive Hstop]. fold v1 in Hdrive, Hstop.
    split; [exact Hdrive |]. split; [exact Hstop |].
    intro Hv1. destruct (Hpass v1 Hv1) as [Hdrive1 Hstop1].
    fold v2 in Hdrive1, Hstop1.
    destruct (Qlt_le_dec 0 (remaining_driving (state v))) as [Hd | Hd].
    + destruct (Hdrive Hd) as [Hp Hm].
      destruct (Qlt_le_dec 0 (remaining_driving (state v1))) as [Hd1 | Hd1].
      * destruct (Hdrive1 Hd1) as [Hp1 Hm1]. lra.
      * destruct (Hstop1 Hd1) as [Hm1 _]. rewrite Hm1. lra.
    + destruct (Hstop Hd) as [Hm Hd1].
      destruct (Hdrive1 Hd1) as [Hp1 Hm1]. rewrite Hm in Hm1. lra.
Qed.

Lemma planning_loop_terminates_witness :
  (exists (tr : list Emitted) (st' : HOSState),
      _plan_driving_segment (HOSState_init 69) 0%Z depot dock 600 11
      = Ok (tr, st'))
  /\ miles_remaining (loop_body depot dock 600 tired_vars)
     = miles_remaining tired_vars
  /\ 0 < remaining_driving (state (loop_body depot dock 600 tired_vars))
  /\ miles_remaining
       (loop_body depot dock 600 (loop_body depot dock 600 tired_vars))
     < miles_remaining tired_vars.
Proof.
  destruct (planning_loop_terminates (HOSState_init 69) 0%Z depot dock 600 11)
    as [Hret Hpass].
  split; [exact Hret |].
  assert (0.1 < miles_remaining tired_vars) as Hm by (vm_compute; reflexivity).
  destruct (Hpass tired_vars Hm) as (_ & Hstop & Htwo).
  assert (remaining_driving (state tired_vars) <= 0) as Hd
      by (vm_compute; discriminate).
  destruct (Hstop Hd) as [Hsame Hleft].
  split; [exact Hsame |]. split; [exact Hleft |].
  apply Htwo. vm_compute. reflexivity.
Defined.

(** * The daily logs *)

Lemma days_loop_dates (segs : list TripSegment) (n : nat) :
  forall (d : date) (k : Z),
    map log_date (days_loop n segs d k)
    = map (fun i => (d + Z.of_nat i)%Z) (seq 0 n).
Proof.
  induction n as [| n IH]; intros d k; [reflexivity |].
  cbn [days_loop map seq]. f_equal.
  - cbn [day_log log_date]. lia.
  - rewrite IH, <- seq_shift, map_map. apply map_ext. intro i. lia.
Qed.

Lemma days_loop_numbers (segs : list TripSegment) (n : nat) :
  forall (d : date) (k : Z),
    map day_number (days_loop n segs d k)
    = map (fun i => (k + 1 + Z.of_nat i)%Z) (seq 0 n).
Proof.
  induction n as [| n IH]; intros d k; [reflexivity |].
  cbn [days_loop map seq]. f_equal.
  - cbn [day_log day_number]. lia.
  - rewrite IH, <- seq_shift, map_map. apply map_ext. intro i. lia.
Qed.

Lemma days_loop_entries (segs : list TripSegment) (n : nat) :
  forall (d : date) (k : Z) (log : DailyLog),
    In log (days_loop n segs d k) ->
    exists (d' : date) (k' : Z), log = day_log segs d' k'.
Proof.
  induction n as [| n IH]; intros d k log Hin; [destruct Hin |].
  destruct Hin as [<- | Hin]; [eauto |]. eapply IH. exact Hin.
Qed.

(** C7, as the code has it.  An empty segment list gives no log.  Otherwise
    there is exactly one log per calendar day, numbered from 1, from
    [trip_start_date] when it is given - and from the day the first segment
    starts when it is not - through the day the last segment ends. *)
Theorem eld_log_days
        (first : TripSegment) (rest : list TripSegment)
        (trip_start_date : option date) :
  let segs := first :: rest in
  let start_date := match trip_start_date with
                    | Some d => d
                    | None => date_of (start_time first)
                    end in
  let end_date := date_of (end_time (last segs first)) in
  let logs := generate_eld_logs segs trip_start_date in
  generate_eld_logs [] trip_start_date = []
  /\ map log_date logs = days_between start_date end_date
  /\ map day_number logs = map (fun i => Z.of_nat (S i)) (seq 0 (List.length logs)).
Proof.
  intros segs start_date end_date logs. split; [reflexivity |].
  subst logs end_date start_date segs. unfold generate_eld_logs.
  cbv beta iota zeta.
  set (n := Z.to_nat _). set (d := match trip_start_date with
                                   | Some d => d
                                   | None => _
                                   end).
  split.
  - rewrite days_loop_dates. reflexivity.
  - rewrite days_loop_numbers.
    replace (List.length (days_loop n (first :: rest) d 0)) with n.
    + apply map_ext. intro i. lia.
    + rewrite <- (length_map log_date), days_loop_dates, length_map, length_seq.
      reflexivity.
Qed.

(** C7, as stated, fails when [trip_start_date] is earlier than the day of
    the first segment: the logs start at [trip_start_date], not at the later
    of the two days. *)
Lemma eld_log_days_counterexample :
  map log_date (generate_eld_logs late_stop (Some 0%Z)) = [0; 1; 2]%Z
  /\ days_between
       (Z.max 0 (date_of (start_time (hd no_segment late_stop))))
       (date_of (end_time (last late_stop no_segment)))
     = [2%Z]
  /\ map log_date (generate_eld_logs late_stop (Some 0%Z))
     <> days_between
          (Z.max 0 (date_of (start_time (hd no_segment late_stop))))
          (date_of (end_time (last late_stop no_segment))).
Proof.
  split; [vm_compute; reflexivity |]. split; [vm_compute; reflexivity |].
  vm_compute. discriminate.
Qed.

(** The guard of the remark, [seg_start >= seg.start_time], holds for every
    slice: [seg_start] is [max(seg.start_time, day_start)]. *)
Lemma remark_guard_always (s : TripSegment) (day_start : datetime) :
  (Z.max (start_time s) day_start >=? start_time s)%Z = true.
Proof. apply Z.geb_le. lia. Qed.

(** C8.  A drive from 22:00 to 02:00 with the reason "Driving" gets a remark
    on the day that owns its start, and a second one, "00:00 - Driving", on
    the next day, which holds only the later slice. *)
Theorem remark_on_later_slice :
  map remarks (generate_eld_logs overnight_drive None)
  = [["22:00 - Driving"]; ["00:00 - Driving"]]%string.
Proof. vm_compute. reflexivity. Qed.

(** ** Rounded hours *)

Lemma scale_pos (n : nat) : 0 < inject_Z (10 ^ Z.of_nat n).
Proof.
  rewrite <- (Zlt_Qlt 0). apply Z.pow_pos_nonneg; lia.
Qed.

Lemma py_round_spec (x : Q) (n : nat) :
  py_round x n * inject_Z (10 ^ Z.of_nat n)
  == inject_Z (round_half_even (x * inject_Z (10 ^ Z.of_nat n))).
Proof.
  unfold py_round. pose proof (scale_pos n) as H.
  field. lra.
Qed.

Lemma py_round_comp (x y : Q) (n : nat) : x == y -> py_round x n == py_round y n.
Proof.
  intro H. unfold py_round.
  rewrite (round_half_even_comp (x * inject_Z (10 ^ Z.of_nat n))
                                (y * inject_Z (10 ^ Z.of_nat n))).
  - reflexivity.
  - rewrite H. reflexivity.
Qed.

Lemma py_round_mono (x y : Q) (n : nat) : x <= y -> py_round x n <= py_round y n.
Proof.
  intro H. pose proof (scale_pos n) as Hs. unfold py_round.
  apply Qmult_le_compat_r.
  - rewrite <- Zle_Qle. apply round_half_even_mono.
    apply Qmult_le_compat_r; lra.
  - apply Qlt_le_weak. apply Qinv_lt_0_compat. exact Hs.
Qed.

Lemma py_round_idem (x : Q) (n : nat) :
  py_round (py_round x n) n == py_round x n.
Proof.
  unfold py_round at 1.
  rewrite (round_half_even_comp _ _ (py_round_spec x n)), round_half_even_Z.
  reflexivity.
Qed.

Lemma py_round_Z (z : Z) (n : nat) : py_round (inject_Z z) n == inject_Z z.
Proof.
  unfold py_round. pose proof (scale_pos n) as Hs.
  rewrite <- inject_Z_mult, round_half_even_Z, inject_Z_mult.
  field. lra.
Qed.

(** ** Hours of a day *)

Lemma hours_between_mono (a u u' : datetime) :
  (u <= u')%Z -> hours_between a u <= hours_between a u'.
Proof.
  intro H. unfold hours_between. apply Qmult_le_compat_r.
  - rewrite <- Zle_Qle. lia.
  - discriminate.
Qed.

Lemma hour_of_mono (d : date) (u u' : datetime) :
  (u <= u')%Z -> hour_of d u <= hour_of d u'.
Proof.
  intro H. apply py_round_mono. apply hours_between_mono. exact H.
Qed.

Lemma hour_of_midnight (d : date) : hour_of d (midnight d) == 0.
Proof.
  unfold hour_of, hours_between. rewrite Z.sub_diag. reflexivity.
Qed.

Lemma hour_of_next_midnight (d : date) :
  hour_of d (midnight d + us_per_day)%Z == 24.
Proof.
  unfold hour_of, hours_between.
  replace (midnight d + us_per_day - midnight d)%Z with us_per_day by lia.
  reflexivity.
Qed.

Lemma hour_of_rounded (d : date) (u : datetime) : rounded (hour_of d u).
Proof.
  unfold rounded, hour_of. exact (py_round_idem (hours_between (midnight d) u) 4).
Qed.

(** ** The entries of one day *)

Lemma slice_entries_cons (d : date) (s : TripSegment) (segs : list TripSegment) :
  slice_entries d (s :: segs) = slice_entries d [s] ++ slice_entries d segs.
Proof.
  unfold slice_entries. cbn [flat_map]. rewrite app_nil_r. reflexivity.
Qed.

Lemma project_segment_entries (d : date) (acc : DayAcc) (s : TripSegment) :
  day_entries (project_segment (midnight d) (midnight d + us_per_day)%Z acc s)
  = day_entries acc ++ slice_entries d [s].
Proof.
  unfold project_segment, slice_entries. cbn [flat_map].
  destruct (Z.max (start_time s) (midnight d)
            >=? Z.min (end_time s) (midnight d + us_per_day))%Z.
  - rewrite app_nil_r. reflexivity.
  - cbn [day_entries]. rewrite app_nil_r. reflexivity.
Qed.

Lemma day_entries_fold (d : date) (segs : list TripSegment) :
  forall acc : DayAcc,
    day_entries (fold_left (project_segment (midnight d)
                                            (midnight d + us_per_day)%Z)
                           segs acc)
    = day_entries acc ++ slice_entries d segs.
Proof.
  induction segs as [| s segs IH]; intro acc; cbn [fold_left].
  - cbn. rewrite app_nil_r. reflexivity.
  - rewrite IH, project_segment_entries, <- app_assoc, <- slice_entries_cons.
    reflexivity.
Qed.

Lemma slices_ordered (d : date) (segs : list TripSegment) :
  forall (t : datetime) (c : Q),
    ordered t segs -> c <= hour_of d (Z.max t (midnight d)) ->
    eordered c (slice_entries d segs).
Proof.
  induction segs as [| s segs IH]; intros t c Hord Hc; [exact I |].
  destruct Hord as (Hts & Hse & Hrest).
  rewrite slice_entries_cons.
  unfold slice_entries at 1. cbn [flat_map]. rewrite app_nil_r.
  set (a := midnight d) in *. set (b := (a + us_per_day)%Z).
  assert (a < b)%Z as Hab by (subst b; unfold us_per_day; lia).
  destruct (Z.max (start_time s) a >=? Z.min (end_time s) b)%Z eqn:E.
  - cbn [app]. apply (IH (end_time s)); [exact Hrest |].
    eapply Qle_trans; [exact Hc |]. apply hour_of_mono. lia.
  - rewrite Z.geb_leb in E. apply Z.leb_gt in E.
    cbn [app eordered start_hour end_hour].
    split; [| split; [| split; [| split; [| split]]]].
    + eapply Qle_trans; [exact Hc |]. apply hour_of_mono. lia.
    + apply hour_of_mono. lia.
    + rewrite <- (hour_of_next_midnight d). apply hour_of_mono. fold a b. lia.
    + apply hour_of_rounded.
    + apply hour_of_rounded.
    + apply (IH (end_time s)); [exact Hrest |]. apply hour_of_mono. lia.
Qed.

(** ** Sorting entries that are in order *)

Lemma insert_entry_last (e : LogEntry) (acc : list LogEntry) :
  Forall (fun x => start_hour x <= start_hour e) acc ->
  insert_entry e acc = acc ++ [e].
Proof.
  induction acc as [| x acc IH]; intro H; [reflexivity |].
  inversion H as [| ? ? Hx Hacc]; subst. cbn [insert_entry app].
  rewrite (proj2 (Qltb_false _ _) Hx), IH by assumption. reflexivity.
Qed.

Lemma eordered_weaken (es : list LogEntry) (c c' : Q) :
  c' <= c -> eordered c es -> eordered c' es.
Proof.
  destruct es as [| e r]; [auto |]. cbn [eordered].
  intros H (H1 & H2). split; [lra | exact H2].
Qed.

Lemma eordered_starts (es : list LogEntry) :
  forall c, eordered c es -> Forall (fun x => c <= start_hour x) es.
Proof.
  induction es as [| e r IH]; intros c H; [constructor |].
  destruct H as (H1 & H2 & H3 & H4 & H5 & H6). constructor; [exact H1 |].
  apply IH. eapply eordered_weaken; [| exact H6]. lra.
Qed.

Lemma sort_ordered_from (es : list LogEntry) :
  forall (acc : list LogEntry) (c : Q),
    Forall (fun x => start_hour x <= c) acc -> eordered c es ->
    fold_left (fun acc e => insert_entry e acc) es acc = acc ++ es.
Proof.
  induction es as [| e r IH]; intros acc c Hacc Hes; cbn [fold_left].
  - rewrite app_nil_r. reflexivity.
  - destruct Hes as (H1 & H2 & H3 & H4 & H5 & H6).
    rewrite insert_entry_last.
    + rewrite (IH (acc ++ [e]) (start_hour e)).
      * rewrite <- app_assoc. reflexivity.
      * apply Forall_app. split.
        -- eapply Forall_impl; [| exact Hacc]. cbv beta. intros x Hx. lra.
        -- constructor; [lra | constructor].
      * eapply eordered_weaken; [| exact H6]. exact H2.
    + eapply Forall_impl; [| exact Hacc]. cbv beta. intros x Hx. lra.
Qed.

Lemma sort_ordered (es : list LogEntry) (c : Q) :
  eordered c es -> sort_entries es = es.
Proof.
  intro H. unfold sort_entries.
  apply (sort_ordered_from es [] c); [constructor | exact H].
Qed.

(** ** Filling the gaps *)

Lemma fill_tiled (es : list LogEntry) :
  forall lo cur : Q,
    lo <= cur -> rounded cur -> cur <= 24 -> eordered cur es ->
    tiled_from lo cur (fill_from cur es).
Proof.
  induction es as [| e r IH]; intros lo cur Hlo Hr H24 Hes;
    unfold rounded in Hr; cbn [fill_from].
  - destruct (Qltb cur 23.99) eqn:E.
    + cbn [tiled_from gap_entry start_hour end_hour]. repeat split; lra.
    + apply Qltb_false in E. cbn [tiled_from]. lra.
  - destruct Hes as (H1 & H2 & H3 & H4 & H5 & H6). unfold rounded in H4, H5.
    assert (tiled_from (start_hour e) (end_hour e) (fill_from (end_hour e) r))
      as Hrest by (apply IH; assumption).
    destruct (Qltb (cur + 0.01) (start_hour e)) eqn:E.
    + apply Qltb_true in E.
      cbn [app tiled_from gap_entry start_hour end_hour].
      repeat split; try lra. exact Hrest.
    + apply Qltb_false in E. cbn [app tiled_from].
      repeat split; try lra. exact Hrest.
Qed.

Lemma last_item_cons {A : Type} (x y : A) (l : list A) :
  last_item (x :: y :: l) = last_item (y :: l).
Proof.
  destruct (@exists_last _ (y :: l)) as (l' & z & E); [discriminate |].
  rewrite E. change (x :: l' ++ [z]) with ((x :: l') ++ [z]).
  rewrite !last_item_snoc. reflexivity.
Qed.

Lemma tiled_shape (out : list LogEntry) :
  forall lo cur : Q,
    tiled_from lo cur out ->
    sorted_starts out /\ adjacent 0.01 out
    /\ (out <> [] ->
        exists e, last_item out = Some e /\ 24 - 0.01 <= end_hour e <= 24).
Proof.
  induction out as [| e r IH]; intros lo cur H.
  - cbn. repeat split; auto. intro C. congruence.
  - destruct H as (H1 & H2 & H3).
    destruct (IH _ _ H3) as (Hs & Ha & Hl).
    destruct r as [| e2 r].
    + cbn [tiled_from] in H3. cbn [sorted_starts adjacent].
      repeat split; auto. intros _. exists e. split; [reflexivity | lra].
    + destruct H3 as (G1 & G2 & G3). cbn [sorted_starts adjacent].
      repeat split; try assumption; try lra.
      intros _. rewrite last_item_cons. apply Hl. discriminate.
Qed.

Lemma fill_gaps_tiles (es : list LogEntry) :
  eordered 0 es -> tiles_day 0.01 0.01 (_fill_gaps es).
Proof.
  intro Hes. unfold _fill_gaps. destruct es as [| e r].
  - unfold tiles_day. cbn [sorted_starts adjacent hd_error].
    repeat split; auto.
    + exists (gap_entry 0 24). cbn. split; [reflexivity | lra].
    + exists (gap_entry 0 24). cbn. split; [reflexivity | lra].
  - rewrite (sort_ordered _ _ Hes).
    assert (tiled_from 0 0 (fill_from 0 (e :: r))) as Ht.
    { apply fill_tiled; try lra; [reflexivity | exact Hes]. }
    destruct (tiled_shape _ _ _ Ht) as (Hs & Ha & Hl).
    unfold tiles_day. split; [exact Hs |]. split; [exact Ha |].
    destruct (fill_from 0 (e :: r)) as [| g out] eqn:Eout.
    + exfalso. cbn [fill_from] in Eout.
      destruct (Qltb (0 + 0.01) (start_hour e)); discriminate.
    + split; [| apply Hl; discriminate].
      exists g. split; [reflexivity |]. destruct Ht as (T1 & T2 & _). lra.
Qed.

Lemma day_log_tiles (segs : list TripSegment) (t : datetime) (d : date) (k : Z) :
  ordered t segs -> tiles_day 0.01 0.01 (entries (day_log segs d k)).
Proof.
  intro Hord. unfold day_log. cbn [entries].
  change (midnight d + us_per_day)%Z with (midnight d + us_per_day)%Z.
  rewrite day_entries_fold. cbn [day_entries app].
  apply fill_gaps_tiles. apply (slices_ordered d segs t); [exact Hord |].
  rewrite <- (hour_of_midnight d). apply hour_of_mono. lia.
Qed.

(** C6, as the code has it.  For segments in time order that do not overlap
    (each ends no later than the next one starts; the contiguous lists are
    such), the entries of every daily log tile the day: they are sorted by
    [start_hour], each entry ends where the next one starts within 0.01, the
    first one starts within 0.01 of 0 and the last one ends within 0.01 of
    24. *)
Theorem daily_log_tiles
        (segs : list TripSegment) (trip_start_date : option date)
        (t : datetime) (log : DailyLog) :
  ordered t segs ->
  In log (generate_eld_logs segs trip_start_date) ->
  tiles_day 0.01 0.01 (entries log).
Proof.
  intros Hord Hin. unfold generate_eld_logs in Hin.
  destruct segs as [| first rest]; [destruct Hin |].
  apply days_loop_entries in Hin as (d & k & ->).
  eapply day_log_tiles. exact Hord.
Qed.

Lemma daily_log_tiles_witness :
  tiles_day 0.01 0.01 (first_day_entries overnight_drive).
Proof.
  apply (daily_log_tiles overnight_drive None 0%Z).
  - vm_compute. repeat split; discriminate.
  - vm_compute. left. reflexivity.
Defined.

(** C6, as stated, fails in two ways.  Segments that overlap give entries
    that overlap: 01:00-05:00 is followed by 02:00-03:00.  And a gap of at
    most 0.01 hour at either end of the day is left open: a segment from
    00:00:18 to 23:59:42 is the only entry of its day. *)
Lemma daily_log_tiles_counterexample :
  (map entry_hours (first_day_entries overlapping_segments)
   = [(0, 1); (1, 5); (2, 3); (3, 24)]
   /\ ~ tiles_day 0.01 0 (first_day_entries overlapping_segments))
  /\ (map entry_hours (first_day_entries inset_segment)
      = [(1 # 200, 4799 # 200)]
      /\ ~ tiles_day 0.01 0 (first_day_entries inset_segment)).
Proof.
  split; (split; [vm_compute; reflexivity |]).
  - intros (_ & Hadj & _). vm_compute in Hadj.
    destruct Hadj as (_ & (_ & Hbad) & _). apply Hbad. reflexivity.
  - intros (_ & _ & (e & He & _ & Hbad) & _). vm_compute in He.
    injection He as <-. vm_compute in Hbad. apply Hbad. reflexivity.
Qed.

(** * Further properties of the ledger *)

(** [remaining_driving] is the least of the four remaining allowances. *)
Theorem remaining_driving_is_least (s : HOSState) :
  remaining_driving s
  == py_min (py_min (py_min (remaining_drive_limit s) (remaining_window s))
                    (remaining_before_break s))
            (remaining_cycle s).
Proof.
  unfold remaining_driving, remaining_drive_limit, remaining_window,
    remaining_before_break, remaining_cycle, py_max, py_min.
  unfold_consts. qcases; lra.
Qed.

(** No driving time is left exactly when the ledger asks for a break, a rest
    or a cycle restart; each of the three predicates is the exhaustion of
    its own allowance. *)
Theorem no_driving_left_iff (s : HOSState) :
  (remaining_driving s == 0
   <-> needs_break s || needs_rest s || needs_cycle_reset s = true)
  /\ (needs_break s = true <-> remaining_before_break s == 0)
  /\ (needs_rest s = true
      <-> remaining_drive_limit s == 0 \/ remaining_window s == 0)
  /\ (needs_cycle_reset s = true <-> remaining_cycle s == 0).
Proof.
  unfold remaining_driving, remaining_drive_limit, remaining_window,
    remaining_before_break, remaining_cycle, needs_break, needs_rest,
    needs_cycle_reset, py_max, py_min.
  unfold_consts.
  repeat split; qcases; cbn [orb];
    try (intro; reflexivity); try (intro; lra); try (intro; discriminate);
    try (intros [? | ?]; first [reflexivity | lra | discriminate]);
    try (intro; first [left; lra | right; lra]).
Qed.

Lemma check_rest_cases
        (st : HOSState) (segs : list Emitted) (now : datetime) (loc : Location) :
  let st' := fst (_check_and_add_rest_if_needed st segs now loc) in
  let segs' := snd (_check_and_add_rest_if_needed st segs now loc) in
  needs_rest st' = false /\ needs_cycle_reset st' = false
  /\ ((needs_rest st = false /\ needs_cycle_reset st = false
       /\ st' = st /\ segs' = segs)
      \/ (exists r : TripSegment,
            segs' = segs ++ [mkEmitted r st']
            /\ stop_shape r /\ segment_type r = "rest"%string
            /\ start_time r = now
            /\ (end_time r = (now + 34 * us_per_hour)%Z
                \/ end_time r = (now + 10 * us_per_hour)%Z))).
Proof.
  unfold _check_and_add_rest_if_needed.
  destruct (needs_cycle_reset st) eqn:Ec; [| destruct (needs_rest st) eqn:Er];
    cbn [fst snd].
  - split; [reflexivity |]. split; [reflexivity |]. right. eexists.
    split; [reflexivity |]. cbn.
    repeat split; try (right; reflexivity); try (left; reflexivity).
    unfold forward. cbn. lia.
  - split; [reflexivity |]. split; [exact Ec |]. right. eexists.
    split; [reflexivity |]. cbn.
    repeat split; try (right; reflexivity); try (left; reflexivity).
    unfold forward. cbn. lia.
  - split; [exact Er |]. split; [exact Ec |]. left. repeat split.
Qed.

(** Before the on-duty work at the end of a leg, the rest check leaves a
    ledger that asks for no rest and no cycle restart.  When the ledger asks
    for a cycle restart it appends one rest of 34 hours starting now and
    clears the shift and the cycle; when it asks only for a rest it appends
    one rest of 10 hours and clears the shift, not the cycle; when it asks
    for neither it appends nothing and leaves the ledger as it is. *)
Theorem rest_check_clears_ledger
        (st : HOSState) (segs : list Emitted) (now : datetime) (loc : Location) :
  let st' := fst (_check_and_add_rest_if_needed st segs now loc) in
  let segs' := snd (_check_and_add_rest_if_needed st segs now loc) in
  needs_rest st' = false /\ needs_cycle_reset st' = false
  /\ if needs_cycle_reset st || needs_rest st then
       exists r : TripSegment,
         segs' = segs ++ [mkEmitted r st']
         /\ stop_shape r /\ segment_type r = "rest"%string
         /\ start_time r = now
         /\ end_time r
            = (now + (if needs_cycle_reset st then 34 else 10) * us_per_hour)%Z
         /\ driving_hours st' = 0 /\ window_hours st' = 0
         /\ hours_since_break st' = 0
         /\ cycle_hours st'
            = (if needs_cycle_reset st then 0 else cycle_hours st)
     else st' = st /\ segs' = segs.
Proof.
  unfold _check_and_add_rest_if_needed.
  destruct (needs_cycle_reset st) eqn:Ec; [| destruct (needs_rest st) eqn:Er];
    cbn [fst snd orb].
  - split; [reflexivity |]. split; [reflexivity |]. eexists.
    split; [reflexivity |]. cbn.
    repeat split; try (right; reflexivity). unfold forward. cbn. lia.
  - split; [reflexivity |]. split; [exact Ec |]. eexists.
    split; [reflexivity |]. cbn.
    repeat split; try (right; reflexivity). unfold forward. cbn. lia.
  - split; [exact Er |]. split; [exact Ec |]. split; reflexivity.
Qed.

(** * Further properties of the driving planner *)

Lemma round_half_even_zero : round_half_even 0 = 0%Z.
Proof. reflexivity. Qed.

Lemma timedelta_nonneg (h : Q) : 0 <= h -> (0 <= timedelta_hours h)%Z.
Proof.
  intro H. unfold timedelta_hours. rewrite <- round_half_even_zero.
  apply round_half_even_mono. unfold us_per_hour.
  change (inject_Z 3600000000) with (3600000000 # 1). lra.
Qed.

Lemma drive_shape_kind (s : TripSegment) :
  drive_shape s -> is_drive s = true /\ is_stop s = false /\ is_fuel s = false.
Proof.
  intros (H & _). unfold is_drive, is_stop, is_fuel. rewrite H. repeat split.
Qed.

Lemma stop_shape_kind (s : TripSegment) :
  stop_shape s -> is_drive s = false /\ is_stop s = true /\ is_fuel s = false.
Proof.
  intros ([H | H] & _); unfold is_drive, is_stop, is_fuel; rewrite H;
    repeat split.
Qed.

Lemma fuel_shape_kind (s : TripSegment) :
  fuel_shape s -> is_drive s = false /\ is_stop s = false /\ is_fuel s = true.
Proof.
  intros (H & _). unfold is_drive, is_stop, is_fuel. rewrite H. repeat split.
Qed.

Lemma work_shape_kind (s : TripSegment) :
  work_shape s -> is_drive s = false /\ is_stop s = false /\ is_fuel s = false.
Proof.
  intros ([H | H] & _); unfold is_drive, is_stop, is_fuel; rewrite H;
    repeat split.
Qed.

Lemma interruption_shape (sl el : Location) (tm : Q) (v : PlanVars) :
  exists s : TripSegment,
    segments (interruption sl el tm v)
    = segments v ++ [mkEmitted s (state (interruption sl el tm v))]
    /\ stop_shape s.
Proof.
  unfold interruption.
  destruct (needs_cycle_reset (state v));
    [| destruct (needs_break (state v) && negb (needs_rest (state v)))];
    plan_proj; eexists; (split; [reflexivity |]);
    unfold stop_shape, off_duty_stop, one_place, forward;
    cbn [segment_type duty_status distance_miles start_location end_location
         start_time end_time];
    repeat split; try (left; reflexivity); try (right; reflexivity);
    match goal with
    | |- (_ <= _ + timedelta_hours ?h)%Z =>
        pose proof (timedelta_nonneg h ltac:(unfold_consts; lra)); lia
    end.
Qed.

Lemma drive_and_fuel_shape (sl el : Location) (tm : Q) (v : PlanVars)
      (nf : bool) (m : Q) :
  0 < m ->
  let v' := drive_and_fuel sl el tm v nf m (m / AVG_SPEED_MPH) in
  exists d : TripSegment,
    drive_shape d
    /\ (segments v' = segments v ++ [mkEmitted d (state v')]
        \/ (exists f : TripSegment,
               fuel_shape f
               /\ segments v' = segments v
                                  ++ [mkEmitted d (add_driving (m / AVG_SPEED_MPH)
                                                               (state v));
                                      mkEmitted f (state v')]
               /\ 0.1 < miles_remaining v')).
Proof.
  intros Hm v'. subst v'. unfold drive_and_fuel. plan_proj.
  assert (0 <= timedelta_hours (m / AVG_SPEED_MPH))%Z as Hd.
  { apply timedelta_nonneg. unfold AVG_SPEED_MPH. qdiv. lra. }
  assert (0 <= timedelta_hours FUEL_STOP_DURATION_HOURS)%Z as Hf.
  { apply timedelta_nonneg. unfold_consts. lra. }
  exists (drive_segment (current_time v) (m / AVG_SPEED_MPH)
            (interpolate_location sl el (fraction_at tm (miles_remaining v) 0))
            (interpolate_location sl el
               (fraction_at tm (miles_remaining v - m) 1)) m).
  split.
  - unfold drive_shape, drive_segment, forward.
    cbn [segment_type duty_status distance_miles reason start_time end_time].
    repeat split; [exact Hm | lia].
  - destruct nf; plan_proj.
    + destruct (Qltb 0.1 (miles_remaining v - m)) eqn:E; plan_proj.
      * right. eexists. split; [| split].
        2: { rewrite <- app_assoc. reflexivity. }
        -- unfold fuel_shape, one_place, forward.
           cbn [segment_type duty_status distance_miles start_location
                end_location start_time end_time drive_segment].
           repeat split; [left; reflexivity | lia].
        -- apply Qltb_true in E. exact E.
      * left. reflexivity.
    + left. reflexivity.
Qed.

(** One pass of the loop, by what it appends. *)
Lemma loop_body_step (sl el : Location) (tm : Q) (v : PlanVars) :
  0 < miles_remaining v ->
  let v' := loop_body sl el tm v in
  (remaining_driving (state v) <= 0
   /\ miles_remaining v' = miles_remaining v
   /\ 0 < remaining_driving (state v')
   /\ exists s : TripSegment,
       segments v' = segments v ++ [mkEmitted s (state v')] /\ stop_shape s)
  \/ (0 < remaining_driving (state v)
      /\ exists d : TripSegment,
          drive_shape d
          /\ (segments v' = segments v ++ [mkEmitted d (state v')]
              \/ (exists (f : TripSegment) (st1 : HOSState),
                     fuel_shape f
                     /\ segments v' = segments v
                                      ++ [mkEmitted d st1; mkEmitted f (state v')]
                     /\ 0.1 < miles_remaining v'))).
Proof.
  intros Hm v'. subst v'.
  destruct (Qlt_le_dec 0 (remaining_driving (state v))) as [Hd | Hd].
  - right. split; [exact Hd |]. rewrite loop_body_drives by assumption.
    destruct (miles_this_segment_bounds v Hd Hm) as (Hp & _).
    destruct (drive_and_fuel_shape sl el tm v (need_fuel v)
                (miles_this_segment v) Hp) as (d & Hds & Hcase).
    exists d. split; [exact Hds |].
    destruct Hcase as [Hs | (f & Hfs & Hs & Hrem)]; [left; exact Hs |].
    right. eauto.
  - left. split; [exact Hd |]. rewrite loop_body_interrupts by assumption.
    split; [apply interruption_frame |].
    split; [apply interruption_restores; exact Hd |].
    apply interruption_shape.
Qed.

Lemma some_eq {A : Type} (a b : A) : Some a = Some b -> a = b.
Proof. intro H. injection H as H. exact H. Qed.

Lemma last_item_segments_of (l : list Emitted) :
  last_item (segments_of l) = option_map seg (last_item l).
Proof.
  unfold last_item, segments_of. rewrite <- map_rev.
  destruct (rev l); reflexivity.
Qed.

Lemma stops_then_drive_snoc (l : list TripSegment) (s : TripSegment) :
  stops_then_drive l ->
  (forall x, last_item l = Some x -> is_stop x = true -> is_drive s = true) ->
  stops_then_drive (l ++ [s]).
Proof.
  induction l as [| a l IH]; intros Hl Hlast; [exact I |].
  destruct l as [| b l].
  - cbn. split; [| exact I]. apply Hlast. reflexivity.
  - destruct Hl as [Hab Hl]. cbn [app stops_then_drive]. split; [exact Hab |].
    apply IH; [exact Hl |]. intros x Hx. apply Hlast.
    rewrite last_item_cons. exact Hx.
Qed.

Lemma pass_shapes (sl el : Location) (tm total : Q) (v : PlanVars) :
  0.1 < miles_remaining v ->
  leg_invariant total v -> leg_invariant total (loop_body sl el tm v).
Proof.
  intros Hm (Hall & Hsd & Hnil & Hlast).
  assert (0 < miles_remaining v) as Hm0 by lra.
  assert (forall x : TripSegment,
             last_item (segments_of (segments v)) = Some x ->
             is_stop x = true -> 0 < remaining_driving (state v)) as Hstop.
  { intros x Hx Hs. rewrite last_item_segments_of in Hx.
    destruct (last_item (segments v)) as [l |] eqn:El; [| discriminate].
    injection Hx as <-. apply (Hlast l eq_refl). exact Hs. }
  unfold leg_invariant.
  destruct (loop_body_step sl el tm v Hm0)
    as [(Hd & Hmr & Hd' & s & Hs & Hshape)
       | (Hd & d & Hshape & [Hs | (f & st1 & Hfshape & Hs & Hrem)])];
    rewrite Hs, segments_of_app; cbn [segments_of map seg].
  - destruct (stop_shape_kind s Hshape) as (K1 & K2 & K3).
    split; [| split; [| split]].
    + apply Forall_app. split; [exact Hall |].
      constructor; [right; left; exact Hshape | constructor].
    + apply stops_then_drive_snoc; [exact Hsd |].
      intros x Hx Hxs. specialize (Hstop x Hx Hxs). lra.
    + intro C. apply app_eq_nil in C as [_ C]. discriminate.
    + intros l Hl. rewrite last_item_snoc in Hl. apply some_eq in Hl.
      subst l.
      cbn [seg]. rewrite K3, Hmr. split; [auto | discriminate].
  - destruct (drive_shape_kind d Hshape) as (K1 & K2 & K3).
    split; [| split; [| split]].
    + apply Forall_app. split; [exact Hall |].
      constructor; [left; exact Hshape | constructor].
    + apply stops_then_drive_snoc; [exact Hsd |]. intros; exact K1.
    + intro C. apply app_eq_nil in C as [_ C]. discriminate.
    + intros l Hl. rewrite last_item_snoc in Hl. apply some_eq in Hl.
      subst l.
      cbn [seg]. rewrite K2, K3. split; discriminate.
  - destruct (drive_shape_kind d Hshape) as (K1 & K2 & K3).
    destruct (fuel_shape_kind f Hfshape) as (F1 & F2 & F3).
    split; [| split; [| split]].
    + apply Forall_app. split; [exact Hall |].
      constructor; [left; exact Hshape |].
      constructor; [right; right; exact Hfshape | constructor].
    + change [d; f] with ([d] ++ [f]). rewrite app_assoc.
      apply stops_then_drive_snoc.
      * apply stops_then_drive_snoc; [exact Hsd |]. intros; exact K1.
      * intros x Hx. rewrite last_item_snoc in Hx. injection Hx as <-.
        rewrite K2. discriminate.
    + intro C. apply app_eq_nil in C as [_ C]. discriminate.
    + intros l Hl.
      change [mkEmitted d st1; mkEmitted f (state (loop_body sl el tm v))]
        with ([mkEmitted d st1]
                ++ [mkEmitted f (state (loop_body sl el tm v))]) in Hl.
      rewrite app_assoc, last_item_snoc in Hl. apply some_eq in Hl.
      subst l.
      cbn [seg]. rewrite F2. split; [discriminate | intros _; exact Hrem].
Qed.

Lemma plan_loop_skip (sl el : Location) (tm : Q) (n : nat) (v : PlanVars) :
  miles_remaining v <= 0.1 -> plan_loop sl el tm (S n) v = Some v.
Proof.
  intro H. cbn [plan_loop]. rewrite (proj2 (Qltb_false _ _) H). reflexivity.
Qed.

Lemma planner_shape_facts (st : HOSState) (t0 : datetime) (sl el : Location)
      (total th : Q) :
  exists (tr : list Emitted) (st1 : HOSState),
    _plan_driving_segment st t0 sl el total th = Ok (tr, st1)
    /\ Forall planned_shape (segments_of tr)
    /\ stops_then_drive (segments_of tr)
    /\ (total <= 0.1 -> tr = [] /\ st1 = st)
    /\ (0.1 < total ->
        exists l : TripSegment,
          last_item (segments_of tr) = Some l /\ drive_shape l).
Proof.
  destruct (planner_runs st t0 sl el total th) as (v & Hrun & Hres).
  set (v0 := mkPlanVars st [] total t0 0) in *.
  exists (segments v), (state v). split; [exact Hres |].
  assert (leg_invariant total v0) as H0.
  { unfold leg_invariant. subst v0. plan_proj.
    split; [constructor |]. split; [exact I |]. split; [reflexivity |].
    intros l Hl. discriminate Hl. }
  destruct (plan_loop_invariant sl el total (leg_invariant total)
              (fun w Hw Hm => pass_shapes sl el total total w Hm Hw)
              _ v0 v H0 Hrun) as [(Hall & Hsd & Hnil & Hlast) Hstop].
  split; [exact Hall |]. split; [exact Hsd |]. split.
  - intro Hsmall. unfold loop_budget in Hrun.
    rewrite plan_loop_skip in Hrun by exact Hsmall.
    injection Hrun as <-. split; reflexivity.
  - intro Hbig.
    destruct (last_item (segments v)) as [l |] eqn:El.
    + exists (seg l). rewrite last_item_segments_of, El. split; [reflexivity |].
      destruct (Hlast l eq_refl) as [Hls Hlf].
      assert (In (seg l) (segments_of (segments v))) as Hin.
      { unfold last_item in El. destruct (rev (segments v)) as [| y r] eqn:Er;
          [discriminate |]. injection El as ->.
        apply in_map. apply in_rev. rewrite Er. left. reflexivity. }
      rewrite Forall_forall in Hall.
      destruct (Hall _ Hin) as [Hd | [Hs | Hf]]; [exact Hd | |].
      * destruct (stop_shape_kind _ Hs) as (_ & K & _).
        destruct (Hls K) as [_ C]. lra.
      * destruct (fuel_shape_kind _ Hf) as (_ & _ & K).
        specialize (Hlf K). lra.
    + apply last_item_nil in El. specialize (Hnil El).
      rewrite Hnil in Hstop. lra.
Qed.

Lemma linked_snoc (l : list TripSegment) (s : TripSegment) :
  linked l ->
  (forall x, last_item l = Some x -> end_location x = start_location s) ->
  linked (l ++ [s]).
Proof.
  induction l as [| a l IH]; intros Hl Hlast; [exact I |].
  destruct l as [| b l].
  - cbn. split; [| exact I]. apply Hlast. reflexivity.
  - destruct Hl as [Hab Hl]. cbn [app linked]. split; [exact Hab |].
    apply IH; [exact Hl |]. intros x Hx. apply Hlast.
    rewrite last_item_cons. exact Hx.
Qed.

Lemma fraction_at_default (tm m a b : Q) :
  0 < tm -> fraction_at tm m a = fraction_at tm m b.
Proof.
  intro H. unfold fraction_at. rewrite (proj2 (Qltb_true 0 tm) H). reflexivity.
Qed.

Lemma pass_linked (sl el : Location) (tm : Q) (v : PlanVars) :
  0.1 < miles_remaining v ->
  link_invariant sl el tm v -> link_invariant sl el tm (loop_body sl el tm v).
Proof.
  intros Hm (Hle & Hlk & Hlast).
  assert (0 < tm) as Ht by lra.
  assert (0 < miles_remaining v) as Hm0 by lra.
  unfold link_invariant.
  destruct (Qlt_le_dec 0 (remaining_driving (state v))) as [Hd | Hd].
  - rewrite loop_body_drives by assumption.
    destruct (miles_this_segment_bounds v Hd Hm0) as (Hp & _).
    set (m := miles_this_segment v) in *.
    unfold drive_and_fuel. plan_proj.
    destruct (need_fuel v && Qltb 0.1 (miles_remaining v - m)); plan_proj.
    + split; [lra |]. rewrite !segments_of_app. cbn [segments_of map seg].
      fold (segments_of (segments v)). split.
      * apply linked_snoc; [apply linked_snoc; [exact Hlk |] |].
        -- intros x Hx. rewrite (Hlast x Hx). reflexivity.
        -- intros x Hx. rewrite last_item_snoc in Hx. apply some_eq in Hx.
           subst x. reflexivity.
      * intros x Hx. rewrite last_item_snoc in Hx. apply some_eq in Hx.
        subst x. cbn [end_location].
        rewrite (fraction_at_default tm _ 1 0 Ht). reflexivity.
    + split; [lra |]. rewrite segments_of_app. cbn [segments_of map seg].
      fold (segments_of (segments v)). split.
      * apply linked_snoc; [exact Hlk |].
        intros x Hx. rewrite (Hlast x Hx). reflexivity.
      * intros x Hx. rewrite last_item_snoc in Hx. apply some_eq in Hx.
        subst x. cbn [drive_segment end_location].
        rewrite (fraction_at_default tm _ 1 0 Ht). reflexivity.
  - rewrite loop_body_interrupts by assumption. unfold interruption.
    destruct (needs_cycle_reset (state v));
      [| destruct (needs_break (state v) && negb (needs_rest (state v)))];
      plan_proj; (split; [exact Hle |]);
      rewrite segments_of_app; cbn [segments_of map seg];
      fold (segments_of (segments v));
      (split;
       [apply linked_snoc; [exact Hlk |];
        intros x Hx; rewrite (Hlast x Hx); reflexivity
       | intros x Hx; rewrite last_item_snoc in Hx; apply some_eq in Hx;
         subst x; reflexivity]).
Qed.

(** Every segment planned for a leg is a drive (status [driving], positive
    miles), a break or rest (off duty, no miles, one place) or a fuel stop
    (no miles, one place), and ends no earlier than it starts.  The plan has
    no gap in space: every segment starts at the place where the one before
    it ended. *)
Theorem planned_segments_shape
        (st : HOSState) (t0 : datetime) (start_loc end_loc : Location)
        (total_miles total_hours : Q) :
  exists (tr : list Emitted) (st' : HOSState),
    _plan_driving_segment st t0 start_loc end_loc total_miles total_hours
    = Ok (tr, st')
    /\ Forall planned_shape (segments_of tr)
    /\ linked (segments_of tr).
Proof.
  destruct (planner_shape_facts st t0 start_loc end_loc total_miles total_hours)
    as (tr & st1 & H1 & H2 & _).
  exists tr, st1. split; [exact H1 |]. split; [exact H2 |].
  destruct (planner_runs st t0 start_loc end_loc total_miles total_hours)
    as (v & Hrun & Hres).
  rewrite H1 in Hres. injection Hres as -> ->.
  refine (proj1 (proj2 (proj1 (plan_loop_invariant start_loc end_loc
            total_miles (link_invariant start_loc end_loc total_miles)
            (fun w Hw Hm => pass_linked start_loc end_loc total_miles w Hm Hw)
            _ _ v _ Hrun)))).
  unfold link_invariant. plan_proj. split; [lra |]. split; [exact I |].
  intros x Hx. discriminate Hx.
Qed.

Lemma last_item_in {A : Type} (l : list A) (x : A) :
  last_item l = Some x -> In x l.
Proof.
  unfold last_item. intro H. apply in_rev.
  destruct (rev l) as [| y r]; [discriminate |].
  injection H as ->. left. reflexivity.
Qed.

(** A leg of at most 0.1 miles plans nothing and leaves the ledger as it
    is; a longer leg plans at least one drive. *)
Theorem planned_leg_has_a_drive
        (st : HOSState) (t0 : datetime) (start_loc end_loc : Location)
        (total_miles total_hours : Q) :
  (total_miles <= 0.1 ->
   _plan_driving_segment st t0 start_loc end_loc total_miles total_hours
   = Ok ([], st))
  /\ (0.1 < total_miles ->
      exists (tr : list Emitted) (st' : HOSState) (l : TripSegment),
        _plan_driving_segment st t0 start_loc end_loc total_miles total_hours
        = Ok (tr, st')
        /\ In l (segments_of tr) /\ drive_shape l).
Proof.
  destruct (planner_shape_facts st t0 start_loc end_loc total_miles total_hours)
    as (tr & st1 & H1 & _ & _ & Hsmall & Hbig).
  split.
  - intro H. destruct (Hsmall H) as [-> ->]. exact H1.
  - intro H. destruct (Hbig H) as (l & Hl & Hd).
    exists tr, st1, l. split; [exact H1 |].
    split; [apply last_item_in; exact Hl | exact Hd].
Qed.

Lemma planned_leg_has_a_drive_witness :
  _plan_driving_segment (HOSState_init 69) 0%Z depot dock (1 # 20) 0
  = Ok ([], HOSState_init 69)
  /\ exists (tr : list Emitted) (st' : HOSState) (l : TripSegment),
      _plan_driving_segment (HOSState_init 69) 0%Z depot dock 600 11
      = Ok (tr, st')
      /\ In l (segments_of tr) /\ drive_shape l.
Proof.
  split.
  - apply (planned_leg_has_a_drive (HOSState_init 69) 0%Z depot dock (1 # 20) 0).
    vm_compute. discriminate.
  - apply (planned_leg_has_a_drive (HOSState_init 69) 0%Z depot dock 600 11).
    vm_compute. reflexivity.
Defined.

(** * Further properties of the trip planner *)

Lemma drive_then_work_cases (kind why : string) (wh : Q) (leg : RouteLeg)
      (st : HOSState) (segs : list Emitted) (now : datetime) :
  exists (planned : list Emitted) (st1 : HOSState),
    _plan_driving_segment st now (leg_start_location leg) (leg_end_location leg)
                          (leg_distance_miles leg)
                          (leg_distance_miles leg / AVG_SPEED_MPH)
    = Ok (planned, st1)
    /\ ((segs ++ planned = []
         /\ drive_then_work kind why wh leg st segs now = IndexError)
        \/ (segs ++ planned <> []
            /\ exists (st3 : HOSState) (mid : list Emitted) (w : TripSegment),
                drive_then_work kind why wh leg st segs now
                = Ok (st3, segs ++ planned ++ mid ++ [mkEmitted w st3],
                      end_time w)
                /\ (mid = []
                    \/ exists (r : TripSegment) (st2 : HOSState),
                        mid = [mkEmitted r st2] /\ stop_shape r)
                /\ segment_type w = kind /\ duty_status w = ON_DUTY
                /\ distance_miles w = 0 /\ one_place w
                /\ end_time w = (start_time w + timedelta_hours wh)%Z
                /\ reason w = why
                /\ driving_hours st3 < 11
                /\ window_hours st3 < 14 + wh
                /\ cycle_hours st3 < 70 + wh)).
Proof.
  destruct (planner_runs st now (leg_start_location leg) (leg_end_location leg)
              (leg_distance_miles leg) (leg_distance_miles leg / AVG_SPEED_MPH))
    as (v & _ & Hres).
  exists (segments v), (state v). split; [exact Hres |].
  unfold drive_then_work. rewrite Hres.
  destruct (last_item (segs ++ segments v)) as [l1 |] eqn:Hlast.
  - right. split.
    { intro C. rewrite C in Hlast. discriminate. }
    pose proof (check_rest_cases (state v) (segs ++ segments v)
                  (end_time (seg l1)) (leg_end_location leg)) as Hc.
    destruct (_check_and_add_rest_if_needed (state v) (segs ++ segments v)
                (end_time (seg l1)) (leg_end_location leg)) as [st2 segs2].
    cbn [fst snd] in Hc. destruct Hc as (Hnr & Hnc & Hcase).
    assert (driving_hours st2 < 11 /\ window_hours st2 < 14
            /\ cycle_hours st2 < 70) as (B1 & B2 & B3).
    { unfold needs_rest, needs_cycle_reset in Hnr, Hnc. unfold_consts.
      apply orb_false_iff in Hnr as [Hn1 Hn2].
      apply Qle_bool_false in Hn1, Hn2, Hnc. repeat split; assumption. }
    destruct Hcase as [(_ & _ & _ & ->) | (r & -> & Hr & _)].
    + eexists _, [], _. split; [rewrite app_nil_l, <- app_assoc; reflexivity |].
      split; [left; reflexivity |].
      unfold one_place, add_on_duty. plan_proj.
      cbn [segment_type duty_status distance_miles start_location end_location
           start_time end_time reason].
      repeat split; try lra.
    + eexists _, [mkEmitted r st2], _.
      split; [rewrite <- !app_assoc; reflexivity |].
      split; [right; eauto |].
      unfold one_place, add_on_duty. plan_proj.
      cbn [segment_type duty_status distance_miles start_location end_location
           start_time end_time reason].
      repeat split; try lra.
  - left. apply last_item_nil in Hlast. split; [exact Hlast | reflexivity].
Qed.

Lemma count_kind_app (k : string) (a b : list TripSegment) :
  count_kind k (a ++ b) = (count_kind k a + count_kind k b)%nat.
Proof. unfold count_kind. rewrite filter_app, length_app. reflexivity. Qed.

Lemma count_kind_none (k : string) (l : list TripSegment) :
  Forall (fun s => String.eqb (segment_type s) k = false) l ->
  count_kind k l = 0%nat.
Proof.
  induction l as [| s l IH]; intro H; [reflexivity |].
  inversion H as [| ? ? Hs Hl]; subst. unfold count_kind in *.
  cbn [filter]. rewrite Hs. apply IH. exact Hl.
Qed.

Lemma planned_shape_not_work (s : TripSegment) :
  planned_shape s ->
  String.eqb (segment_type s) "pickup" = false
  /\ String.eqb (segment_type s) "dropoff" = false.
Proof.
  intros [(H & _) | [([H | H] & _) | (H & _)]]; rewrite H; split; reflexivity.
Qed.

Lemma planned_shape_no_work (k : string) (l : list TripSegment) :
  k = "pickup"%string \/ k = "dropoff"%string ->
  Forall planned_shape l -> count_kind k l = 0%nat.
Proof.
  intros Hk Hl. apply count_kind_none.
  eapply Forall_impl; [| exact Hl]. intros s Hs.
  destruct (planned_shape_not_work s Hs) as [H1 H2].
  destruct Hk as [-> | ->]; assumption.
Qed.

Lemma planned_shape_limits (tr : list Emitted) :
  Forall planned_shape (segments_of tr) -> Forall work_within_limits tr.
Proof.
  intro H. apply Forall_forall. intros e He Hw. exfalso.
  rewrite Forall_forall in H.
  destruct (planned_shape_not_work (seg e)) as [H1 H2].
  { apply H. apply in_map. exact He. }
  unfold is_work in Hw. rewrite H1, H2 in Hw. discriminate.
Qed.

(** What the planner facts say of one and the same run. *)
Lemma planner_all_facts (st : HOSState) (t0 : datetime) (sl el : Location)
      (total th : Q) (tr : list Emitted) (st1 : HOSState) :
  _plan_driving_segment st t0 sl el total th = Ok (tr, st1) ->
  Forall planned_shape (segments_of tr)
  /\ (total <= 0.1 -> tr = [])
  /\ (0.1 < total -> tr <> [])
  /\ (0 <= total -> total - 0.1 <= drive_miles (segments_of tr) <= total).
Proof.
  intro Hres.
  destruct (planner_shape_facts st t0 sl el total th)
    as (tr' & st' & H' & Hall & _ & Hsmall & Hbig).
  rewrite Hres in H'. injection H' as <- <-.
  destruct (planner_facts st t0 sl el total th)
    as (tr' & st' & t1 & rest & H' & _ & _ & Hsum & Hle & Hge & _).
  rewrite Hres in H'. injection H' as <- <-.
  split; [exact Hall |]. split; [| split].
  - intro H. apply (Hsmall H).
  - intros H C. destruct (Hbig H) as (l & Hl & _). subst tr. discriminate.
  - intro H. specialize (Hge H). lra.
Qed.

Lemma drive_miles_no_drive (l : list TripSegment) :
  Forall (fun s => is_drive s = false) l -> drive_miles l == 0.
Proof.
  induction l as [| s l IH]; intro H; cbn [drive_miles]; [reflexivity |].
  inversion H as [| ? ? Hs Hl]; subst. rewrite Hs, (IH Hl). lra.
Qed.

Lemma timedelta_one_hour : timedelta_hours 1 = us_per_hour.
Proof. reflexivity. Qed.

Lemma drive_then_work_facts (kind why : string) (leg : RouteLeg)
      (st : HOSState) (segs : list Emitted) (now : datetime) :
  kind = "pickup"%string \/ kind = "dropoff"%string ->
  match drive_then_work kind why 1 leg st segs now with
  | OutOfFuel => False
  | IndexError => segs = [] /\ leg_distance_miles leg <= 0.1
  | Ok (_, segs', _) =>
      exists added : list Emitted,
        segs' = segs ++ added /\ added <> []
        /\ Forall trip_shape (segments_of added)
        /\ Forall work_within_limits added
        /\ count_kind kind (segments_of added) = 1%nat
        /\ (forall k : string,
               k = "pickup"%string \/ k = "dropoff"%string -> k <> kind ->
               count_kind k (segments_of added) = 0%nat)
        /\ (segs = [] -> 0.1 < leg_distance_miles leg)
        /\ (0 <= leg_distance_miles leg ->
            leg_distance_miles leg - 0.1 <= drive_miles (segments_of added)
            <= leg_distance_miles leg)
  end.
Proof.
  intro Hkind.
  destruct (drive_then_work_cases kind why 1 leg st segs now)
    as (planned & st1 & Hres
        & [(Hnil & ->)
          | (Hne & st3 & mid & w & -> & Hmid & Hwk & Hwd & Hw0 & Hw1 & Hwe
             & _ & B1 & B2 & B3)]);
    destruct (planner_all_facts _ _ _ _ _ _ _ _ Hres)
    as (Hall & Hsmall & Hbig & Hdist).
  - apply app_eq_nil in Hnil as [-> ->]. split; [reflexivity |].
    destruct (Qlt_le_dec 0.1 (leg_distance_miles leg)) as [L | L]; [| exact L].
    exfalso. apply (Hbig L). reflexivity.
  - assert (Forall planned_shape (segments_of mid)) as Hmids.
    { destruct Hmid as [-> | (r & st2 & -> & Hr)]; [constructor |].
      constructor; [right; left; exact Hr | constructor]. }
    assert (work_shape w) as Hws.
    { unfold work_shape. rewrite Hwk, Hwe, timedelta_one_hour.
      repeat split; assumption. }
    destruct (work_shape_kind w Hws) as (K1 & K2 & K3).
    exists (planned ++ mid ++ [mkEmitted w st3]).
    split; [reflexivity |]. split.
    { intro C. apply app_eq_nil in C as [_ C].
      apply app_eq_nil in C as [_ C]. discriminate. }
    rewrite !segments_of_app. cbn [segments_of map seg]. fold (segments_of mid).
    fold (segments_of planned).
    split; [| split; [| split; [| split; [| split]]]].
    + apply Forall_app. split.
      { eapply Forall_impl; [| exact Hall]. intros s Hs. left. exact Hs. }
      apply Forall_app. split.
      { eapply Forall_impl; [| exact Hmids]. intros s Hs. left. exact Hs. }
      constructor; [right; exact Hws | constructor].
    + apply Forall_app. split; [apply planned_shape_limits; exact Hall |].
      apply Forall_app. split; [apply planned_shape_limits; exact Hmids |].
      constructor; [| constructor]. intros _. cbn [ledger]. unfold_consts.
      repeat split; lra.
    + rewrite !count_kind_app.
      rewrite (planned_shape_no_work kind _ Hkind Hall).
      rewrite (planned_shape_no_work kind _ Hkind Hmids).
      unfold count_kind. cbn [filter]. rewrite Hwk, String.eqb_refl.
      reflexivity.
    + intros k Hk Hne'. rewrite !count_kind_app.
      rewrite (planned_shape_no_work k _ Hk Hall).
      rewrite (planned_shape_no_work k _ Hk Hmids).
      unfold count_kind. cbn [filter]. rewrite Hwk.
      destruct (String.eqb kind k) eqn:E; [| reflexivity].
      apply String.eqb_eq in E. congruence.
    + intros ->. destruct (Qlt_le_dec 0.1 (leg_distance_miles leg)) as [L | L];
        [exact L |].
      exfalso. apply Hne. rewrite (Hsmall L). reflexivity.
    + intro Hpos. specialize (Hdist Hpos).
      rewrite !drive_miles_app.
      rewrite (drive_miles_no_drive (segments_of mid)).
      * cbn [drive_miles]. rewrite K1. lra.
      * destruct Hmid as [-> | (r & st2 & -> & Hr)]; [constructor |].
        constructor; [| constructor]. apply (stop_shape_kind r Hr).
Qed.

(** One leg acted on, followed by the rest of the trip. *)
Lemma trip_outcome_known (kind why lk other : string) (leg : RouteLeg)
      (rest : list RouteLeg) (st : HOSState) (segs : list Emitted)
      (now : datetime) :
  (kind = "pickup"%string /\ lk = "drive_to_pickup"%string
   /\ other = "dropoff"%string)
  \/ (kind = "dropoff"%string /\ lk = "drive_to_dropoff"%string
      /\ other = "pickup"%string) ->
  leg_kind leg = lk ->
  (forall st' segs' now', trip_outcome rest segs' (trip_loop rest st' segs' now')) ->
  trip_outcome (leg :: rest) segs
    match drive_then_work kind why 1 leg st segs now with
    | Ok (st', segs', now') => trip_loop rest st' segs' now'
    | IndexError => IndexError
    | OutOfFuel => OutOfFuel
    end.
Proof.
  intros Hk Hlk IH.
  assert (known_leg leg = true) as Hknown.
  { unfold known_leg. rewrite Hlk.
    destruct Hk as [(_ & -> & _) | (_ & -> & _)]; reflexivity. }
  assert (kind = "pickup"%string \/ kind = "dropoff"%string) as Hkind.
  { destruct Hk as [(-> & _) | (-> & _)]; [left | right]; reflexivity. }
  assert ((other = "pickup"%string \/ other = "dropoff"%string)
          /\ other <> kind) as [Hother Hdiff].
  { destruct Hk as [(-> & _ & ->) | (-> & _ & ->)]; split;
      try (right; reflexivity); try (left; reflexivity); discriminate. }
  pose proof (drive_then_work_facts kind why leg st segs now Hkind) as Hleg.
  destruct (drive_then_work kind why 1 leg st segs now)
    as [[[st' segs'] now'] | |]; [| | destruct Hleg].
  - destruct Hleg as (added1 & -> & Hne1 & Hsh1 & Hlim1 & Hc1 & Hc0 & Hfirst
                      & Hd1).
    specialize (IH st' (segs ++ added1) now').
    destruct (trip_loop rest st' (segs ++ added1) now') as [tr | |];
      [| | destruct IH].
    + destruct IH as (added2 & -> & Hsh2 & Hlim2 & Hp2 & Hq2 & _ & Hd2).
      exists (added1 ++ added2). rewrite segments_of_app.
      split; [rewrite app_assoc; reflexivity |].
      split; [apply Forall_app; split; assumption |].
      split; [apply Forall_app; split; assumption |].
      rewrite !count_kind_app. unfold count_legs in *. cbn [filter].
      rewrite Hlk.
      split; [| split; [| split]].
      * destruct Hk as [(-> & -> & ->) | (-> & -> & ->)]; cbn [String.eqb].
        -- rewrite Hc1, Hp2. reflexivity.
        -- rewrite (Hc0 "pickup"%string) by (auto; discriminate).
           rewrite Hp2. reflexivity.
      * destruct Hk as [(-> & -> & ->) | (-> & -> & ->)]; cbn [String.eqb].
        -- rewrite (Hc0 "dropoff"%string) by (auto; discriminate).
           rewrite Hq2. reflexivity.
        -- rewrite Hc1, Hq2. reflexivity.
      * intro Hnil. cbn [find]. rewrite Hknown. split; [auto |].
        intro C. apply app_eq_nil in C as [C _]. contradiction.
      * intro Hnn. inversion Hnn as [| ? ? Hleg Hrest]; subst.
        specialize (Hd1 (Hleg Hknown)). specialize (Hd2 Hrest).
        cbn [known_miles known_slack]. rewrite Hknown, drive_miles_app. lra.
    + destruct IH as [C _]. apply app_eq_nil in C as [_ C]. contradiction.
  - destruct Hleg as [-> Hsmall]. split; [reflexivity |].
    exists leg. cbn [find]. rewrite Hknown. split; [reflexivity | exact Hsmall].
Qed.

Lemma trip_loop_facts (legs : list RouteLeg) :
  forall (st : HOSState) (segs : list Emitted) (now : datetime),
    trip_outcome legs segs (trip_loop legs st segs now).
Proof.
  induction legs as [| leg rest IH]; intros st segs now.
  - cbn [trip_loop trip_outcome]. exists []. rewrite app_nil_r.
    repeat split; try constructor; cbn; lra.
  - cbn [trip_loop]. fold (leg_kind leg).
    unfold PICKUP_DURATION_HOURS, DROPOFF_DURATION_HOURS.
    destruct (String.eqb (leg_kind leg) "drive_to_pickup") eqn:Ep.
    + apply String.eqb_eq in Ep.
      apply (trip_outcome_known "pickup" _ "drive_to_pickup" "dropoff");
        auto.
    + destruct (String.eqb (leg_kind leg) "drive_to_dropoff") eqn:Ed.
      * apply String.eqb_eq in Ed.
        apply (trip_outcome_known "dropoff" _ "drive_to_dropoff" "pickup");
          auto.
      * assert (known_leg leg = false) as Hunknown.
        { unfold known_leg. rewrite Ep, Ed. reflexivity. }
        specialize (IH st segs now).
        destruct (trip_loop rest st segs now) as [tr | |]; cbn [trip_outcome] in *.
        -- destruct IH as (added & -> & Hsh & Hlim & Hp & Hq & Hfirst & Hd).
           exists added. split; [reflexivity |]. split; [exact Hsh |].
           split; [exact Hlim |]. unfold count_legs in *. cbn [filter find].
           rewrite Ep, Ed, Hunknown. split; [exact Hp |]. split; [exact Hq |].
           split; [exact Hfirst |].
           intro Hnn. inversion Hnn as [| ? ? _ Hrest]; subst.
           specialize (Hd Hrest). cbn [known_miles known_slack].
           rewrite Hunknown. lra.
        -- destruct IH as [-> (l & Hl & Hs)]. split; [reflexivity |].
           exists l. cbn [find]. rewrite Hunknown. auto.
        -- exact IH.
Qed.

Lemma trip_loop_skips_unknown (legs : list RouteLeg) :
  forall (st : HOSState) (segs : list Emitted) (now : datetime),
    trip_loop legs st segs now = trip_loop (filter known_leg legs) st segs now.
Proof.
  induction legs as [| leg rest IH]; intros st segs now; [reflexivity |].
  cbn [filter]. unfold known_leg at 1. cbn [trip_loop]. fold (leg_kind leg).
  destruct (String.eqb (leg_kind leg) "drive_to_pickup") eqn:Ep.
  - cbn [orb trip_loop]. fold (leg_kind leg). rewrite Ep.
    destruct (drive_then_work "pickup" _ _ leg st segs now)
      as [[[st' segs'] now'] | |]; auto.
  - destruct (String.eqb (leg_kind leg) "drive_to_dropoff") eqn:Ed.
    + cbn [orb trip_loop]. fold (leg_kind leg). rewrite Ep, Ed.
      destruct (drive_then_work "dropoff" _ _ leg st segs now)
        as [[[st' segs'] now'] | |]; auto.
    + cbn [orb]. apply IH.
Qed.

(** Legs whose [leg_type] is neither ["drive_to_pickup"] nor
    ["drive_to_dropoff"] - the key may also be missing - are passed over:
    the trip is the one planned for the other legs alone. *)
Theorem unknown_legs_are_skipped
        (legs : list RouteLeg) (ccu : Q) (t0 : datetime) :
  calculate_trip legs ccu t0 = calculate_trip (filter known_leg legs) ccu t0.
Proof.
  unfold calculate_trip, calculate_trip_trace.
  rewrite trip_loop_skips_unknown. reflexivity.
Qed.

(** When [calculate_trip] fails and when it returns.  With no leg to act on
    it returns the empty list.  Otherwise the first leg acted on decides: if
    it is at most 0.1 miles long the call fails with [IndexError], whatever
    follows; if it is longer the call returns a non-empty list. *)
Theorem calculate_trip_outcome
        (legs : list RouteLeg) (ccu : Q) (t0 : datetime) :
  match find known_leg legs with
  | None => calculate_trip legs ccu t0 = Ok []
  | Some leg =>
      if Qle_bool (leg_distance_miles leg) 0.1
      then calculate_trip legs ccu t0 = IndexError
      else exists segs : list TripSegment,
          calculate_trip legs ccu t0 = Ok segs /\ segs <> []
  end.
Proof.
  unfold calculate_trip, calculate_trip_trace.
  pose proof (trip_loop_facts legs (HOSState_init ccu) [] t0) as H.
  destruct (trip_loop legs (HOSState_init ccu) [] t0) as [tr | |];
    cbn [trip_outcome] in H.
  - destruct H as (added & -> & _ & _ & _ & _ & Hfirst & _).
    specialize (Hfirst eq_refl).
    destruct (find known_leg legs) as [leg |].
    + destruct Hfirst as [Hlong Hne].
      rewrite (proj2 (Qle_bool_false _ _) Hlong).
      eexists. split; [reflexivity |].
      intro C. apply map_eq_nil in C. contradiction.
    + rewrite Hfirst. reflexivity.
  - destruct H as (_ & leg & -> & Hshort).
    rewrite (proj2 (Qle_bool_iff _ _) Hshort). reflexivity.
  - destruct H.
Qed.

(** Every segment of a trip is a drive, a break or rest, a fuel stop, or a
    one-hour pickup or dropoff, with the status, distance and places of its
    kind; and the trip holds exactly one pickup per ["drive_to_pickup"] leg
    and one dropoff per ["drive_to_dropoff"] leg. *)
Theorem trip_segments_shape
        (legs : list RouteLeg) (ccu : Q) (t0 : datetime)
        (segs : list TripSegment) :
  calculate_trip legs ccu t0 = Ok segs ->
  Forall trip_shape segs
  /\ count_kind "pickup" segs = count_legs "drive_to_pickup" legs
  /\ count_kind "dropoff" segs = count_legs "drive_to_dropoff" legs.
Proof.
  unfold calculate_trip, calculate_trip_trace. intro Hrun.
  pose proof (trip_loop_facts legs (HOSState_init ccu) [] t0) as H.
  destruct (trip_loop legs (HOSState_init ccu) [] t0) as [tr | |];
    try discriminate.
  injection Hrun as <-.
  destruct H as (added & -> & Hsh & _ & Hp & Hq & _). auto.
Qed.

Lemma trip_segments_shape_witness :
  Forall trip_shape two_short_legs_segments
  /\ count_kind "pickup" two_short_legs_segments
     = count_legs "drive_to_pickup" two_short_legs
  /\ count_kind "dropoff" two_short_legs_segments
     = count_legs "drive_to_dropoff" two_short_legs.
Proof.
  apply (trip_segments_shape two_short_legs 0 0%Z).
  vm_compute. reflexivity.
Defined.

(** A pickup or a dropoff is never done on an exhausted ledger: right after
    it the driving hours are below 11, the window hours below 15 and the
    cycle hours below 71, that is, it started with the window below 14 and
    the cycle below 70. *)
Theorem work_done_within_limits
        (legs : list RouteLeg) (ccu : Q) (t0 : datetime) (tr : list Emitted) :
  calculate_trip_trace legs ccu t0 = Ok tr ->
  Forall work_within_limits tr.
Proof.
  unfold calculate_trip_trace. intro Hrun.
  pose proof (trip_loop_facts legs (HOSState_init ccu) [] t0) as H.
  rewrite Hrun in H. destruct H as (added & -> & _ & Hlim & _). exact Hlim.
Qed.

Lemma work_done_within_limits_witness :
  Forall work_within_limits two_short_legs_trace.
Proof.
  apply (work_done_within_limits two_short_legs 0 0%Z).
  vm_compute. reflexivity.
Defined.

(** The miles driven over a whole trip are the total length of the legs
    acted on, short by at most 0.1 mile per leg, when no such leg has a
    negative length. *)
Theorem trip_distance_conservation
        (legs : list RouteLeg) (ccu : Q) (t0 : datetime)
        (segs : list TripSegment) :
  nonneg_legs legs ->
  calculate_trip legs ccu t0 = Ok segs ->
  known_miles legs - known_slack legs <= drive_miles segs <= known_miles legs.
Proof.
  unfold calculate_trip, calculate_trip_trace. intros Hnn Hrun.
  pose proof (trip_loop_facts legs (HOSState_init ccu) [] t0) as H.
  destruct (trip_loop legs (HOSState_init ccu) [] t0) as [tr | |];
    try discriminate.
  injection Hrun as <-.
  destruct H as (added & -> & _ & _ & _ & _ & _ & Hd). apply Hd. exact Hnn.
Qed.

Lemma trip_distance_conservation_witness :
  known_miles two_short_legs - known_slack two_short_legs
  <= drive_miles two_short_legs_segments <= known_miles two_short_legs.
Proof.
  apply (trip_distance_conservation two_short_legs 0 0%Z).
  - repeat constructor; intros _; vm_compute; discriminate.
  - vm_compute. reflexivity.
Defined.

(** * Further properties of the daily logs *)

Lemma map_duty_status_cases (s : string) :
  canonical_status (_map_duty_status s)
  /\ (canonical_status s -> _map_duty_status s = s)
  /\ _map_duty_status (_map_duty_status s) = _map_duty_status s
  /\ _map_duty_status "on_duty" = "on_duty_not_driving"%string
  /\ (~ canonical_status s -> s <> "on_duty"%string ->
      _map_duty_status s = "off_duty"%string).
Proof.
  unfold canonical_status, _map_duty_status.
  destruct (String.eqb s "off_duty") eqn:E1;
    [apply String.eqb_eq in E1; subst; cbn; intuition auto |].
  destruct (String.eqb s "sleeper_berth") eqn:E2;
    [apply String.eqb_eq in E2; subst; cbn; intuition auto |].
  destruct (String.eqb s "driving") eqn:E3;
    [apply String.eqb_eq in E3; subst; cbn; intuition auto |].
  destruct (String.eqb s "on_duty_not_driving") eqn:E4;
    [apply String.eqb_eq in E4; subst; cbn; intuition auto |].
  apply String.eqb_neq in E1, E2, E3, E4.
  destruct (String.eqb s "on_duty") eqn:E5.
  - apply String.eqb_eq in E5. subst. cbn. intuition auto; discriminate.
  - cbn. intuition auto.
Qed.

Lemma mapped_status_canonical (s : string) :
  canonical_status (_map_duty_status s).
Proof. apply map_duty_status_cases. Qed.

(** [_map_duty_status] always answers one of the four statuses of a log
    sheet, leaves each of them as it is, and so changes nothing when applied
    twice; ["on_duty"] stands for ["on_duty_not_driving"], and any other
    text for ["off_duty"]. *)
Theorem map_duty_status_canonical (s : string) :
  canonical_status (_map_duty_status s)
  /\ (canonical_status s -> _map_duty_status s = s)
  /\ _map_duty_status (_map_duty_status s) = _map_duty_status s
  /\ _map_duty_status "on_duty" = "on_duty_not_driving"%string
  /\ (~ canonical_status s -> s <> "on_duty"%string ->
      _map_duty_status s = "off_duty"%string).
Proof. exact (map_duty_status_cases s). Qed.

Lemma map_duty_status_canonical_witness :
  _map_duty_status "driving" = "driving"%string
  /\ _map_duty_status "yard_move" = "off_duty"%string.
Proof.
  split.
  - destruct (map_duty_status_canonical "driving") as (_ & H & _).
    apply H. right. right. left. reflexivity.
  - destruct (map_duty_status_canonical "yard_move") as (_ & _ & _ & _ & H).
    apply H.
    + intros [C | [C | [C | C]]]; discriminate.
    + discriminate.
Defined.

(** ** Sorting and filling, for any entries *)

Lemma insert_entry_in (e x : LogEntry) (l : list LogEntry) :
  In x (insert_entry e l) <-> x = e \/ In x l.
Proof.
  induction l as [| y l IH]; cbn [insert_entry].
  - cbn. intuition auto.
  - destruct (Qltb (start_hour e) (start_hour y)); cbn [In] in *.
    + intuition auto.
    + rewrite IH. intuition auto.
Qed.

Lemma sort_entries_in (x : LogEntry) (l : list LogEntry) :
  In x (sort_entries l) <-> In x l.
Proof.
  unfold sort_entries.
  assert (forall acc, In x (fold_left (fun acc e => insert_entry e acc) l acc)
                      <-> In x acc \/ In x l) as H.
  { induction l as [| e l IH]; intro acc; cbn [fold_left].
    - cbn. intuition auto.
    - rewrite IH, insert_entry_in. cbn [In]. intuition auto. }
  rewrite H. cbn. intuition auto.
Qed.

Lemma fill_from_in (x : LogEntry) (l : list LogEntry) :
  forall cur : Q,
    (In x l -> In x (fill_from cur l))
    /\ (In x (fill_from cur l) -> In x l \/ is_gap x).
Proof.
  induction l as [| e l IH]; intro cur; cbn [fill_from].
  - split; [intros [] |].
    destruct (Qltb cur 23.99); [| intros []].
    intros [<- | []]. right. split; reflexivity.
  - destruct (IH (end_hour e)) as [IH1 IH2]. split.
    + intros [<- | H]; apply in_or_app; right; [left; reflexivity |].
      right. apply IH1. exact H.
    + intro H. apply in_app_or in H as [H | [<- | H]].
      * destruct (Qltb (cur + 0.01) (start_hour e)); [| destruct H].
        destruct H as [<- | []]. right. split; reflexivity.
      * left. left. reflexivity.
      * destruct (IH2 H) as [H' | H']; [left; right; exact H' | right; exact H'].
Qed.

Lemma fill_gaps_in (x : LogEntry) (l : list LogEntry) :
  (In x l -> In x (_fill_gaps l))
  /\ (In x (_fill_gaps l) -> In x l \/ is_gap x)
  /\ _fill_gaps l <> [].
Proof.
  unfold _fill_gaps. destruct l as [| e l].
  - split; [intros [] |]. split; [| discriminate].
    intros [<- | []]. right. split; reflexivity.
  - destruct (fill_from_in x (sort_entries (e :: l)) 0) as [H1 H2].
    split; [| split].
    + intro H. apply H1. apply sort_entries_in. exact H.
    + intro H. destruct (H2 H) as [H' | H']; [left | right; exact H'].
      apply sort_entries_in. exact H'.
    + intro C.
      destruct (fill_from_in e (sort_entries (e :: l)) 0) as [He _].
      rewrite C in He. apply He. apply sort_entries_in. left. reflexivity.
Qed.

(** [_fill_gaps] never drops or changes an entry and never answers an empty
    list: every entry it is given comes back, and what it adds is off duty
    with segment type ["off_duty"]. *)
Theorem fill_gaps_keeps_entries (l : list LogEntry) :
  _fill_gaps l <> []
  /\ forall x : LogEntry,
      (In x l -> In x (_fill_gaps l))
      /\ (In x (_fill_gaps l) -> In x l \/ is_gap x).
Proof.
  split.
  - apply (fill_gaps_in (gap_entry 0 24) l).
  - intro x. destruct (fill_gaps_in x l) as (H1 & H2 & _). split; assumption.
Qed.

Lemma fill_gaps_keeps_entries_witness :
  In (mkLogEntry "driving" 5 9 "drive")
     (_fill_gaps [mkLogEntry "driving" 5 9 "drive";
                  mkLogEntry "off_duty" 2 3 "rest"]).
Proof.
  destruct (fill_gaps_keeps_entries
              [mkLogEntry "driving" 5 9 "drive";
               mkLogEntry "off_duty" 2 3 "rest"]) as [_ H].
  apply H. left. reflexivity.
Defined.

(** ** Remarks *)

Lemma project_segment_remarks (d : date) (acc : DayAcc) (s : TripSegment) :
  day_remarks (project_segment (midnight d) (midnight d + us_per_day)%Z acc s)
  = day_remarks acc ++ remark_of d s.
Proof.
  unfold project_segment, remark_of. cbv zeta.
  destruct (Z.max (start_time s) (midnight d)
            >=? Z.min (end_time s) (midnight d + us_per_day))%Z.
  - rewrite app_nil_r. reflexivity.
  - cbn [day_remarks]. rewrite remark_guard_always.
    destruct (String.eqb (reason s) ""); cbn [negb andb].
    + rewrite app_nil_r. reflexivity.
    + reflexivity.
Qed.

Lemma day_remarks_fold (d : date) (segs : list TripSegment) :
  forall acc : DayAcc,
    day_remarks (fold_left (project_segment (midnight d)
                                            (midnight d + us_per_day)%Z)
                           segs acc)
    = day_remarks acc ++ flat_map (remark_of d) segs.
Proof.
  induction segs as [| s segs IH]; intro acc; cbn [fold_left flat_map].
  - rewrite app_nil_r. reflexivity.
  - rewrite IH, project_segment_remarks, <- app_assoc. reflexivity.
Qed.

Lemma days_loop_logs (segs : list TripSegment) (n : nat) :
  forall (d : date) (k : Z) (log : DailyLog),
    In log (days_loop n segs d k) ->
    exists k' : Z, log = day_log segs (log_date log) k'.
Proof.
  induction n as [| n IH]; intros d k log Hin; [destruct Hin |].
  destruct Hin as [<- | Hin]; [eexists; reflexivity |]. eapply IH. exact Hin.
Qed.

Lemma generated_log (segs : list TripSegment) (tsd : option date)
      (log : DailyLog) :
  In log (generate_eld_logs segs tsd) ->
  exists k : Z, log = day_log segs (log_date log) k.
Proof.
  unfold generate_eld_logs. destruct segs as [| first rest]; [intros [] |].
  apply days_loop_logs.
Qed.

(** The remarks of a daily log, in full: one remark, in the order of the
    segments, for every segment with a non-empty reason that overlaps the
    day - stamped with the start of its slice of that day, its own start or
    midnight - and no other. *)
Theorem remarks_of_a_day
        (segs : list TripSegment) (trip_start_date : option date)
        (log : DailyLog) :
  In log (generate_eld_logs segs trip_start_date) ->
  remarks log = flat_map (remark_of (log_date log)) segs.
Proof.
  intro Hin. destruct (generated_log segs trip_start_date log Hin) as [k E].
  rewrite E at 1. unfold day_log. cbn [remarks].
  rewrite day_remarks_fold. reflexivity.
Qed.

Lemma remarks_of_a_day_witness :
  let log := nth 1 (generate_eld_logs overnight_drive None)
                 (mkDailyLog 0%Z 0%Z [] (mkTotalHours 0 0 0 0) 0 []) in
  remarks log = flat_map (remark_of (log_date log)) overnight_drive.
Proof.
  apply (remarks_of_a_day overnight_drive None).
  vm_compute. right. left. reflexivity.
Defined.

(** ** Hours per status *)

Lemma dict_get_add (d : hours_dict) (k k' : string) (x : Q) :
  dict_get (dict_add d k x) k' 0
  == dict_get d k' 0 + (if String.eqb k' k then x else 0).
Proof.
  induction d as [| [k0 y] d IH]; cbn [dict_add dict_get].
  - destruct (String.eqb k' k); lra.
  - destruct (String.eqb k k0) eqn:E; cbn [dict_get].
    + apply String.eqb_eq in E. subst k0.
      destruct (String.eqb k' k); lra.
    + destruct (String.eqb k' k0) eqn:E'.
      * apply String.eqb_eq in E'. subst k0.
        rewrite String.eqb_sym in E. rewrite E. lra.
      * exact IH.
Qed.

Lemma hours_fold (es : list LogEntry) (k : string) :
  forall d : hours_dict,
    dict_get (fold_left
                (fun d e => dict_add d (status e) (end_hour e - start_hour e))
                es d) k 0
    == dict_get d k 0 + status_hours k es.
Proof.
  induction es as [| e es IH]; intro d; cbn [fold_left status_hours].
  - lra.
  - rewrite IH, dict_get_add. lra.
Qed.

Lemma status_hours_span (es : list LogEntry) :
  Forall (fun e => canonical_status (status e)) es ->
  status_hours "off_duty" es + status_hours "sleeper_berth" es
  + status_hours "driving" es + status_hours "on_duty_not_driving" es
  == span_hours es.
Proof.
  induction es as [| e es IH]; intro H; cbn [status_hours span_hours];
    [reflexivity |].
  inversion H as [| ? ? He Hes]; subst. specialize (IH Hes).
  destruct He as [-> | [-> | [-> | ->]]]; cbn [String.eqb Ascii.eqb Bool.eqb];
    lra.
Qed.

Lemma slice_entries_canonical (d : date) (segs : list TripSegment) :
  Forall (fun e => canonical_status (status e)) (slice_entries d segs).
Proof.
  induction segs as [| s segs IH]; [constructor |].
  rewrite slice_entries_cons. apply Forall_app. split; [| exact IH].
  unfold slice_entries. cbn [flat_map].
  destruct (_ >=? _)%Z; [constructor |].
  constructor; [| constructor]. cbn [status].
  apply mapped_status_canonical.
Qed.

Lemma day_log_entries (segs : list TripSegment) (d : date) (k : Z) :
  entries (day_log segs d k) = _fill_gaps (slice_entries d segs).
Proof.
  unfold day_log. cbn [entries]. rewrite day_entries_fold. reflexivity.
Qed.

Lemma day_log_canonical (segs : list TripSegment) (d : date) (k : Z) :
  Forall (fun e => canonical_status (status e)) (entries (day_log segs d k)).
Proof.
  rewrite day_log_entries. apply Forall_forall. intros e He.
  destruct (fill_gaps_in e (slice_entries d segs)) as (_ & H & _).
  destruct (H He) as [Hs | [Hg _]].
  - pose proof (slice_entries_canonical d segs) as Hc.
    rewrite Forall_forall in Hc. apply Hc. exact Hs.
  - rewrite Hg. left. reflexivity.
Qed.

Lemma py_round_hundredth (x : Q) : near (0.005 + slack) x (py_round x 2).
Proof.
  pose proof (py_round_spec x 2) as Hs.
  pose proof (round_half_even_near (x * inject_Z (10 ^ Z.of_nat 2))) as Hn.
  rewrite <- Hs in Hn.
  change (inject_Z (10 ^ Z.of_nat 2)) with (100 # 1) in Hn.
  unfold near, slack. lra.
Qed.

Lemma near_comp (tol a x y : Q) : y == x -> near tol a x -> near tol a y.
Proof. unfold near. intros E H. lra. Qed.

(** The hours of a daily log are all accounted for.  Every entry has one of
    the four statuses; each figure of [total_hours] is, within the rounding
    to 0.01, the sum of the hours of the entries with that status; and the
    four sums add up to the hours of all the entries. *)
Theorem hours_are_accounted
        (segs : list TripSegment) (trip_start_date : option date)
        (log : DailyLog) :
  In log (generate_eld_logs segs trip_start_date) ->
  Forall (fun e => canonical_status (status e)) (entries log)
  /\ near (0.005 + slack) (status_hours "off_duty" (entries log))
          (off_duty_total (total_hours log))
  /\ near (0.005 + slack) (status_hours "sleeper_berth" (entries log))
          (sleeper_berth_total (total_hours log))
  /\ near (0.005 + slack) (status_hours "driving" (entries log))
          (driving_total (total_hours log))
  /\ near (0.005 + slack) (status_hours "on_duty_not_driving" (entries log))
          (on_duty_not_driving_total (total_hours log))
  /\ status_hours "off_duty" (entries log)
     + status_hours "sleeper_berth" (entries log)
     + status_hours "driving" (entries log)
     + status_hours "on_duty_not_driving" (entries log)
     == span_hours (entries log).
Proof.
  intro Hin. destruct (generated_log segs trip_start_date log Hin) as [k E].
  rewrite E. pose proof (day_log_canonical segs (log_date log) k) as Hc.
  split; [exact Hc |].
  split; [| split; [| split; [| split]]];
    try (apply status_hours_span; exact Hc);
    unfold day_log; cbn [total_hours off_duty_total sleeper_berth_total
                         driving_total on_duty_not_driving_total entries];
    (eapply near_comp; [| apply py_round_hundredth]);
    apply py_round_comp; rewrite hours_fold; cbn [dict_get]; lra.
Qed.

Lemma hours_are_accounted_witness :
  let log := nth 0 (generate_eld_logs overnight_drive None) no_log in
  near (0.005 + slack) (status_hours "driving" (entries log))
       (driving_total (total_hours log)).
Proof.
  intro log.
  destruct (hours_are_accounted overnight_drive None log) as (_ & _ & _ & H & _).
  - vm_compute. left. reflexivity.
  - exact H.
Defined.

(** * The logs of a planned trip *)

Lemma chained_forward_ordered (l : list TripSegment) :
  forall t t' : datetime,
    chained t l t' -> Forall forward l -> ordered t l.
Proof.
  induction l as [| s l IH]; intros t t' Hc Hf; [exact I |].
  destruct Hc as [Hs Hc]. inversion Hf as [| ? ? Hfs Hfl]; subst.
  cbn [ordered]. split; [lia |]. split; [exact Hfs |].
  eapply IH; eassumption.
Qed.

Lemma trip_shape_forward (s : TripSegment) : trip_shape s -> forward s.
Proof.
  intros [[H | [H | H]] | H].
  - apply H.
  - apply H.
  - apply H.
  - destruct H as (_ & _ & _ & _ & He). unfold forward. rewrite He.
    unfold us_per_hour. lia.
Qed.

Lemma trip_timeline (legs : list RouteLeg) (ccu : Q) (t0 : datetime)
      (segs : list TripSegment) :
  calculate_trip legs ccu t0 = Ok segs ->
  ordered t0 segs /\ exists t1 : datetime, chained t0 segs t1.
Proof.
  unfold calculate_trip, calculate_trip_trace. intro Hrun.
  pose proof (trip_loop_invariant t0 legs (HOSState_init ccu) [] t0) as Hinv.
  pose proof (trip_loop_facts legs (HOSState_init ccu) [] t0) as Hfacts.
  destruct (trip_loop legs (HOSState_init ccu) [] t0) as [tr | |];
    try discriminate.
  injection Hrun as <-.
  destruct Hinv as [t1 [_ Hch]]; [split; [constructor | reflexivity] |].
  destruct Hfacts as (added & -> & Hsh & _). cbn [app] in *.
  split; [| eauto].
  apply (chained_forward_ordered _ t0 t1 Hch).
  eapply Forall_impl; [| exact Hsh]. apply trip_shape_forward.
Qed.

(** The daily logs of a planned trip tile their days: for the segments that
    [calculate_trip] returns, the entries of every log are sorted, adjacent
    within 0.01, start within 0.01 of 0 and end within 0.01 of 24. *)
Theorem planned_trip_logs_tile
        (legs : list RouteLeg) (ccu : Q) (t0 : datetime)
        (segs : list TripSegment) (trip_start_date : option date)
        (log : DailyLog) :
  calculate_trip legs ccu t0 = Ok segs ->
  In log (generate_eld_logs segs trip_start_date) ->
  tiles_day 0.01 0.01 (entries log).
Proof.
  intros Hrun Hin. destruct (trip_timeline legs ccu t0 segs Hrun) as [Hord _].
  destruct (generated_log segs trip_start_date log Hin) as [k ->].
  apply (day_log_tiles segs t0). exact Hord.
Qed.

Lemma planned_trip_logs_tile_witness :
  tiles_day 0.01 0.01
    (entries (nth 0 (generate_eld_logs two_short_legs_segments None) no_log)).
Proof.
  apply (planned_trip_logs_tile
           two_short_legs 0 0%Z two_short_legs_segments None
           (nth 0 (generate_eld_logs two_short_legs_segments None) no_log)).
  - vm_compute. reflexivity.
  - vm_compute. left. reflexivity.
Defined.

Lemma ordered_last (l : list TripSegment) :
  forall (t : datetime) (d : TripSegment),
    ordered t l -> l <> [] -> (t <= end_time (last l d))%Z.
Proof.
  induction l as [| s l IH]; intros t d Hord Hne; [contradiction |].
  destruct Hord as (H1 & H2 & H3). destruct l as [| a l].
  - cbn. lia.
  - change (last (s :: a :: l) d) with (last (a :: l) d).
    assert (a :: l <> []) as Hne' by discriminate.
    specialize (IH (end_time s) d H3 Hne'). lia.
Qed.

Lemma last_indep {A : Type} (l : list A) (d d' : A) :
  l <> [] -> last l d = last l d'.
Proof.
  induction l as [| a l IH]; intro H; [contradiction |].
  destruct l as [| b l]; [reflexivity |].
  change (last (a :: b :: l) d) with (last (b :: l) d).
  change (last (a :: b :: l) d') with (last (b :: l) d').
  apply IH. discriminate.
Qed.

Lemma date_of_mono (a b : datetime) : (a <= b)%Z -> (date_of a <= date_of b)%Z.
Proof.
  intro H. unfold date_of. apply Z.div_le_mono; [| exact H].
  unfold us_per_day. lia.
Qed.

(** The logs of a planned trip, when no [trip_start_date] is given, run
    from the day of [start_time] through the day the last segment ends, one
    log per day, and there is at least one of them. *)
Theorem planned_trip_log_days
        (legs : list RouteLeg) (ccu : Q) (t0 : datetime)
        (segs : list TripSegment) :
  calculate_trip legs ccu t0 = Ok segs -> segs <> [] ->
  let logs := generate_eld_logs segs None in
  let end_date := date_of (end_time (last segs no_segment)) in
  map log_date logs = days_between (date_of t0) end_date
  /\ (date_of t0 <= end_date)%Z
  /\ (1 <= List.length logs)%nat.
Proof.
  intros Hrun Hne logs end_date. subst logs end_date.
  destruct (trip_timeline legs ccu t0 segs Hrun) as [Hord [t1 Hch]].
  destruct segs as [| first rest]; [contradiction |].
  assert (start_time first = t0) as Hfirst by apply Hch.
  pose proof (ordered_last _ t0 no_segment Hord Hne) as Hlast.
  apply date_of_mono in Hlast.
  unfold generate_eld_logs. cbv beta iota zeta.
  rewrite (last_indep (first :: rest) first no_segment Hne), Hfirst.
  set (n := Z.to_nat _).
  assert (1 <= n)%nat as Hn by (subst n; lia).
  split; [| split; [exact Hlast |]].
  - rewrite days_loop_dates. reflexivity.
  - rewrite <- (length_map log_date), days_loop_dates, length_map, length_seq.
    exact Hn.
Qed.

Lemma planned_trip_log_days_witness :
  map log_date (generate_eld_logs two_short_legs_segments None)
  = days_between (date_of 0%Z)
                 (date_of (end_time (last two_short_legs_segments no_segment)))
  /\ (date_of 0 <= date_of (end_time (last two_short_legs_segments no_segment)))%Z
  /\ (1 <= List.length (generate_eld_logs two_short_legs_segments None))%nat.
Proof.
  apply (planned_trip_log_days two_short_legs 0 0%Z two_short_legs_segments).
  - vm_compute. reflexivity.
  - vm_compute. discriminate.
Defined.

(** ** Hours of a day of contiguous segments *)

Lemma slices_late (d : date) (segs : list TripSegment) :
  forall t : datetime,
    ordered t segs -> (midnight d + us_per_day <= t)%Z ->
    slice_entries d segs = [].
Proof.
  induction segs as [| s segs IH]; intros t Hord Hlate; [reflexivity |].
  destruct Hord as (H1 & H2 & H3). rewrite slice_entries_cons.
  rewrite (IH (end_time s)) by (assumption || lia).
  unfold slice_entries. cbn [flat_map].
  destruct (Z.max (start_time s) (midnight d)
            >=? Z.min (end_time s) (midnight d + us_per_day))%Z eqn:E;
    [reflexivity |].
  rewrite Z.geb_leb in E. apply Z.leb_gt in E. lia.
Qed.

Lemma slices_tight (d : date) (segs : list TripSegment) :
  forall t t' : datetime,
    chained t segs t' -> Forall forward segs ->
    etight (hour_of d (Z.max t (midnight d))) (slice_entries d segs).
Proof.
  induction segs as [| s segs IH]; intros t t' Hch Hfw; [exact I |].
  destruct Hch as [Hs Hch]. inversion Hfw as [| ? ? Hfs Hfl]; subst.
  unfold forward in Hfs.
  pose proof (chained_forward_ordered _ _ _ Hch Hfl) as Hord.
  specialize (IH _ _ Hch Hfl).
  rewrite slice_entries_cons. unfold slice_entries at 1. cbn [flat_map].
  rewrite app_nil_r.
  set (a := midnight d) in *. set (b := (a + us_per_day)%Z) in *.
  assert (a < b)%Z as Hab by (subst b; unfold us_per_day; lia).
  destruct (Z_le_gt_dec b (end_time s)) as [Hlate | Hin].
  - rewrite (slices_late d segs (end_time s) Hord Hlate) in *.
    destruct (_ >=? _)%Z; cbn [app etight start_hour]; [exact I |].
    split; [reflexivity | exact I].
  - destruct (Z.max (start_time s) a >=? Z.min (end_time s) b)%Z eqn:E.
    + rewrite Z.geb_leb in E. apply Z.leb_le in E. cbn [app].
      replace (Z.max (start_time s) a) with (Z.max (end_time s) a) by lia.
      exact IH.
    + rewrite Z.geb_leb in E. apply Z.leb_gt in E.
      cbn [app etight start_hour end_hour]. split; [reflexivity |].
      replace (Z.min (end_time s) b) with (Z.max (end_time s) a) by lia.
      exact IH.
Qed.

Lemma eordered_tail (e : LogEntry) (r : list LogEntry) (c : Q) :
  eordered c (e :: r) -> eordered (end_hour e) r.
Proof. intros (_ & _ & _ & _ & _ & H). exact H. Qed.

Lemma fill_span_tight (es : list LogEntry) :
  forall cur : Q,
    rounded cur -> cur <= 24 -> eordered cur es -> etight cur es ->
    24 - cur - 0.01 <= span_hours (fill_from cur es) <= 24 - cur.
Proof.
  induction es as [| e r IH]; intros cur Hr H24 Hord Ht;
    unfold rounded in Hr; cbn [fill_from].
  - destruct (Qltb cur 23.99) eqn:E.
    + cbn [span_hours gap_entry start_hour end_hour]. lra.
    + apply Qltb_false in E. cbn [span_hours]. lra.
  - destruct Ht as [Hs Ht].
    destruct Hord as (H1 & H2 & H3 & H4 & H5 & H6).
    rewrite (proj2 (Qltb_false (cur + 0.01) (start_hour e))) by lra.
    cbn [app span_hours].
    specialize (IH (end_hour e) H5 H3 H6 Ht). lra.
Qed.

Lemma fill_gaps_span (es : list LogEntry) (c : Q) :
  eordered 0 es -> etight c es ->
  24 - 0.02 <= span_hours (_fill_gaps es) <= 24.
Proof.
  intros Hord Ht. unfold _fill_gaps. destruct es as [| e r].
  - cbn. lra.
  - rewrite (sort_ordered _ _ Hord). cbn [fill_from].
    destruct Ht as [_ Ht].
    destruct Hord as (H1 & H2 & H3 & H4 & H5 & H6). unfold rounded in H4.
    pose proof (fill_span_tight r (end_hour e) H5 H3 H6 Ht) as Hrest.
    destruct (Qltb (0 + 0.01) (start_hour e)) eqn:E.
    + cbn [app span_hours gap_entry start_hour end_hour].
      assert (py_round 0 4 == 0) as H0 by reflexivity. lra.
    + apply Qltb_false in E. cbn [app span_hours]. lra.
Qed.

Lemma py_round_near (x : Q) :
  x - 0.005 <= py_round x 2 <= x + 0.005.
Proof.
  pose proof (py_round_spec x 2) as Hs.
  pose proof (round_half_even_near (x * inject_Z (10 ^ Z.of_nat 2))) as Hn.
  rewrite <- Hs in Hn.
  change (inject_Z (10 ^ Z.of_nat 2)) with (100 # 1) in Hn. lra.
Qed.

Lemma contiguous_day_hours (segs : list TripSegment) (t t' : datetime)
      (d : date) (k : Z) :
  chained t segs t' -> Forall forward segs ->
  24 - 0.02 <= span_hours (entries (day_log segs d k)) <= 24.
Proof.
  intros Hch Hfw. rewrite day_log_entries.
  apply (fill_gaps_span _ (hour_of d (Z.max t (midnight d)))).
  - apply (slices_ordered d segs t).
    + eapply chained_forward_ordered; eassumption.
    + rewrite <- (hour_of_midnight d). apply hour_of_mono. lia.
  - eapply slices_tight; eassumption.
Qed.

(** For contiguous segments (each ends no earlier than it starts and the
    next one starts where it ends; the segments of a planned trip are such),
    the entries of every daily log cover the day but for at most 0.01 hour
    at each end: their hours add up to between 23.98 and 24, and the four
    rounded figures of [total_hours] to between 23.96 and 24.02. *)
Theorem contiguous_day_is_covered
        (segs : list TripSegment) (t t' : datetime)
        (trip_start_date : option date) (log : DailyLog) :
  chained t segs t' -> Forall forward segs ->
  In log (generate_eld_logs segs trip_start_date) ->
  24 - 0.02 <= span_hours (entries log) <= 24
  /\ 24 - 0.04 <= total_of (total_hours log) <= 24 + 0.02.
Proof.
  intros Hch Hfw Hin.
  destruct (generated_log segs trip_start_date log Hin) as [k E].
  pose proof (contiguous_day_hours segs t t' (log_date log) k Hch Hfw) as Hspan.
  rewrite <- E in Hspan. split; [exact Hspan |].
  assert (Forall (fun e => canonical_status (status e)) (entries log)) as Hc.
  { rewrite E. apply day_log_canonical. }
  pose proof (status_hours_span _ Hc) as Hsum.
  assert (off_duty_total (total_hours log)
          == py_round (status_hours "off_duty" (entries log)) 2
          /\ sleeper_berth_total (total_hours log)
             == py_round (status_hours "sleeper_berth" (entries log)) 2
          /\ driving_total (total_hours log)
             == py_round (status_hours "driving" (entries log)) 2
          /\ on_duty_not_driving_total (total_hours log)
             == py_round (status_hours "on_duty_not_driving" (entries log)) 2)
    as (T1 & T2 & T3 & T4).
  { rewrite E.
    repeat split;
      unfold day_log; cbn [total_hours off_duty_total sleeper_berth_total
                           driving_total on_duty_not_driving_total entries];
      apply py_round_comp; rewrite hours_fold; cbn [dict_get]; lra. }
  pose proof (py_round_near (status_hours "off_duty" (entries log))).
  pose proof (py_round_near (status_hours "sleeper_berth" (entries log))).
  pose proof (py_round_near (status_hours "driving" (entries log))).
  pose proof (py_round_near (status_hours "on_duty_not_driving" (entries log))).
  unfold total_of. lra.
Qed.

Lemma contiguous_day_is_covered_witness :
  let log := nth 1 (generate_eld_logs overnight_drive None) no_log in
  24 - 0.02 <= span_hours (entries log) <= 24
  /\ 24 - 0.04 <= total_of (total_hours log) <= 24 + 0.02.
Proof.
  intro log.
  apply (contiguous_day_is_covered overnight_drive (at_hour 22) (at_hour 26)
                                   None log).
  - vm_compute. split; reflexivity.
  - constructor; [| constructor]. vm_compute. discriminate.
  - vm_compute. right. left. reflexivity.
Defined.

(** * The response of [plan_trip] *)

Lemma py_sum_from (l : list Q) :
  forall a : Q, fold_left Qplus l a == a + Views.py_sum l.
Proof.
  unfold Views.py_sum. induction l as [| x l IH]; intro a; cbn [fold_left].
  - lra.
  - rewrite (IH (a + x)), (IH (0 + x)). lra.
Qed.

Lemma py_sum_cons (x : Q) (l : list Q) :
  Views.py_sum (x :: l) == x + Views.py_sum l.
Proof.
  unfold Views.py_sum at 1. cbn [fold_left]. rewrite py_sum_from. lra.
Qed.

Lemma py_sum_drive_miles (segs : list TripSegment) :
  Views.py_sum (map distance_miles (filter Views.is_drive_kind segs))
  == drive_miles segs.
Proof.
  induction segs as [| s segs IH]; [reflexivity |].
  cbn [filter drive_miles]. unfold Views.is_drive_kind at 1, is_drive.
  destruct (String.eqb (segment_type s) "drive").
  - cbn [map]. rewrite py_sum_cons, IH. reflexivity.
  - rewrite IH. lra.
Qed.





Lemma py_round_near_tenth (x : Q) :
  x - 0.05 <= py_round x 1 <= x + 0.05.
Proof.
  pose proof (py_round_spec x 1) as Hs.
  pose proof (round_half_even_near (x * inject_Z (10 ^ Z.of_nat 1))) as Hn.
  rewrite <- Hs in Hn.
  change (inject_Z (10 ^ Z.of_nat 1)) with (10 # 1) in Hn. lra.
Qed.



(** The total miles of a served response are the total length of the legs
    acted on, within the 0.1 mile that each leg may leave undriven and the
    0.05 of the rounding to one decimal. *)
Theorem served_total_miles
        (legs : list RouteLeg) (ccu : Q) (t0 : datetime) (r : Views.Response) :
  nonneg_legs legs ->
  Views.plan_trip_core legs ccu t0 = Views.Served r ->
  known_miles legs - known_slack legs - 0.05
  <= Views.total_miles (Views.trip_summary r)
  <= known_miles legs + 0.05.
Proof.
  unfold Views.plan_trip_core, calculate_trip, calculate_trip_trace.
  intros Hnn Hrun.
  pose proof (trip_loop_facts legs (HOSState_init ccu) [] t0) as H.
  destruct (trip_loop legs (HOSState_init ccu) [] t0) as [tr | |];
    try discriminate.
  injection Hrun as <-. destruct H as (added & -> & _ & _ & _ & _ & _ & Hd).
  specialize (Hd Hnn). cbn [app] in *.
  cbn [Views.trip_summary Views.summary_of Views.total_miles].
  pose proof (py_round_near_tenth
                (Views.py_sum
                   (map distance_miles
                        (filter Views.is_drive_kind (segments_of added)))))
    as Hr.
  pose proof (py_sum_drive_miles (segments_of added)) as Heq.
  lra.
Qed.

Lemma served_total_miles_witness :
  exists r : Views.Response,
    Views.plan_trip_core two_short_legs 0 0%Z = Views.Served r
    /\ known_miles two_short_legs - known_slack two_short_legs - 0.05
       <= Views.total_miles (Views.trip_summary r)
       <= known_miles two_short_legs + 0.05.
Proof.
  destruct (Views.plan_trip_core two_short_legs 0 0%Z) as [r |] eqn:E.
  - exists r. split; [reflexivity |].
    apply (served_total_miles two_short_legs 0 0%Z r); [| exact E].
    repeat constructor; intros _; vm_compute; discriminate.
  - vm_compute in E. discriminate E.
Defined.

(** Once the route legs are known, [plan_trip] answers with status 500
    exactly when the first leg acted on is at most 0.1 miles long - a pickup
    at the current location, say; in every other case it serves a
    response. *)
Theorem plan_trip_fails_iff
        (legs : list RouteLeg) (ccu : Q) (t0 : datetime) :
  Views.plan_trip_core legs ccu t0 = Views.Failed500
  <-> exists leg : RouteLeg,
      find known_leg legs = Some leg /\ leg_distance_miles leg <= 0.1.
Proof.
  unfold Views.plan_trip_core, calculate_trip, calculate_trip_trace.
  pose proof (trip_loop_facts legs (HOSState_init ccu) [] t0) as H.
  destruct (trip_loop legs (HOSState_init ccu) [] t0) as [tr | |];
    cbn [trip_outcome] in H.
  - destruct H as (added & _ & _ & _ & _ & _ & Hfirst & _).
    specialize (Hfirst eq_refl). split; [discriminate |].
    intros (leg & Hfind & Hshort). rewrite Hfind in Hfirst.
    destruct Hfirst as [Hlong _]. lra.
  - destruct H as (_ & leg & Hfind & Hshort). split; [eauto | reflexivity].
  - destruct H.
Qed.

(** * Places along a leg *)

Lemma blend_between (a b f : Q) :
  0 <= f <= 1 -> between a b (a + (b - a) * f).
Proof.
  intros [H0 H1]. unfold between.
  destruct (Qlt_le_dec b a) as [L | L]; [right | left]; split; nra.
Qed.

Lemma py_round_millionth (x : Q) :
  x - (1 # 2000000) <= py_round x 6 <= x + (1 # 2000000).
Proof.
  pose proof (py_round_spec x 6) as Hs.
  pose proof (round_half_even_near (x * inject_Z (10 ^ Z.of_nat 6))) as Hn.
  rewrite <- Hs in Hn.
  change (inject_Z (10 ^ Z.of_nat 6)) with (1000000 # 1) in Hn. lra.
Qed.

Lemma blend_about (a b f : Q) :
  0 <= f <= 1 ->
  about_between coord_tol a b (py_round (a + (b - a) * f) 6).
Proof.
  intro Hf. pose proof (py_round_millionth (a + (b - a) * f)) as Hr.
  unfold about_between, coord_tol.
  destruct (blend_between a b f Hf) as [[H1 H2] | [H1 H2]];
    [left | right]; split; lra.
Qed.

(** [interpolate_location] at a fraction within [0, 1] answers a point of
    the box spanned by the two locations, within the rounding to six
    decimals (one millionth of a degree allowed); at 0 and at 1 it answers
    the two locations themselves, within the same rounding; and the point
    it answers has no name. *)
Theorem interpolate_location_in_box (a b : Location) (f : Q) :
  0 <= f <= 1 ->
  let p := interpolate_location a b f in
  about_between coord_tol (lat a) (lat b) (lat p)
  /\ about_between coord_tol (lng a) (lng b) (lng p)
  /\ name p = ""%string
  /\ near coord_tol (lat a) (lat (interpolate_location a b 0))
  /\ near coord_tol (lng a) (lng (interpolate_location a b 0))
  /\ near coord_tol (lat b) (lat (interpolate_location a b 1))
  /\ near coord_tol (lng b) (lng (interpolate_location a b 1)).
Proof.
  intros Hf p. subst p. unfold interpolate_location. cbn [lat lng name].
  split; [apply blend_about; exact Hf |].
  split; [apply blend_about; exact Hf |].
  split; [reflexivity |].
  unfold near, coord_tol.
  repeat split;
    match goal with
    | |- context [py_round ?x 6] => pose proof (py_round_millionth x)
    end; lra.
Qed.

Lemma interpolate_location_in_box_witness :
  about_between coord_tol (lat depot) (lat dock)
                (lat (interpolate_location depot dock (1 # 3))).
Proof.
  apply (interpolate_location_in_box depot dock (1 # 3)).
  split; unfold Qle; cbn; lia.
Defined.




(** * Durations and reasons *)

Lemma pass_timed (sl el : Location) (tm : Q) (v : PlanVars) :
  0.1 < miles_remaining v ->
  Forall timed_shape (segments_of (segments v)) ->
  Forall timed_shape (segments_of (segments (loop_body sl el tm v))).
Proof.
  intros Hm Hall. assert (0 < miles_remaining v) as Hm0 by lra.
  destruct (Qlt_le_dec 0 (remaining_driving (state v))) as [Hd | Hd].
  - rewrite loop_body_drives by assumption.
    unfold drive_and_fuel. plan_proj.
    destruct (need_fuel v && Qltb 0.1 (miles_remaining v - miles_this_segment v));
      plan_proj.
    + rewrite <- app_assoc, segments_of_app. apply Forall_app.
      split; [exact Hall |]. cbn [segments_of map seg app].
      constructor; [left; repeat split |].
      constructor; [| constructor].
      right. right. right. split; [reflexivity |]. split; [left |]; reflexivity.
    + rewrite segments_of_app. apply Forall_app. split; [exact Hall |].
      cbn [segments_of map seg]. constructor; [| constructor].
      left. repeat split.
  - rewrite loop_body_interrupts by assumption. unfold interruption.
    destruct (needs_cycle_reset (state v));
      [| destruct (needs_break (state v) && negb (needs_rest (state v)))];
      plan_proj; rewrite segments_of_app; apply Forall_app;
      (split; [exact Hall |]); cbn [segments_of map seg];
      (constructor; [| constructor]).
    + right. right. left. split; [reflexivity |]. left. split; reflexivity.
    + right. left. repeat split.
    + right. right. left. split; [reflexivity |]. right. split; reflexivity.
Qed.

(** Every segment planned for a leg has the duration and the reason of its
    kind: a drive lasts its miles at 55 mph and reads "Driving"; a break
    lasts 30 minutes; a rest lasts 34 hours (cycle restart) or 10 hours; a
    fuel stop lasts 30 minutes - each with its own fixed reason. *)
Theorem planned_segments_timing
        (st : HOSState) (t0 : datetime) (start_loc end_loc : Location)
        (total_miles total_hours : Q) :
  exists (tr : list Emitted) (st' : HOSState),
    _plan_driving_segment st t0 start_loc end_loc total_miles total_hours
    = Ok (tr, st')
    /\ Forall timed_shape (segments_of tr).
Proof.
  destruct (planner_runs st t0 start_loc end_loc total_miles total_hours)
    as (v & Hrun & Hres).
  exists (segments v), (state v). split; [exact Hres |].
  refine (proj1 (plan_loop_invariant start_loc end_loc total_miles
            (fun w => Forall timed_shape (segments_of (segments w)))
            (fun w Hw Hm => pass_timed start_loc end_loc total_miles w Hm Hw)
            _ _ v _ Hrun)).
  constructor.
Qed.

(** * Miles of a day *)

Lemma project_segment_miles (d : date) (acc : DayAcc) (s : TripSegment) :
  day_miles (project_segment (midnight d) (midnight d + us_per_day)%Z acc s)
  == day_miles acc + miles_of d s.
Proof.
  unfold project_segment, miles_of. cbv zeta.
  destruct (Z.max (start_time s) (midnight d)
            >=? Z.min (end_time s) (midnight d + us_per_day))%Z; [lra |].
  cbn [day_miles].
  destruct (String.eqb (duty_status s) "driving" && Qltb 0 (distance_miles s));
    [| lra].
  destruct (Qltb 0 (duration_hours s)); lra.
Qed.

Lemma day_miles_fold (d : date) (segs : list TripSegment) :
  forall acc : DayAcc,
    day_miles (fold_left (project_segment (midnight d)
                                          (midnight d + us_per_day)%Z)
                         segs acc)
    == day_miles acc + day_share d segs.
Proof.
  induction segs as [| s segs IH]; intro acc; cbn [fold_left day_share].
  - lra.
  - rewrite IH, project_segment_miles. lra.
Qed.

Lemma day_log_miles (segs : list TripSegment) (d : date) (k : Z) :
  Eld.total_miles (day_log segs d k) == py_round (day_share d segs) 1.
Proof.
  unfold day_log. cbn [Eld.total_miles].
  apply py_round_comp. rewrite day_miles_fold. cbn [day_miles]. lra.
Qed.

Lemma midnight_next (d : date) :
  midnight (d + 1)%Z = (midnight d + us_per_day)%Z.
Proof. unfold midnight. lia. Qed.

Lemma midnight_mono (d : date) (n : nat) :
  (midnight d <= midnight (d + Z.of_nat n)%Z)%Z.
Proof. unfold midnight, us_per_day. lia. Qed.

Lemma slice_us_over_closed (s : TripSegment) (n : nat) :
  (start_time s <= end_time s)%Z ->
  forall d0 : date,
    slice_us_over n d0 s
    = Z.max 0 (Z.min (end_time s) (midnight (d0 + Z.of_nat n)%Z)
               - Z.max (start_time s) (midnight d0)).
Proof.
  intro Hfw. induction n as [| n IH]; intro d0.
  - cbn [slice_us_over]. replace (d0 + Z.of_nat 0)%Z with d0 by lia. lia.
  - cbn [slice_us_over]. rewrite IH. unfold slice_us.
    rewrite midnight_next.
    replace (d0 + Z.of_nat (S n))%Z with (d0 + 1 + Z.of_nat n)%Z by lia.
    pose proof (midnight_mono (d0 + 1)%Z n) as Hm. rewrite midnight_next in Hm.
    assert (0 < us_per_day)%Z as HD by (unfold us_per_day; lia).
    lia.
Qed.

Lemma miles_of_slice (d : date) (s : TripSegment) :
  duty_status s = "driving"%string -> 0 < distance_miles s ->
  (start_time s < end_time s)%Z ->
  miles_of d s
  == distance_miles s
     * (inject_Z (slice_us d s) / inject_Z (end_time s - start_time s)).
Proof.
  intros Hdu Hdist Hlt. unfold miles_of, slice_us. cbv zeta.
  set (u := Z.max (start_time s) (midnight d)).
  set (u' := Z.min (end_time s) (midnight d + us_per_day)).
  assert (0 < inject_Z (end_time s - start_time s)) as Hlen.
  { rewrite <- (Zlt_Qlt 0). lia. }
  destruct (u >=? u')%Z eqn:E.
  - rewrite Z.geb_leb in E. apply Z.leb_le in E.
    replace (Z.max 0 (u' - u)) with 0%Z by lia.
    change (inject_Z 0) with 0. unfold Qdiv. lra.
  - rewrite Z.geb_leb in E. apply Z.leb_gt in E.
    replace (Z.max 0 (u' - u)) with (u' - u)%Z by lia.
    rewrite Hdu, (proj2 (Qltb_true 0 (distance_miles s)) Hdist).
    cbn [String.eqb Ascii.eqb Bool.eqb andb].
    assert (0 < duration_hours s) as Hdur.
    { unfold duration_hours, hours_between. apply Qlt_shift_div_l;
        [reflexivity | lra]. }
    rewrite (proj2 (Qltb_true 0 (duration_hours s)) Hdur).
    unfold duration_hours, hours_between.
    assert (inject_Z (u' - u)
            == inject_Z (u' - midnight d) - inject_Z (u - midnight d)) as Hx.
    { replace (u' - u)%Z with ((u' - midnight d) + - (u - midnight d))%Z
        by lia.
      rewrite inject_Z_plus, inject_Z_opp. lra. }
    rewrite Hx.
    change (inject_Z us_per_hour) with (3600000000 # 1).
    set (x := inject_Z (u' - midnight d)). set (y := inject_Z (u - midnight d)).
    set (len := inject_Z (end_time s - start_time s)) in *.
    field. lra.
Qed.

Lemma miles_over_days_closed (s : TripSegment) (n : nat) :
  duty_status s = "driving"%string -> 0 < distance_miles s ->
  (start_time s < end_time s)%Z ->
  forall d0 : date,
    miles_over_days n d0 s
    == distance_miles s
       * (inject_Z (slice_us_over n d0 s)
          / inject_Z (end_time s - start_time s)).
Proof.
  intros Hdu Hdist Hlt.
  assert (0 < inject_Z (end_time s - start_time s)) as Hlen.
  { rewrite <- (Zlt_Qlt 0). lia. }
  induction n as [| n IH]; intro d0; cbn [miles_over_days slice_us_over].
  - change (inject_Z 0) with 0. unfold Qdiv. lra.
  - rewrite IH, (miles_of_slice d0 s Hdu Hdist Hlt), inject_Z_plus.
    field. lra.
Qed.

(** The miles of a driving segment are shared out over the days without
    loss: over consecutive days that cover the segment, the shares add up
    to the miles of the segment. *)
Theorem day_shares_add_up (s : TripSegment) (d0 : date) (n : nat) :
  duty_status s = "driving"%string -> 0 < distance_miles s ->
  (start_time s < end_time s)%Z ->
  (midnight d0 <= start_time s)%Z ->
  (end_time s <= midnight (d0 + Z.of_nat n)%Z)%Z ->
  miles_over_days n d0 s == distance_miles s.
Proof.
  intros Hdu Hdist Hlt Hlo Hhi.
  rewrite (miles_over_days_closed s n Hdu Hdist Hlt d0).
  rewrite slice_us_over_closed by lia.
  replace (Z.max 0 (Z.min (end_time s) (midnight (d0 + Z.of_nat n)%Z)
                    - Z.max (start_time s) (midnight d0)))
    with (end_time s - start_time s)%Z by lia.
  assert (0 < inject_Z (end_time s - start_time s)) as Hlen.
  { rewrite <- (Zlt_Qlt 0). lia. }
  field. lra.
Qed.

Lemma day_shares_add_up_witness :
  miles_over_days 2 0%Z (hd no_segment overnight_drive) == 220.
Proof.
  apply (day_shares_add_up (hd no_segment overnight_drive) 0%Z 2).
  - reflexivity.
  - reflexivity.
  - vm_compute. reflexivity.
  - vm_compute. discriminate.
  - vm_compute. discriminate.
Defined.

(** * Miles of a trip on its logs *)

Lemma miles_over_days_total (s : TripSegment) (d0 : date) (n : nat) :
  duty_status s = "driving"%string -> 0 < distance_miles s ->
  (start_time s < end_time s)%Z ->
  (midnight d0 <= start_time s)%Z ->
  (end_time s <= midnight (d0 + Z.of_nat n)%Z)%Z ->
  miles_over_days n d0 s == distance_miles s.
Proof.
  intros Hdu Hdist Hlt Hlo Hhi.
  rewrite (miles_over_days_closed s n Hdu Hdist Hlt d0).
  rewrite slice_us_over_closed by lia.
  replace (Z.max 0 (Z.min (end_time s) (midnight (d0 + Z.of_nat n)%Z)
                    - Z.max (start_time s) (midnight d0)))
    with (end_time s - start_time s)%Z by lia.
  assert (0 < inject_Z (end_time s - start_time s)) as Hlen.
  { rewrite <- (Zlt_Qlt 0). lia. }
  field. lra.
Qed.

Lemma miles_over_days_none (s : TripSegment) (n : nat) :
  String.eqb (duty_status s) "driving" && Qltb 0 (distance_miles s) = false ->
  forall d0 : date, miles_over_days n d0 s == 0.
Proof.
  intro H. induction n as [| n IH]; intro d0; cbn [miles_over_days];
    [reflexivity |].
  rewrite IH. unfold miles_of. cbv zeta. rewrite H.
  destruct (_ >=? _)%Z; lra.
Qed.

Lemma plausible_lasts (s : TripSegment) :
  plausible_drive s ->
  duty_status s = "driving"%string -> 0 < distance_miles s ->
  (start_time s < end_time s)%Z.
Proof.
  intros Hp Hdu Hdist. specialize (Hp Hdu Hdist).
  assert (0 < duration_hours s) as Hdur by lra.
  unfold duration_hours, hours_between in Hdur.
  destruct (Z_lt_le_dec (start_time s) (end_time s)) as [L | L]; [exact L |].
  exfalso.
  assert (inject_Z (end_time s - start_time s) <= 0) as Hneg.
  { rewrite <- (Zle_Qle _ 0). lia. }
  change (inject_Z us_per_hour) with (3600000000 # 1) in Hdur.
  qdiv. lra.
Qed.

Lemma shares_over_days_nil (n : nat) :
  forall d0 : date, shares_over_days n d0 [] == 0.
Proof.
  induction n as [| n IH]; intro d0; cbn [shares_over_days day_share];
    [reflexivity |].
  rewrite IH. lra.
Qed.

Lemma shares_over_days_cons (s : TripSegment) (segs : list TripSegment)
      (n : nat) :
  forall d0 : date,
    shares_over_days n d0 (s :: segs)
    == miles_over_days n d0 s + shares_over_days n d0 segs.
Proof.
  induction n as [| n IH]; intro d0;
    cbn [shares_over_days miles_over_days day_share]; [lra |].
  rewrite IH. lra.
Qed.

Lemma shares_over_days_total (d0 : date) (n : nat) (segs : list TripSegment) :
  Forall plausible_drive segs ->
  Forall (fun s => (midnight d0 <= start_time s)%Z
                   /\ (start_time s <= end_time s)%Z
                   /\ (end_time s <= midnight (d0 + Z.of_nat n)%Z)%Z) segs ->
  shares_over_days n d0 segs == driving_miles segs.
Proof.
  induction segs as [| s segs IH]; intros Hp Hin.
  - apply shares_over_days_nil.
  - inversion Hp as [| ? ? Hps Hpl]; subst.
    inversion Hin as [| ? ? (Hlo & _ & Hhi) Hinl]; subst.
    rewrite shares_over_days_cons, (IH Hpl Hinl). cbn [driving_miles].
    destruct (String.eqb (duty_status s) "driving"
              && Qltb 0 (distance_miles s)) eqn:E.
    + apply andb_true_iff in E as [Hdu Hdist].
      apply String.eqb_eq in Hdu. apply Qltb_true in Hdist.
      rewrite (miles_over_days_total s d0 n Hdu Hdist
                 (plausible_lasts s Hps Hdu Hdist) Hlo Hhi).
      lra.
    + rewrite (miles_over_days_none s n E d0). lra.
Qed.

Lemma days_loop_length (segs : list TripSegment) (n : nat) :
  forall (d : date) (k : Z), List.length (days_loop n segs d k) = n.
Proof.
  induction n as [| n IH]; intros d k; cbn [days_loop List.length];
    [reflexivity |].
  rewrite IH. reflexivity.
Qed.

Lemma days_loop_miles (segs : list TripSegment) (n : nat) :
  forall (d : date) (k : Z),
    near ((0.05 + slack) * inject_Z (Z.of_nat n))
         (shares_over_days n d segs) (logged_miles (days_loop n segs d k)).
Proof.
  unfold near, slack.
  induction n as [| n IH]; intros d k;
    cbn [days_loop logged_miles shares_over_days].
  - change (inject_Z (Z.of_nat 0)) with 0. lra.
  - specialize (IH (d + 1)%Z (k + 1)%Z).
    rewrite Nat2Z.inj_succ. unfold Z.succ. rewrite inject_Z_plus.
    change (inject_Z 1) with 1.
    rewrite (day_log_miles segs d (k + 1)).
    pose proof (py_round_near_tenth (day_share d segs)) as Hr. lra.
Qed.

Lemma ordered_in (l : list TripSegment) :
  forall (t : datetime) (d s : TripSegment),
    ordered t l -> In s l ->
    (t <= start_time s)%Z /\ (start_time s <= end_time s)%Z
    /\ (end_time s <= end_time (last l d))%Z.
Proof.
  induction l as [| a l IH]; intros t d s Hord Hin; [destruct Hin |].
  destruct Hord as (H1 & H2 & H3).
  destruct l as [| b l].
  - destruct Hin as [<- | []]. cbn. lia.
  - change (last (a :: b :: l) d) with (last (b :: l) d).
    destruct Hin as [<- | Hin].
    + assert (b :: l <> []) as Hne by discriminate.
      pose proof (ordered_last _ _ d H3 Hne). lia.
    + destruct (IH (end_time a) d s H3 Hin) as (A & B & C). lia.
Qed.

Lemma midnight_date_of (t : datetime) :
  (midnight (date_of t) <= t < midnight (date_of t + 1))%Z.
Proof.
  unfold midnight, date_of, us_per_day.
  pose proof (Z.div_mod t 86400000000 ltac:(lia)).
  pose proof (Z.mod_pos_bound t 86400000000 ltac:(lia)). lia.
Qed.

(** No mile is lost between a trip and its logs.  For segments in time
    order, whose driving segments take time (none is faster than 100 mph),
    the miles written on the daily logs add up to the miles of the driving
    segments, within the rounding to 0.1 of each log. *)
Theorem logged_miles_add_up (segs : list TripSegment) (t : datetime) :
  ordered t segs -> Forall plausible_drive segs ->
  let logs := generate_eld_logs segs None in
  near ((0.05 + slack) * inject_Z (Z.of_nat (List.length logs)))
       (driving_miles segs) (logged_miles logs).
Proof.
  intros Hord Hp logs. subst logs.
  destruct segs as [| first rest].
  - unfold near, slack.
    cbn [generate_eld_logs List.length logged_miles driving_miles].
    change (inject_Z (Z.of_nat 0)) with 0. lra.
  - unfold generate_eld_logs. cbv beta iota zeta.
    set (segs := first :: rest) in *.
    set (d0 := date_of (start_time first)).
    set (d1 := date_of (end_time (last segs first))).
    set (n := Z.to_nat (d1 - d0 + 1)).
    rewrite days_loop_length.
    assert (ordered (start_time first) segs) as Hord'.
    { destruct Hord as (_ & H2 & H3). cbn [ordered]. split; [lia |].
      split; assumption. }
    assert (d0 <= d1)%Z as Hd.
    { apply date_of_mono.
      apply (ordered_last segs (start_time first) first Hord').
      discriminate. }
    assert (shares_over_days n d0 segs == driving_miles segs) as Hsum.
    { apply shares_over_days_total; [exact Hp |].
      apply Forall_forall. intros s Hs.
      destruct (ordered_in segs (start_time first) first s Hord' Hs)
        as (A & B & C).
      pose proof (midnight_date_of (start_time first)) as M0.
      pose proof (midnight_date_of (end_time (last segs first))) as M1.
      fold d0 in M0. fold d1 in M1.
      replace (d0 + Z.of_nat n)%Z with (d1 + 1)%Z by (subst n; lia).
      lia. }
    pose proof (days_loop_miles segs n d0 0) as Hr.
    unfold near in *. lra.
Qed.

Lemma logged_miles_add_up_witness :
  near ((0.05 + slack)
        * inject_Z (Z.of_nat
                      (List.length (generate_eld_logs overnight_drive None))))
       (driving_miles overnight_drive)
       (logged_miles (generate_eld_logs overnight_drive None)).
Proof.
  apply (logged_miles_add_up overnight_drive 0%Z).
  - vm_compute. repeat split; discriminate.
  - constructor; [| constructor]. intros _ _. vm_compute. discriminate.
Defined.

(** * Entries within their day *)

Lemma slice_entries_within (d : date) (segs : list TripSegment) :
  Forall within_day (slice_entries d segs).
Proof.
  induction segs as [| s segs IH]; [constructor |].
  rewrite slice_entries_cons. apply Forall_app. split; [| exact IH].
  unfold slice_entries. cbn [flat_map].
  destruct (_ >=? _)%Z eqn:E; [constructor |].
  constructor; [| constructor].
  rewrite Z.geb_leb in E. apply Z.leb_gt in E.
  unfold within_day. cbn [start_hour end_hour].
  split; [| split].
  - rewrite <- (hour_of_midnight d). apply hour_of_mono. lia.
  - apply hour_of_mono. lia.
  - rewrite <- (hour_of_next_midnight d). apply hour_of_mono. lia.
Qed.

Lemma py_round_in_day (x : Q) : 0 <= x <= 24 -> 0 <= py_round x 4 <= 24.
Proof.
  intros [H0 H24]. split.
  - rewrite <- (py_round_Z 0 4). apply py_round_mono. exact H0.
  - rewrite <- (py_round_Z 24 4). apply py_round_mono. exact H24.
Qed.

Lemma fill_from_within (l : list LogEntry) :
  forall cur : Q,
    0 <= cur <= 24 -> Forall within_day l ->
    Forall within_day (fill_from cur l).
Proof.
  induction l as [| e l IH]; intros cur Hcur Hall; cbn [fill_from].
  - destruct (Qltb cur 23.99); [| constructor].
    constructor; [| constructor].
    unfold within_day, gap_entry. cbn [start_hour end_hour].
    pose proof (py_round_in_day cur Hcur). lra.
  - inversion Hall as [| ? ? (He0 & He1 & He2) Hl]; subst.
    apply Forall_app. split.
    + destruct (Qltb (cur + 0.01) (start_hour e)) eqn:E; [| constructor].
      apply Qltb_true in E. constructor; [| constructor].
      unfold within_day, gap_entry. cbn [start_hour end_hour].
      pose proof (py_round_in_day cur Hcur) as Hc.
      assert (0 <= start_hour e <= 24) as Hs by lra.
      pose proof (py_round_in_day _ Hs) as Hs'.
      split; [apply Hc |]. split; [| apply Hs'].
      apply py_round_mono. lra.
    + constructor; [repeat split; assumption |].
      apply IH; [lra | exact Hl].
Qed.

Lemma fill_gaps_within (l : list LogEntry) :
  Forall within_day l -> Forall within_day (_fill_gaps l).
Proof.
  intro Hall. unfold _fill_gaps. destruct l as [| e l].
  - constructor; [| constructor].
    unfold within_day, gap_entry. cbn [start_hour end_hour]. lra.
  - apply fill_from_within; [lra |].
    apply Forall_forall. intros x Hx.
    rewrite Forall_forall in Hall. apply Hall.
    apply (proj1 (sort_entries_in x (e :: l))). exact Hx.
Qed.

(** Whatever the segments - overlapping, out of order, running backwards -
    every entry of every daily log lies within its day: it starts at hour 0
    or later, ends at hour 24 or earlier, and does not end before it
    starts. *)
Theorem log_entries_within_day
        (segs : list TripSegment) (trip_start_date : option date)
        (log : DailyLog) :
  In log (generate_eld_logs segs trip_start_date) ->
  Forall within_day (entries log).
Proof.
  intro Hin. destruct (generated_log segs trip_start_date log Hin) as [k ->].
  rewrite day_log_entries. apply fill_gaps_within, slice_entries_within.
Qed.

Lemma log_entries_within_day_witness :
  Forall within_day
         (entries (nth 0 (generate_eld_logs overlapping_segments None) no_log)).
Proof.
  apply (log_entries_within_day overlapping_segments None).
  vm_compute. left. reflexivity.
Defined.

(** * What the whole trip keeps true *)

Section TripKeeps.

Variables (I : HOSState -> Prop) (G : Emitted -> Prop) (L : RouteLeg -> Prop).

Hypothesis plan_keeps :
  forall (leg : RouteLeg) (st : HOSState) (now : datetime)
         (tr : list Emitted) (st' : HOSState),
    L leg -> I st ->
    _plan_driving_segment st now (leg_start_location leg)
                          (leg_end_location leg) (leg_distance_miles leg)
                          (leg_distance_miles leg / AVG_SPEED_MPH)
    = Ok (tr, st') ->
    I st' /\ Forall G tr.

Hypothesis rest_keeps :
  forall (st : HOSState) (r : TripSegment),
    I st -> is_drive r = false -> is_fuel r = false ->
    (I (take_rest st) /\ G (mkEmitted r (take_rest st)))
    /\ (I (take_cycle_restart st) /\ G (mkEmitted r (take_cycle_restart st))).

Hypothesis work_keeps :
  forall (st : HOSState) (w : TripSegment) (h : Q),
    I st -> 0 <= h -> is_drive w = false -> is_fuel w = false ->
    I (add_on_duty h st) /\ G (mkEmitted w (add_on_duty h st)).

Lemma drive_then_work_keeps (kind why : string) (wh : Q) (leg : RouteLeg)
      (st : HOSState) (segs : list Emitted) (now : datetime) :
  kind = "pickup"%string \/ kind = "dropoff"%string -> 0 <= wh ->
  L leg -> I st -> Forall G segs ->
  match drive_then_work kind why wh leg st segs now with
  | Ok (st', segs', _) => I st' /\ Forall G segs'
  | _ => True
  end.
Proof.
  intros Hkind Hwh Hleg Hst Hsegs. unfold drive_then_work.
  destruct (_plan_driving_segment st now (leg_start_location leg)
              (leg_end_location leg) (leg_distance_miles leg)
              (leg_distance_miles leg / AVG_SPEED_MPH))
    as [[planned st1] | |] eqn:Hres; [| exact Logic.I | exact Logic.I].
  destruct (plan_keeps leg st now planned st1 Hleg Hst Hres) as [Hst1 Hpl].
  destruct (last_item (segs ++ planned)) as [l1 |]; [| exact Logic.I].
  assert (Forall G (segs ++ planned)) as Hall
      by (apply Forall_app; split; assumption).
  unfold _check_and_add_rest_if_needed.
  destruct (needs_cycle_reset st1); [| destruct (needs_rest st1)];
    cbv beta iota zeta.
  - match goal with
    | |- context [mkEmitted ?r (take_cycle_restart st1)] =>
        destruct (rest_keeps st1 r Hst1 eq_refl eq_refl) as [_ [Hs Hg]]
    end.
    match goal with
    | |- context [mkEmitted ?w (add_on_duty wh ?s)] =>
        destruct (work_keeps s w wh Hs Hwh) as [Hs3 Hg3];
          [destruct Hkind as [-> | ->]; reflexivity
          | destruct Hkind as [-> | ->]; reflexivity |]
    end.
    split; [exact Hs3 |].
    repeat (apply Forall_app; split); auto.
  - match goal with
    | |- context [mkEmitted ?r (take_rest st1)] =>
        destruct (rest_keeps st1 r Hst1 eq_refl eq_refl) as [[Hs Hg] _]
    end.
    match goal with
    | |- context [mkEmitted ?w (add_on_duty wh ?s)] =>
        destruct (work_keeps s w wh Hs Hwh) as [Hs3 Hg3];
          [destruct Hkind as [-> | ->]; reflexivity
          | destruct Hkind as [-> | ->]; reflexivity |]
    end.
    split; [exact Hs3 |].
    repeat (apply Forall_app; split); auto.
  - match goal with
    | |- context [mkEmitted ?w (add_on_duty wh ?s)] =>
        destruct (work_keeps s w wh Hst1 Hwh) as [Hs3 Hg3];
          [destruct Hkind as [-> | ->]; reflexivity
          | destruct Hkind as [-> | ->]; reflexivity |]
    end.
    split; [exact Hs3 |].
    repeat (apply Forall_app; split); auto.
Qed.

Lemma trip_loop_keeps (legs : list RouteLeg) :
  forall (st : HOSState) (segs : list Emitted) (now : datetime),
    Forall (fun leg => known_leg leg = true -> L leg) legs ->
    I st -> Forall G segs ->
    match trip_loop legs st segs now with
    | Ok tr => Forall G tr
    | _ => True
    end.
Proof.
  induction legs as [| leg rest IH]; intros st segs now Hlegs Hst Hsegs;
    cbn [trip_loop]; [exact Hsegs |].
  inversion Hlegs as [| ? ? Hleg Hrest]; subst.
  fold (leg_kind leg). unfold known_leg in Hleg.
  destruct (String.eqb (leg_kind leg) "drive_to_pickup").
  - pose proof (drive_then_work_keeps "pickup" "Pickup - Loading"
                  PICKUP_DURATION_HOURS leg st segs now) as H.
    destruct (drive_then_work "pickup" _ _ leg st segs now)
      as [[[st' segs'] now'] | |]; [| exact Logic.I | exact Logic.I].
    destruct H as [Hst' Hsegs']; auto; [unfold_consts; lra |].
    apply IH; assumption.
  - destruct (String.eqb (leg_kind leg) "drive_to_dropoff").
    + pose proof (drive_then_work_keeps "dropoff" "Dropoff - Unloading"
                    DROPOFF_DURATION_HOURS leg st segs now) as H.
      destruct (drive_then_work "dropoff" _ _ leg st segs now)
        as [[[st' segs'] now'] | |]; [| exact Logic.I | exact Logic.I].
      destruct H as [Hst' Hsegs']; auto; [unfold_consts; lra |].
      apply IH; assumption.
    + apply IH; assumption.
Qed.

End TripKeeps.

(** * The counters of the ledger and the reach of a drive *)

Lemma timedelta_at_most (h : Q) (n : Z) :
  h <= inject_Z n -> (timedelta_hours h <= n * us_per_hour)%Z.
Proof.
  intro H. unfold timedelta_hours.
  rewrite <- (round_half_even_Z (n * us_per_hour)).
  apply round_half_even_mono. rewrite inject_Z_mult.
  apply Qmult_le_compat_r; [exact H | discriminate].
Qed.

Lemma not_drive_short (s : TripSegment) : is_drive s = false -> short_drive s.
Proof. intros H C. rewrite H in C. discriminate. Qed.

Lemma pass_steady (sl el : Location) (tm : Q) (v : PlanVars) :
  0.1 < miles_remaining v ->
  counters_ordered (state v) /\ Forall steady (segments v) ->
  counters_ordered (state (loop_body sl el tm v))
  /\ Forall steady (segments (loop_body sl el tm v)).
Proof.
  intros Hm [Hord Hall]. assert (0 < miles_remaining v) as Hm0 by lra.
  destruct Hord as (O1 & O2 & O3).
  destruct (Qlt_le_dec 0 (remaining_driving (state v))) as [Hd | Hd].
  - rewrite loop_body_drives by assumption.
    destruct (miles_this_segment_bounds v Hd Hm0) as (M0 & _ & M2 & _).
    destruct (remaining_driving_bounds _ Hd) as (_ & _ & B & _).
    assert (0 < miles_this_segment v / AVG_SPEED_MPH <= 8) as [H0 H8].
    { unfold AVG_SPEED_MPH. qdiv. lra. }
    set (h := miles_this_segment v / AVG_SPEED_MPH) in *.
    assert (counters_ordered (add_driving h (state v))) as Hdrv.
    { unfold counters_ordered, add_driving. plan_proj. lra. }
    assert (forall a b : Location,
               short_drive (drive_segment (current_time v) h a b
                                          (miles_this_segment v))) as Hshort.
    { intros a b _. unfold drive_segment.
      cbn [distance_miles start_time end_time]. split; [lra |].
      pose proof (timedelta_at_most h 8 H8). lia. }
    unfold drive_and_fuel. plan_proj.
    destruct (need_fuel v && Qltb 0.1 (miles_remaining v - miles_this_segment v));
      plan_proj.
    + split.
      * unfold counters_ordered, add_on_duty, add_driving. plan_proj.
        unfold_consts. lra.
      * apply Forall_app. split.
        -- apply Forall_app. split; [exact Hall |].
           constructor; [| constructor]. split; [exact Hdrv | apply Hshort].
        -- constructor; [| constructor]. split.
           ++ unfold counters_ordered, add_on_duty, add_driving. plan_proj.
              unfold_consts. lra.
           ++ apply not_drive_short. reflexivity.
    + split; [exact Hdrv |].
      apply Forall_app. split; [exact Hall |].
      constructor; [| constructor]. split; [exact Hdrv | apply Hshort].
  - rewrite loop_body_interrupts by assumption. unfold interruption.
    destruct (needs_cycle_reset (state v));
      [| destruct (needs_break (state v) && negb (needs_rest (state v)))];
      plan_proj;
      (assert (forall st' : HOSState,
                  st' = take_cycle_restart (state v)
                  \/ st' = take_break (state v) \/ st' = take_rest (state v) ->
                  counters_ordered st') as Hnew
          by (intros st' [-> | [-> | ->]];
              unfold counters_ordered, take_cycle_restart, take_break,
                take_rest; plan_proj; lra));
      (split; [apply Hnew; auto |]);
      (apply Forall_app; split; [exact Hall |]);
      (constructor; [| constructor]);
      (split; [apply Hnew; auto | apply not_drive_short; reflexivity]).
Qed.

Lemma planner_steady (st : HOSState) (t0 : datetime) (sl el : Location)
      (total th : Q) (tr : list Emitted) (st1 : HOSState) :
  counters_ordered st ->
  _plan_driving_segment st t0 sl el total th = Ok (tr, st1) ->
  counters_ordered st1 /\ Forall steady tr.
Proof.
  intros Hst Hres.
  destruct (planner_runs st t0 sl el total th) as (v & Hrun & Hres').
  rewrite Hres in Hres'. injection Hres' as -> ->.
  refine (proj1 (plan_loop_invariant sl el total
            (fun w => counters_ordered (state w) /\ Forall steady (segments w))
            (fun w Hw Hm => pass_steady sl el total w Hm Hw)
            _ _ v _ Hrun)).
  plan_proj. split; [exact Hst | constructor].
Qed.

Lemma trip_steady (legs : list RouteLeg) (ccu : Q) (t0 : datetime)
      (tr : list Emitted) :
  calculate_trip_trace legs ccu t0 = Ok tr -> Forall steady tr.
Proof.
  unfold calculate_trip_trace. intro Hrun.
  pose proof (trip_loop_keeps counters_ordered steady (fun _ => True)) as H.
  specialize (H (fun leg st now tr' st' _ Hst Hres =>
                   planner_steady st now _ _ _ _ tr' st' Hst Hres)).
  assert (forall s : HOSState, counters_ordered s ->
            counters_ordered (take_rest s)
            /\ counters_ordered (take_cycle_restart s)) as Hrest.
  { intros s _.
    unfold counters_ordered, take_cycle_restart, take_rest. plan_proj.
    split; lra. }
  assert (forall (s : HOSState) (h : Q), counters_ordered s -> 0 <= h ->
            counters_ordered (add_on_duty h s)) as Hwork.
  { intros s h (A & B & C) Hh. unfold counters_ordered, add_on_duty.
    plan_proj. lra. }
  specialize (H (fun st r Hst Hnd _ =>
                   conj (conj (proj1 (Hrest st Hst))
                              (conj (proj1 (Hrest st Hst))
                                    (not_drive_short r Hnd)))
                        (conj (proj2 (Hrest st Hst))
                              (conj (proj2 (Hrest st Hst))
                                    (not_drive_short r Hnd))))).
  specialize (H (fun st w h Hst Hh Hnd _ =>
                   conj (Hwork st h Hst Hh)
                        (conj (Hwork st h Hst Hh) (not_drive_short w Hnd)))).
  specialize (H legs (HOSState_init ccu) [] t0).
  rewrite Hrun in H. apply H.
  - apply Forall_forall. intros; exact Logic.I.
  - unfold counters_ordered, HOSState_init. plan_proj. lra.
  - constructor.
Qed.

(** Throughout a trip the counters of the ledger stay in order - the hours
    since the last break are never negative and never more than the hours
    driven, which are never more than the hours of the window - and no
    drive segment is longer than 8 hours or 440 miles. *)
Theorem trip_drives_are_short
        (legs : list RouteLeg) (ccu : Q) (t0 : datetime) (tr : list Emitted) :
  calculate_trip_trace legs ccu t0 = Ok tr ->
  Forall (fun e => counters_ordered (ledger e)) tr
  /\ Forall short_drive (segments_of tr).
Proof.
  intro Hrun. pose proof (trip_steady legs ccu t0 tr Hrun) as H. split.
  - eapply Forall_impl; [| exact H]. intros e [He _]. exact He.
  - unfold segments_of. apply Forall_map.
    eapply Forall_impl; [| exact H]. intros e [_ He]. exact He.
Qed.

Lemma trip_drives_are_short_witness :
  Forall short_drive two_short_legs_segments.
Proof.
  apply (trip_drives_are_short two_short_legs 0 0%Z two_short_legs_trace).
  vm_compute. reflexivity.
Defined.

(** * Legs that need no fuel *)

Lemma pass_no_fuel (sl el : Location) (tm : Q) (v : PlanVars) :
  tm <= FUEL_INTERVAL_MILES ->
  0.1 < miles_remaining v ->
  miles_since_fuel v + miles_remaining v == tm
  /\ Forall not_fuel (segments v) ->
  miles_since_fuel (loop_body sl el tm v)
  + miles_remaining (loop_body sl el tm v) == tm
  /\ Forall not_fuel (segments (loop_body sl el tm v)).
Proof.
  intros Htm Hm [Hsum Hall]. assert (0 < miles_remaining v) as Hm0 by lra.
  destruct (Qlt_le_dec 0 (remaining_driving (state v))) as [Hd | Hd].
  - rewrite loop_body_drives by assumption.
    assert (need_fuel v = false) as Hnf.
    { unfold need_fuel. apply andb_false_iff. right. apply Qltb_false.
      unfold miles_to_fuel. unfold_consts. qcases; lra. }
    assert (miles_this_segment v
            = py_min (miles_remaining v) (miles_can_drive v)) as Hmts.
    { unfold miles_this_segment. rewrite Hnf. reflexivity. }
    rewrite Hnf. unfold drive_and_fuel. plan_proj. split; [lra |].
    apply Forall_app. split; [exact Hall |].
    constructor; [reflexivity | constructor].
  - rewrite loop_body_interrupts by assumption.
    destruct (interruption_frame sl el tm v) as [-> ->].
    split; [exact Hsum |]. unfold interruption.
    destruct (needs_cycle_reset (state v));
      [| destruct (needs_break (state v) && negb (needs_rest (state v)))];
      plan_proj; (apply Forall_app; split; [exact Hall |]);
      (constructor; [reflexivity | constructor]).
Qed.

Lemma planner_no_fuel (st : HOSState) (t0 : datetime) (sl el : Location)
      (total th : Q) (tr : list Emitted) (st1 : HOSState) :
  total <= FUEL_INTERVAL_MILES ->
  _plan_driving_segment st t0 sl el total th = Ok (tr, st1) ->
  Forall not_fuel tr.
Proof.
  intros Htot Hres.
  destruct (planner_runs st t0 sl el total th) as (v & Hrun & Hres').
  rewrite Hres in Hres'. injection Hres' as -> ->.
  refine (proj2 (proj1 (plan_loop_invariant sl el total
            (fun w => miles_since_fuel w + miles_remaining w == total
                      /\ Forall not_fuel (segments w))
            (fun w Hw Hm => pass_no_fuel sl el total w Htot Hm Hw)
            _ _ v _ Hrun))).
  plan_proj. split; [lra | constructor].
Qed.

(** A trip none of whose legs is longer than 1000 miles is planned without
    a fuel stop, however long the trip is as a whole: the miles since the
    last fuel stop are counted anew for every leg. *)
Theorem short_legs_need_no_fuel
        (legs : list RouteLeg) (ccu : Q) (t0 : datetime)
        (segs : list TripSegment) :
  legs_within_fuel_interval legs ->
  calculate_trip legs ccu t0 = Ok segs ->
  Forall (fun s => is_fuel s = false) segs.
Proof.
  unfold calculate_trip, calculate_trip_trace. intros Hlegs Hrun.
  pose proof (trip_loop_keeps (fun _ => True) not_fuel
                (fun leg => leg_distance_miles leg <= FUEL_INTERVAL_MILES)) as H.
  specialize (H (fun leg st now tr' st' Hleg _ Hres =>
                   conj Logic.I
                        (planner_no_fuel st now _ _ _ _ tr' st' Hleg Hres))).
  specialize (H (fun st r _ _ Hnf =>
                   conj (conj Logic.I Hnf) (conj Logic.I Hnf))).
  specialize (H (fun st w h _ _ _ Hnf => conj Logic.I Hnf)).
  specialize (H legs (HOSState_init ccu) [] t0 Hlegs Logic.I (Forall_nil _)).
  destruct (trip_loop legs (HOSState_init ccu) [] t0) as [tr | |];
    try discriminate.
  injection Hrun as <-. unfold segments_of. apply Forall_map. exact H.
Qed.

Lemma short_legs_need_no_fuel_witness :
  Forall (fun s => is_fuel s = false) two_short_legs_segments.
Proof.
  apply (short_legs_need_no_fuel two_short_legs 0 0%Z).
  - repeat constructor; intros _; vm_compute; discriminate.
  - vm_compute. reflexivity.
Defined.
